(** * Digital-twin city traffic simulation: shallow embedding and properties

    The development embeds the three simulation scripts of the repository

      - [step6_run_calibrated_simulation.py]  (random-walk agents),
      - [step8_what_if_highway_closure.py]    (shortest-path agents on a
                                               network with closed roads),
      - [step9c_congestion_simulation.py]     (congestion-aware agents),

    as state-passing functions over an explicit world value, and proves
    properties of the congestion recompute, the occupancy grid, the route
    bookkeeping, the agent step and the initial placement.

    Modelling conventions.

      - A Python exception is a value [Raise e] of the [result] type; it
        ends the computation (no script catches anything but the router's
        two exceptions, which are modelled where they are caught).
      - Python [float]s are idealised as exact rationals ([Q]).
      - A [dict] is a [gmap], a [set] of agents is a [gset] of agent ids,
        the [AgentList] is a [list] addressed by index.
      - A [random.Random] instance is an explicit draw stream with a cursor;
        the module-level [random] generator is a second, separate stream.
      - [networkx.shortest_path] and the run loop of [agentpy] belong to
        libraries, not to the repository: the router is a parameter of the
        development, the run loop follows the library's documented order
        (setup, update, then per tick: t += 1, step, update). *)

From Stdlib Require Import ZArith QArith Qminmax Lqa Lia Ascii String.
From stdpp Require Import gmap strings list fin_maps.

Local Open Scope Z_scope.

(** ** Python values and exceptions *)

Inductive pyerr : Type :=
| KeyError
| IndexError
| ValueError
| TypeError
| OverflowError
| ZeroDivisionError
| NetworkXNoPath
| NodeNotFound
| NetworkXError.

Inductive result (A : Type) : Type :=
| Ok (a : A)
| Raise (e : pyerr).
Arguments Ok {A} a.
Arguments Raise {A} e.

#[global] Instance result_bind : MBind result := λ A B k m,
  match m with
  | Ok a => k a
  | Raise e => Raise e
  end.

#[global] Instance result_ret : MRet result := λ A a, Ok a.

#[global] Instance result_fmap : FMap result := λ A B f m,
  match m with
  | Ok a => Ok (f a)
  | Raise e => Raise e
  end.

(** [for x in xs: acc = f(acc, x)] with exceptions. *)
Fixpoint foldM {A S} (f : S → A → result S) (s : S) (xs : list A) : result S :=
  match xs with
  | [] => Ok s
  | x :: xs' => s' ← f s x ; foldM f s' xs'
  end.

(** [for x in xs: ys.append(f(x))] with exceptions. *)
Fixpoint mapM {A B} (f : A → result B) (xs : list A) : result (list B) :=
  match xs with
  | [] => Ok []
  | x :: xs' => y ← f x ; ys ← mapM f xs' ; Ok (y :: ys)
  end.

(** ** Attribute values and the numeric casts

    What [ox.load_graphml] leaves in an edge's attribute dictionary: a
    string, a number it converted itself, or a list (a GraphML value
    spelled as a Python list literal). *)

#[local] Unset Elimination Schemes.
Inductive PyVal : Type :=
| PStr (s : string)
| PInt (z : Z)
| PFloat (q : Q)
| PList (l : list PyVal).
#[local] Set Elimination Schemes.

(** A Python [float]: a finite value (idealised as a rational) or one of
    the three non-finite ones. *)
Inductive pyfloat : Type :=
| Fin (q : Q)
| Inf
| NegInf
| NaN.

Definition is_space (c : ascii) : bool :=
  let n := nat_of_ascii c in
  bool_decide (n = 32 ∨ (9 ≤ n ≤ 13))%nat.

Definition digit_of (c : ascii) : option Z :=
  let n := nat_of_ascii c in
  if bool_decide (48 ≤ n ≤ 57)%nat then Some (Z.of_nat (n - 48)) else None.

Definition lower (c : ascii) : ascii :=
  let n := nat_of_ascii c in
  if bool_decide (65 ≤ n ≤ 90)%nat then ascii_of_nat (n + 32) else c.

Fixpoint lstrip (l : list ascii) : list ascii :=
  match l with
  | c :: l' => if is_space c then lstrip l' else l
  | [] => []
  end.

Definition strip (l : list ascii) : list ascii :=
  rev (lstrip (rev (lstrip l))).

(** A run of digits, single underscores allowed between two digits:
    the value read so far, the number of digits, and the rest. *)
Fixpoint digitpart (acc : Z) (n : nat) (l : list ascii) : Z * nat * list ascii :=
  match l with
  | c :: l' =>
      match digit_of c with
      | Some d => digitpart (10 * acc + d) (S n) l'
      | None =>
          if bool_decide (c = "_"%char ∧ (0 < n)%nat) then
            match l' with
            | c2 :: l'' =>
                match digit_of c2 with
                | Some d => digitpart (10 * acc + d) (S n) l''
                | None => (acc, n, l)
                end
            | [] => (acc, n, l)
            end
          else (acc, n, l)
      end
  | [] => (acc, n, l)
  end.

(** [+] or [-] in front: the sign and the rest. *)
Definition sign_of (l : list ascii) : bool * list ascii :=
  match l with
  | "-"%char :: l' => (true, l')
  | "+"%char :: l' => (false, l')
  | _ => (false, l)
  end.

(** The exponent part, [e] or [E], an optional sign and digits. *)
Definition exponent (l : list ascii) : option (Z * list ascii) :=
  match l with
  | c :: l' =>
      if bool_decide (lower c = "e"%char) then
        let '(neg, l1) := sign_of l' in
        let '(v, n, rest) := digitpart 0 0 l1 in
        if bool_decide (n = 0%nat) then None
        else Some (if neg then - v else v, rest)
      else Some (0, l)
  | [] => Some (0, l)
  end.

(** [m * 10 ^ e] as a rational. *)
Definition scale10 (m e : Z) : Q :=
  if bool_decide (0 ≤ e) then inject_Z (m * 10 ^ e)
  else Qmake m (Z.to_pos (10 ^ (- e))).

(** The decimal literals [float] accepts, after the sign. *)
Definition unsigned_float (l : list ascii) : option Q :=
  let '(ip, ni, l1) := digitpart 0 0 l in
  let '(fp, nf, l2) :=
    match l1 with
    | "."%char :: l1' => digitpart ip 0 l1'
    | _ => (ip, 0%nat, l1)
    end in
  if bool_decide (ni = 0 ∧ nf = 0)%nat then None
  else
    match exponent l2 with
    | Some (e, []) => Some (scale10 fp (e - Z.of_nat nf))
    | _ => None
    end.

(** [float(s)] for a string of ASCII characters. *)
Definition float_of_string (s : string) : result pyfloat :=
  let '(neg, l) := sign_of (strip (list_ascii_of_string s)) in
  let word := string_of_list_ascii (lower <$> l) in
  if bool_decide (word = "inf" ∨ word = "infinity") then
    Ok (if neg then NegInf else Inf)
  else if bool_decide (word = "nan") then Ok NaN
  else
    match unsigned_float l with
    | Some q => Ok (Fin (if neg then - q else q)%Q)
    | None => Raise ValueError
    end.

(** [float(x)] *)
Definition py_float (x : PyVal) : result pyfloat :=
  match x with
  | PStr s => float_of_string s
  | PInt z => Ok (Fin (inject_Z z))
  | PFloat q => Ok (Fin q)
  | PList _ => Raise TypeError
  end.

(** [int(f)]: truncation towards zero.  The truncation is that of the
    exact decimal, where Python truncates the nearest double; the two
    differ only within half an ulp below an integer or beyond [2^53]. *)
Definition py_int (f : pyfloat) : result Z :=
  match f with
  | Fin q => Ok (Z.quot (Qnum q) (Zpos (Qden q)))
  | Inf | NegInf => Raise OverflowError
  | NaN => Raise ValueError
  end.

(** A float attribute kept as a rational: the non-finite values have no
    place in the idealisation and are refused. *)
Definition finite (f : pyfloat) : result Q :=
  match f with
  | Fin q => Ok q
  | _ => Raise ValueError
  end.

(** ** The road network

    A [networkx.MultiDiGraph]: nodes in insertion order, edges in the order
    [G.edges(keys=True, data=True)] yields them, each with its attribute
    data. *)

Definition node := Z.

Record Edge (D : Type) : Type := mkEdge {
  e_u : node;
  e_v : node;
  e_key : Z;
  e_data : D
}.
Arguments mkEdge {D} _ _ _ _.
Arguments e_u {D} _.
Arguments e_v {D} _.
Arguments e_key {D} _.
Arguments e_data {D} _.

Record Graph (D : Type) : Type := mkGraph {
  g_nodes : list node;
  g_edges : list (Edge D)
}.
Arguments mkGraph {D} _ _.
Arguments g_nodes {D} _.
Arguments g_edges {D} _.

(** [n in G] *)
Definition has_node {D} (g : Graph D) (n : node) : bool :=
  bool_decide (n ∈ g_nodes g).

(** Heads of the out-edges of [n], each once, in first-seen order. *)
Definition successors {D} (g : Graph D) (n : node) : list node :=
  remove_dups (e_v <$> filter (λ e, e_u e = n) (g_edges g)).

(** [G.neighbors(n)]: the successors; [NetworkXError] for a foreign node. *)
Definition neighbors {D} (g : Graph D) (n : node) : result (list node) :=
  if has_node g n then Ok (successors g n) else Raise NetworkXError.

(** ** The shared random source

    A generator is the stream of draws its seed determines, together with
    the number of draws consumed so far. *)

Record Rng : Type := mkRng {
  stream : nat → nat;
  cursor : nat
}.

Definition seeded (s : nat → nat) : Rng := mkRng s 0.

(** One draw below [n]. *)
Definition randbelow (n : nat) (r : Rng) : nat * Rng :=
  ((stream r (cursor r) `mod` n)%nat, mkRng (stream r) (S (cursor r))).

(** [random.choice(seq)]: [IndexError] on an empty sequence. *)
Definition choice {A} (seq : list A) (r : Rng) : result (A * Rng) :=
  let '(i, r') := randbelow (length seq) r in
  match seq !! i with
  | Some x => Ok (x, r')
  | None => Raise IndexError
  end.

(** [random.choices(population, k=k)]: [k] draws with replacement. *)
Fixpoint choices {A} (population : list A) (k : nat) (r : Rng)
  : result (list A * Rng) :=
  match k with
  | O => Ok ([], r)
  | S k' =>
      '(x, r1) ← choice population r ;
      '(xs, r2) ← choices population k' r1 ;
      Ok (x :: xs, r2)
  end.

(** ** Agents and the simulation state

    Both agent classes ([VehicleAgent] of the random-walk script and of the
    two routing scripts) expose an identifier and a position; the position
    of a routing agent is [None] until the model places it. *)

Class AgentLike (A : Type) : Type := {
  a_id : A → nat;
  a_pos : A → option node;
  a_set_pos : node → A → A;
  a_id_set_pos : ∀ n a, a_id (a_set_pos n a) = a_id a;
  a_pos_set_pos : ∀ n a, a_pos (a_set_pos n a) = Some n
}.

(** The attributes of [CityModel] ([self.G], [self.graph_nodes],
    [self.grid], [self.agent_positions], [self.agents], [self.t],
    [self.random]) and the generator of the [random] module. *)
Record World (A D : Type) : Type := mkWorld {
  G : Graph D;
  graph_nodes : list node;
  grid : gmap node (gset nat);
  agent_positions : gmap nat node;
  agents : list A;
  t : nat;
  random : Rng;
  global_random : Rng
}.
Arguments mkWorld {A D} _ _ _ _ _ _ _ _.
Arguments G {A D} _.
Arguments graph_nodes {A D} _.
Arguments grid {A D} _.
Arguments agent_positions {A D} _.
Arguments agents {A D} _.
Arguments t {A D} _.
Arguments random {A D} _.
Arguments global_random {A D} _.

Section ManualGrid.
Context {A D : Type} `{AgentLike A}.

(** [CityModel.move_agent], identical in the three scripts.  The agent
    object is referred to by its index in [self.agents].

<<
    current_pos = agent.pos
    self.grid[current_pos].remove(agent)
    self.grid[new_pos].add(agent)
    agent.pos = new_pos
    self.agent_positions[agent.id] = new_pos
>>
*)
Definition move_agent (i : nat) (new_pos : node) (w : World A D)
  : result (World A D) :=
  match agents w !! i with
  | None => Raise IndexError
  | Some agent =>
      match a_pos agent with
      | None => Raise KeyError
      | Some current_pos =>
          match grid w !! current_pos with
          | None => Raise KeyError
          | Some here =>
              if decide (a_id agent ∈ here) then
                let grid1 := <[current_pos := here ∖ {[a_id agent]}]> (grid w) in
                match grid1 !! new_pos with
                | None => Raise KeyError
                | Some there =>
                    Ok (mkWorld (G w) (graph_nodes w)
                          (<[new_pos := there ∪ {[a_id agent]}]> grid1)
                          (<[a_id agent := new_pos]> (agent_positions w))
                          (<[i := a_set_pos new_pos agent]> (agents w))
                          (t w) (random w) (global_random w))
                end
              else Raise KeyError
          end
      end
  end.

Definition get_agent (i : nat) (w : World A D) : result A :=
  match agents w !! i with
  | Some a => Ok a
  | None => Raise IndexError
  end.

(** Write back the attributes of agent object [i]. *)
Definition set_agent (i : nat) (a : A) (w : World A D) : World A D :=
  mkWorld (G w) (graph_nodes w) (grid w) (agent_positions w)
    (<[i := a]> (agents w)) (t w) (random w) (global_random w).

Definition set_random (r : Rng) (w : World A D) : World A D :=
  mkWorld (G w) (graph_nodes w) (grid w) (agent_positions w)
    (agents w) (t w) r (global_random w).

Definition set_global_random (r : Rng) (w : World A D) : World A D :=
  mkWorld (G w) (graph_nodes w) (grid w) (agent_positions w)
    (agents w) (t w) (random w) r.

Definition set_t (n : nat) (w : World A D) : World A D :=
  mkWorld (G w) (graph_nodes w) (grid w) (agent_positions w)
    (agents w) n (random w) (global_random w).

(** [self.model.random.choice(self.model.graph_nodes)] *)
Definition random_node (w : World A D) : result (node * World A D) :=
  '(n, r) ← choice (graph_nodes w) (random w);
  Ok (n, set_random r w).

(** The placement of one agent in [CityModel.setup]:
<<
    agent.pos = pos
    self.grid[pos].add(agent)
    self.agent_positions[agent.id] = pos
>>
*)
Definition place_agent (i : nat) (pos : node) (w : World A D)
  : result (World A D) :=
  agent ← get_agent i w;
  match grid w !! pos with
  | None => Raise KeyError
  | Some there =>
      Ok (mkWorld (G w) (graph_nodes w)
            (<[pos := there ∪ {[a_id agent]}]> (grid w))
            (<[a_id agent := pos]> (agent_positions w))
            (<[i := a_set_pos pos agent]> (agents w))
            (t w) (random w) (global_random w))
  end.

(** [self.agents.step()]: the agents step one after the other, in list
    order, each on the state the previous one left. *)
Definition agents_step (step : nat → World A D → result (World A D))
    (w : World A D) : result (World A D) :=
  foldM (λ w i, step i w) w (seq 0 (length (agents w))).

(** The positions of all agents, in list order. *)
Definition positions (w : World A D) : list (option node) :=
  a_pos <$> agents w.

End ManualGrid.

Section Frames.
Context {A D : Type} `{AgentLike A}.

(** What no agent operation changes: the network, the node list, the
    number of agents, the nodes of the grid, the tick and the generator
    of the [random] module; the shared generator only moves forward. *)
Definition same_network (w w' : World A D) : Prop :=
  G w' = G w ∧ graph_nodes w' = graph_nodes w ∧
  length (agents w') = length (agents w) ∧
  dom (grid w') = dom (grid w) ∧
  t w' = t w ∧
  global_random w' = global_random w ∧
  stream (random w') = stream (random w) ∧
  (cursor (random w) ≤ cursor (random w'))%nat.

(** Nobody moved: the grid, the position tracker and the positions of
    the agents are the same. *)
Definition same_places (w w' : World A D) : Prop :=
  grid w' = grid w ∧ agent_positions w' = agent_positions w ∧
  positions w' = positions w.
End Frames.

(** [{node_id: set() for node_id in self.G.nodes()}] *)
Definition empty_grid (nodes : list node) : gmap node (gset nat) :=
  list_to_map ((λ n, (n, ∅ : gset nat)) <$> nodes).

(** [occupancy(n)]: the number of agents at [n], 0 when there is none. *)
Definition occupancy (gr : gmap node (gset nat)) (n : node) : nat :=
  match gr !! n with
  | Some s => size s
  | None => 0%nat
  end.

(** Sum over all nodes of the occupancy. *)
Definition total_occupancy (gr : gmap node (gset nat)) : nat :=
  map_fold (λ _ s acc, (size s + acc)%nat) 0%nat gr.

(** The library's run loop: [setup] and [update] at [t = 0], then for each
    tick [t += 1], [step], [update]. *)
Section RunLoop.
Context {A D : Type}.
Variable step : World A D → result (World A D).
Variable update : World A D → result (World A D).

Definition sim_step (w : World A D) : result (World A D) :=
  w1 ← step (set_t (S (t w)) w);
  update w1.

(** The worlds after each of the first [steps] ticks. *)
Fixpoint run_trace (steps : nat) (w : World A D)
  : result (list (World A D)) :=
  match steps with
  | O => Ok []
  | S k => w' ← sim_step w; ws ← run_trace k w'; Ok (w' :: ws)
  end.
End RunLoop.

(** ** The random-walk simulation ([step6_run_calibrated_simulation.py]) *)

Module Step6.

Record Agent : Type := mkAgent {
  id : nat;
  pos : node
}.

#[global] Instance agent_like : AgentLike Agent := {|
  a_id := id;
  a_pos := λ a, Some (pos a);
  a_set_pos := λ n a, mkAgent (id a) n;
  a_id_set_pos := λ _ _, eq_refl;
  a_pos_set_pos := λ _ _, eq_refl
|}.

Section Model.
(** The random walk reads no edge attribute. *)
Context {D : Type}.

Abbreviation World := (World Agent D).

(** [VehicleAgent.setup]: [self.pos = 0]. *)
Definition new_agents (num first : nat) : list Agent :=
  (λ n, mkAgent n 0) <$> seq first num.

(** [VehicleAgent.step] *)
Definition step (i : nat) (w : World) : result World :=
  self ← get_agent i w;
  nbrs ← neighbors (G w) (pos self);
  match nbrs with
  | [] => Ok w
  | _ :: _ =>
      '(new_pos, r) ← choice nbrs (random w);
      move_agent i new_pos (set_random r w)
  end.

(** The placement loop of [CityModel.setup]. *)
Definition place_all (initial_positions : list node) (w : World)
  : result World :=
  foldM (λ w i,
           match initial_positions !! i with
           | None => Raise IndexError
           | Some p => place_agent i p w
           end) w (seq 0 (length (agents w))).

(** [CityModel.setup] on the graph read from the file. *)
Definition setup (loaded : Graph D) (num_agents : nat)
    (rng global : Rng) : result World :=
  let nodes := g_nodes loaded in
  let ags := new_agents num_agents 1 in
  '(initial_positions, rng1) ← choices nodes num_agents rng;
  place_all initial_positions
    (mkWorld loaded nodes (empty_grid nodes) ∅ ags 0%nat rng1 global).

(** [CityModel.step] *)
Definition model_step (w : World) : result World := agents_step step w.

(** [CityModel.update]: only the progress line about [self.agents[0]]. *)
Definition update (w : World) : result World :=
  agent_0 ← get_agent 0 w;
  Ok w.

(** The worlds of [model.run()]: the one after [setup] and the first
    [update], then the one after each of [steps] ticks. *)
Definition run (loaded : Graph D) (num_agents steps : nat)
    (rng global : Rng) : result (list World) :=
  w ← setup loaded num_agents rng global;
  w0 ← update w;
  ws ← run_trace model_step update steps w0;
  Ok (w0 :: ws).
End Model.

End Step6.

(** ** Routing agents

    The [VehicleAgent] class of the closure script and of the congestion
    script: the same attributes and the same methods, up to the edge
    attribute used as the weight and the periodic recomputation. *)

Module Routing.

Record Agent : Type := mkAgent {
  id : nat;
  pos : option node;
  destination : node;
  path : list node
}.

#[global] Instance agent_like : AgentLike Agent := {|
  a_id := id;
  a_pos := pos;
  a_set_pos := λ n a, mkAgent (id a) (Some n) (destination a) (path a);
  a_id_set_pos := λ _ _, eq_refl;
  a_pos_set_pos := λ _ _, eq_refl
|}.

Definition set_path (p : list node) (a : Agent) : Agent :=
  mkAgent (id a) (pos a) (destination a) p.

Definition set_destination (d : node) (a : Agent) : Agent :=
  mkAgent (id a) (pos a) d (path a).

(** [VehicleAgent.setup] for the agent with identifier [n]:
    [self.pos = None], a random destination, [self.path = []]. *)
Definition new_agent (n : nat) (nodes : list node) (r : Rng)
  : result (Agent * Rng) :=
  '(d, r') ← choice nodes r;
  Ok (mkAgent n None d [], r').

(** [ap.AgentList(self, num_agents, VehicleAgent)]: the agents are made
    one after the other, with identifiers counting up from [first]. *)
Fixpoint new_agents (num : nat) (first : nat) (nodes : list node) (r : Rng)
  : result (list Agent * Rng) :=
  match num with
  | O => Ok ([], r)
  | S k =>
      '(a, r1) ← new_agent first nodes r;
      '(rest, r2) ← new_agents k (S first) nodes r1;
      Ok (a :: rest, r2)
  end.

Section WithRouter.
Context {D : Type}.

(** [nx.shortest_path(G, source=, target=, weight=)], the weight given
    as the accessor of the edge attribute. *)
Variable shortest_path :
  Graph D → (D → Q) → node → node → result (list node).

(** The attribute named by [weight=]. *)
Variable weight : D → Q.

Abbreviation World := (World Agent D).

(** [VehicleAgent.calculate_new_path]
<<
    if self.pos is None:
        self.path = []
        return
    try:
        self.path = nx.shortest_path(self.model.G, source=self.pos,
                                     target=self.destination, weight=...)
        self.path.pop(0)
    except (nx.NetworkXNoPath, nx.NodeNotFound):
        self.destination = self.model.random.choice(self.model.graph_nodes)
        self.path = []
>>
*)
Definition calculate_new_path (i : nat) (w : World) : result World :=
  self ← get_agent i w;
  match pos self with
  | None => Ok (set_agent i (set_path [] self) w)
  | Some source =>
      match shortest_path (G w) weight source (destination self) with
      | Ok [] => Raise IndexError
      | Ok (_ :: rest) => Ok (set_agent i (set_path rest self) w)
      | Raise NetworkXNoPath | Raise NodeNotFound =>
          '(d, w') ← random_node w;
          Ok (set_agent i (set_path [] (set_destination d self)) w')
      | Raise e => Raise e
      end
  end.

(** [new_pos = self.path.pop(0); self.model.move_agent(self, new_pos)] *)
Definition pop_and_move (i : nat) (w : World) : result World :=
  self ← get_agent i w;
  match path self with
  | [] => Raise IndexError
  | new_pos :: rest =>
      move_agent i new_pos (set_agent i (set_path rest self) w)
  end.

(** The part of [VehicleAgent.step] the two scripts share:
<<
    if not self.path:
        self.destination = self.model.random.choice(self.model.graph_nodes)
        self.calculate_new_path()
        if not self.path:
            return
    new_pos = self.path.pop(0)
    self.model.move_agent(self, new_pos)
>>
*)
Definition follow_path (i : nat) (w : World) : result World :=
  self ← get_agent i w;
  match path self with
  | [] =>
      '(d, w1) ← random_node w;
      w2 ← calculate_new_path i (set_agent i (set_destination d self) w1);
      self' ← get_agent i w2;
      match path self' with
      | [] => Ok w2
      | _ :: _ => pop_and_move i w2
      end
  | _ :: _ => pop_and_move i w
  end.

(** [CityModel.update] without the congestion part: only the progress
    line about [self.agents[0]]. *)
Definition report (w : World) : result World :=
  agent_0 ← get_agent 0 w;
  Ok w.
End WithRouter.

End Routing.
Export Routing.

(** ** The highway-closure simulation ([step8_what_if_highway_closure.py]) *)

Module Step8.

(** The two edge attributes the script reads. *)
Record EdgeData : Type := mkEdgeData {
  highway : option PyVal;
  length : Q
}.

Abbreviation World := (World Agent EdgeData).

(** ['highway' in data and data['highway'] == tag] *)
Definition is_highway (tag : string) (e : Edge EdgeData) : bool :=
  match highway (e_data e) with
  | Some (PStr s) => bool_decide (s = tag)
  | _ => false
  end.

Definition edge_id (e : Edge EdgeData) : node * node * Z :=
  (e_u e, e_v e, e_key e).

(** The edges [apply_highway_closure] collects: the motorways, or the
    primary roads when there is no motorway. *)
Definition edges_to_remove (g : Graph EdgeData) : list (node * node * Z) :=
  let motorways := edge_id <$> filter (λ e, is_highway "motorway" e) (g_edges g) in
  match motorways with
  | [] => edge_id <$> filter (λ e, is_highway "primary" e) (g_edges g)
  | _ :: _ => motorways
  end.

(** [apply_highway_closure]: [G.remove_edges_from(edges_to_remove)]. *)
Definition apply_highway_closure (g : Graph EdgeData) : Graph EdgeData :=
  let gone := edges_to_remove g in
  mkGraph (g_nodes g) (filter (λ e, edge_id e ∉ gone) (g_edges g)).

Section WithRouter.
Variable shortest_path :
  Graph EdgeData → (EdgeData → Q) → node → node → result (list node).

Definition calculate_new_path : nat → World → result World :=
  calculate_new_path shortest_path length.

(** [VehicleAgent.step] *)
Definition step : nat → World → result World :=
  follow_path shortest_path length.

(** The body of the placement loop of [CityModel.setup]:
<<
    pos = initial_positions[i]
    # Ensure agent spawns on a valid, non-isolated node
    if pos not in self.G:
        pos = random.choice(self.graph_nodes) # Pick a new valid node
    agent.pos = pos
    self.grid[pos].add(agent)
    self.agent_positions[agent.id] = pos
    agent.calculate_new_path()
>>
    The redraw calls the [random] module, not [self.random]. *)
Definition place (initial_positions : list node) (w : World) (i : nat)
  : result World :=
  match initial_positions !! i with
  | None => Raise IndexError
  | Some p =>
      '(p', w1) ← (if has_node (G w) p then Ok (p, w)
                    else '(q, r) ← choice (graph_nodes w) (global_random w);
                         Ok (q, set_global_random r w));
      w2 ← place_agent i p' w1;
      calculate_new_path i w2
  end.

Definition place_all (initial_positions : list node) (w : World)
  : result World :=
  foldM (place initial_positions) w (seq 0 (List.length (agents w))).

(** [CityModel.setup] on the graph read from the file. *)
Definition setup (G_base : Graph EdgeData) (num_agents : nat)
    (rng global : Rng) : result World :=
  let g := apply_highway_closure G_base in
  let nodes := g_nodes g in
  '(ags, rng1) ← new_agents num_agents 1 nodes rng;
  '(initial_positions, rng2) ← choices nodes num_agents rng1;
  place_all initial_positions
    (mkWorld g nodes (empty_grid nodes) ∅ ags 0%nat rng2 global).

(** [CityModel.step] *)
Definition model_step (w : World) : result World := agents_step step w.

(** [CityModel.update] *)
Definition update : World → result World := report.

(** The worlds of [model.run()]: the one after [setup] and the first
    [update], then the one after each of [steps] ticks. *)
Definition run (G_base : Graph EdgeData) (num_agents steps : nat)
    (rng global : Rng) : result (list World) :=
  w ← setup G_base num_agents rng global;
  w0 ← update w;
  ws ← run_trace model_step update steps w0;
  Ok (w0 :: ws).
End WithRouter.

End Step8.

(** ** The congestion-aware simulation ([step9c_congestion_simulation.py]) *)

Module Step9c.

Definition CAPACITY_PER_LANE : Z := 10.
Definition RECALCULATE_PATH_STEPS : nat := 5.

(** Edge attributes after the casts of [CityModel.setup]. *)
Record EdgeData : Type := mkEdgeData {
  lanes : Z;
  speed_kph : Q;
  base_travel_time : Q;
  travel_time : Q
}.

Abbreviation World := (World Agent EdgeData).

(** The attribute dictionary of an edge as loaded from the file. *)
Abbreviation RawData := (gmap string PyVal).

(** The casts of [CityModel.setup] for one edge, the one of the lanes
    first:
<<
      lanes_str = data.get('lanes', '1')
      if isinstance(lanes_str, list):
          lanes_str = lanes_str[0]
      data['lanes'] = int(float(lanes_str))
      speed_str = data.get('speed_kph', '30')
      data['speed_kph'] = float(speed_str)
      travel_time_str = data.get('base_travel_time', '10.0')
      data['base_travel_time'] = float(travel_time_str)
      data['travel_time'] = data['base_travel_time']
>>
*)
Definition cast_lanes (data : RawData) : result Z :=
  let lanes_str := default (PStr "1") (data !! "lanes"%string) in
  lanes_str ← match lanes_str with
              | PList [] => Raise IndexError
              | PList (x :: _) => Ok x
              | _ => Ok lanes_str
              end;
  py_float lanes_str ≫= py_int.

Definition cast_edge (e : Edge RawData) : result (Edge EdgeData) :=
  let data := e_data e in
  lanes ← cast_lanes data;
  let speed_str := default (PStr "30") (data !! "speed_kph"%string) in
  speed ← py_float speed_str ≫= finite;
  let travel_time_str :=
    default (PStr "10.0") (data !! "base_travel_time"%string) in
  base ← py_float travel_time_str ≫= finite;
  Ok (mkEdge (e_u e) (e_v e) (e_key e) (mkEdgeData lanes speed base base)).

Definition set_travel_time (tt : Q) (e : Edge EdgeData) : Edge EdgeData :=
  let d := e_data e in
  mkEdge (e_u e) (e_v e) (e_key e)
    (mkEdgeData (lanes d) (speed_kph d) (base_travel_time d) tt).

(** [data['travel_time'] = data['base_travel_time']] *)
Definition reset_travel_time (e : Edge EdgeData) : Edge EdgeData :=
  set_travel_time (base_travel_time (e_data e)) e.

(** [{node: len(agents) for node, agents in self.grid.items()
      if len(agents) > 0}] *)
Definition node_congestion (gr : gmap node (gset nat)) : gmap node Z :=
  omap (λ ags : gset nat,
          if decide (0 < size ags)%nat then Some (Z.of_nat (size ags))
          else None) gr.

(** Body of the second loop of [update] for one edge. *)
Definition apply_congestion (nc : gmap node Z) (e : Edge EdgeData)
  : result (Edge EdgeData) :=
  let cong_u := default 0 (nc !! e_u e) in
  let cong_v := default 0 (nc !! e_v e) in
  let total_congestion := cong_u + cong_v in
  let capacity := lanes (e_data e) * CAPACITY_PER_LANE in
  if decide (total_congestion > capacity) then
    if decide (capacity = 0) then Raise ZeroDivisionError
    else
      let congestion_factor :=
        (inject_Z total_congestion / inject_Z capacity)%Q in
      Ok (set_travel_time
            (base_travel_time (e_data e) * congestion_factor)%Q e)
  else Ok e.

Definition set_edges (es : list (Edge EdgeData)) (w : World) : World :=
  mkWorld (mkGraph (g_nodes (G w)) es) (graph_nodes w)
    (grid w) (agent_positions w) (agents w) (t w)
    (random w) (global_random w).

(** [CityModel.update]: reset every edge, count the agents per node,
    penalise the edges over capacity, then look up agent 0 for the
    progress line ([self.agents[0]] raises on an empty agent list). *)
Definition update (w : World) : result World :=
  let edges1 := reset_travel_time <$> g_edges (G w) in
  let nc := node_congestion (grid w) in
  edges2 ← mapM (apply_congestion nc) edges1;
  agent_0 ← get_agent 0 (set_edges edges2 w);
  Ok (set_edges edges2 w).

(** The congestion model in the words of the specification: the travel
    time an edge must have after the recompute, from its free-flow time,
    its lanes and the occupancy of its two endpoints. *)
Definition congestion_model (gr : gmap node (gset nat)) (e : Edge EdgeData)
  : Q :=
  let load := Z.of_nat (occupancy gr (e_u e)) + Z.of_nat (occupancy gr (e_v e)) in
  let capacity := lanes (e_data e) * CAPACITY_PER_LANE in
  if decide (load > capacity)
  then (base_travel_time (e_data e) * (inject_Z load / inject_Z capacity))%Q
  else base_travel_time (e_data e).

(** The static attributes are in range: at least one lane and a
    free-flow time that is not negative. *)
Definition valid_edges (w : World) : Prop :=
  ∀ e, e ∈ g_edges (G w) →
    0 < lanes (e_data e) ∧ (0 <= base_travel_time (e_data e))%Q.

(** No edge is faster than its free-flow time. *)
Definition no_discount (w : World) : Prop :=
  ∀ e, e ∈ g_edges (G w) →
    (base_travel_time (e_data e) <= travel_time (e_data e))%Q.

Section WithRouter.
Variable shortest_path :
  Graph EdgeData → (EdgeData → Q) → node → node → result (list node).

Definition calculate_new_path : nat → World → result World :=
  calculate_new_path shortest_path travel_time.

(** [VehicleAgent.step]: the periodic recomputation, then the part
    shared with the closure script.
<<
    if self.model.t % RECALCULATE_PATH_STEPS == 0:
        self.calculate_new_path()
>>
*)
Definition step (i : nat) (w : World) : result World :=
  w1 ← (if decide (t w `mod` RECALCULATE_PATH_STEPS = 0)%nat
        then calculate_new_path i w else Ok w);
  follow_path shortest_path travel_time i w1.

(** The placement loop of [CityModel.setup]. *)
Definition place (initial_positions : list node) (w : World) (i : nat)
  : result World :=
  match initial_positions !! i with
  | None => Raise IndexError
  | Some p => w' ← place_agent i p w; calculate_new_path i w'
  end.

Definition place_all (initial_positions : list node) (w : World)
  : result World :=
  foldM (place initial_positions) w (seq 0 (length (agents w))).

(** [CityModel.setup] on the graph read from the file. *)
Definition setup (loaded : Graph RawData) (num_agents : nat)
    (rng global : Rng) : result World :=
  let nodes := g_nodes loaded in
  edges ← mapM cast_edge (g_edges loaded);
  '(ags, rng1) ← new_agents num_agents 1 nodes rng;
  '(initial_positions, rng2) ← choices nodes num_agents rng1;
  place_all initial_positions
    (mkWorld (mkGraph nodes edges) nodes (empty_grid nodes) ∅ ags 0%nat
       rng2 global).

(** [CityModel.step] *)
Definition model_step (w : World) : result World := agents_step step w.

(** The worlds of [model.run()]: the one after [setup] and the first
    [update], then the one after each of [steps] ticks. *)
Definition run (loaded : Graph RawData) (num_agents steps : nat)
    (rng global : Rng) : result (list World) :=
  w ← setup loaded num_agents rng global;
  w0 ← update w;
  ws ← run_trace model_step update steps w0;
  Ok (w0 :: ws).
End WithRouter.

End Step9c.

(** ** Paths and the contract of the router *)

Section Paths.
Context {D : Type}.
Variable g : Graph D.
Variable weight : D → Q.

(** The weights of the parallel edges from [u] to [v]. *)
Definition parallel_weights (u v : node) : list Q :=
  (λ e, weight (e_data e)) <$>
    filter (λ e, e_u e = u ∧ e_v e = v) (g_edges g).

Definition adjacent (u v : node) : Prop := parallel_weights u v ≠ [].

(** The weight of the step from [u] to [v]: the least weight among the
    parallel edges. *)
Definition edge_weight (u v : node) : Q :=
  match parallel_weights u v with
  | [] => 0%Q
  | x :: xs => foldr Qmin x xs
  end.

Fixpoint path_weight (p : list node) : Q :=
  match p with
  | u :: rest =>
      match rest with
      | v :: _ => (edge_weight u v + path_weight rest)%Q
      | [] => 0%Q
      end
  | [] => 0%Q
  end.

(** Consecutive nodes are joined by an edge. *)
Fixpoint chain (p : list node) : Prop :=
  match p with
  | u :: rest =>
      match rest with
      | v :: _ => adjacent u v ∧ chain rest
      | [] => True
      end
  | [] => True
  end.

(** [p] leads from [s] to [t] along edges of the graph. *)
Definition walk (s t : node) (p : list node) : Prop :=
  head p = Some s ∧ last p = Some t ∧ chain p ∧
  ∀ n, n ∈ p → n ∈ g_nodes g.

Definition reachable (s t : node) : Prop := ∃ p, walk s t p.

(** What the library promises about one call of [nx.shortest_path]: a
    walk of least total weight, [NodeNotFound] for a foreign endpoint,
    [NetworkXNoPath] when there is no walk, and nothing else. *)
Definition shortest_path_contract (s t : node) (r : result (list node))
  : Prop :=
  match r with
  | Ok p => walk s t p ∧ ∀ q, walk s t q → (path_weight p <= path_weight q)%Q
  | Raise NodeNotFound => s ∉ g_nodes g ∨ t ∉ g_nodes g
  | Raise NetworkXNoPath => ¬ reachable s t
  | Raise _ => False
  end.

(** Every edge has a positive weight. *)
Definition positive_weights : Prop :=
  ∀ e, e ∈ g_edges g → (0 < weight (e_data e))%Q.

(** An executable router for the small networks of the examples: all
    simple paths by depth-first enumeration, and the first of least
    weight among them. *)
Fixpoint simple_paths (fuel : nat) (visited : list node) (cur tgt : node)
  : list (list node) :=
  if decide (cur = tgt) then [[cur]]
  else
    match fuel with
    | O => []
    | S fuel' =>
        flat_map
          (λ n, if decide (n ∈ cur :: visited) then []
                else (cons cur) <$> simple_paths fuel' (cur :: visited) n tgt)
          (successors g cur)
    end.

Definition lighter (p q : list node) : list node :=
  if Qle_bool (path_weight p) (path_weight q) then p else q.

Definition enumerating_router (s t : node) : result (list node) :=
  if has_node g s && has_node g t then
    match simple_paths (length (g_nodes g)) [] s t with
    | [] => Raise NetworkXNoPath
    | p :: ps => Ok (foldl lighter p ps)
    end
  else Raise NodeNotFound.
End Paths.

(** ** The occupancy invariant *)

Section Occupancy.
Context {A D : Type} `{AgentLike A}.

(** The first [k] agents of the list are placed: each is in the set of
    the node it stands on, the sets hold nobody else, the tracker
    records the position of each, and the occupancy sums to [k]. *)
Definition placed (k : nat) (w : World A D) : Prop :=
  NoDup (a_id <$> agents w) ∧
  (∀ i a, agents w !! i = Some a → (i < k)%nat →
     ∃ n s, a_pos a = Some n ∧ grid w !! n = Some s ∧ a_id a ∈ s) ∧
  (∀ n s x, grid w !! n = Some s → x ∈ s →
     ∃ i a, (i < k)%nat ∧ agents w !! i = Some a ∧ a_id a = x ∧
            a_pos a = Some n) ∧
  (∀ i a, agents w !! i = Some a → (i < k)%nat →
     agent_positions w !! a_id a = a_pos a) ∧
  total_occupancy (grid w) = k.

(** The invariant of the running simulation: every agent is placed. *)
Definition occupancy_ok (w : World A D) : Prop :=
  placed (length (agents w)) w.

(** The invariant in the words of the specification: every agent
    identifier is in the set of exactly one node (the node the agent
    and the tracker record as its position), every identifier in a set
    is that of a live agent, and the occupancies sum to the number of
    agents. *)
Definition occupancy_exact (w : World A D) : Prop :=
  (∀ a, a ∈ agents w →
     ∃ n, a_pos a = Some n ∧ agent_positions w !! a_id a = Some n ∧
          (∃ s, grid w !! n = Some s ∧ a_id a ∈ s) ∧
          ∀ n', (∃ s, grid w !! n' = Some s ∧ a_id a ∈ s) → n' = n) ∧
  (∀ n s x, grid w !! n = Some s → x ∈ s → ∃ a, a ∈ agents w ∧ a_id a = x) ∧
  total_occupancy (grid w) = length (agents w).
End Occupancy.

(** ** What a run needs of the network and of the router *)

Section Roads.
Context {D : Type}.

(** The endpoints of the edges, in edge order: what no script changes
    once the network is loaded. *)
Definition roads (g : Graph D) : list (node * node) :=
  (λ e, (e_u e, e_v e)) <$> g_edges g.

(** Every edge joins two nodes of the graph (a [networkx] graph adds the
    endpoints of an edge to its nodes). *)
Definition closed_roads (g : Graph D) : Prop :=
  ∀ e, e ∈ g_edges g → e_u e ∈ g_nodes g ∧ e_v e ∈ g_nodes g.

(** The least a run relies on in one call of the router: a walk from
    the source to the target, or one of the two exceptions the agents
    catch. *)
Definition router_safe (g : Graph D) (weight : D → Q) (s t : node)
    (r : result (list node)) : Prop :=
  match r with
  | Ok p => walk g weight s t p
  | Raise NetworkXNoPath | Raise NodeNotFound => True
  | Raise _ => False
  end.
End Roads.

Section RouteInvariant.
Context {D : Type}.

(** The first [k] agents hold a route that continues from where they
    stand: the position followed by the stored path follows edges of
    the network, and the stored path stays on its nodes. *)
Definition routed (weight : D → Q) (k : nat) (w : World Agent D) : Prop :=
  ∀ i a, agents w !! i = Some a → (i < k)%nat →
    ∃ s, pos a = Some s ∧ chain (G w) weight (s :: path a) ∧
         ∀ n, n ∈ path a → n ∈ g_nodes (G w).
End RouteInvariant.

(** ** Decimal numerals *)

(** The characters of the numeral with the digits [ds], most significant
    first, and the number it spells. *)
Definition numeral (ds : list nat) : list ascii :=
  (λ d, ascii_of_nat (48 + d)) <$> ds.

Definition numeral_value (ds : list nat) : Z :=
  foldl (λ acc d, 10 * acc + Z.of_nat d) 0 ds.

(** ** The clean-up of the downloaded graph ([step9_get_rich_graph.py]) *)

Module Step9.

Abbreviation RawData := (gmap string PyVal).

(** [a / b] for a stored value [a] and a float [b]. *)
Definition py_div (a : PyVal) (b : Q) : result Q :=
  match a with
  | PInt z =>
      if Qeq_bool b 0 then Raise ZeroDivisionError
      else Ok (inject_Z z / b)%Q
  | PFloat q =>
      if Qeq_bool b 0 then Raise ZeroDivisionError else Ok (q / b)%Q
  | PStr _ | PList _ => Raise TypeError
  end.

(** The lanes of one edge:
<<
    lanes_str = data.get('lanes', 1)
    if isinstance(lanes_str, list):
        lanes_str = lanes_str[0]
    data['lanes'] = int(float(lanes_str))
>>
*)
Definition clean_lanes (data : RawData) : result Z :=
  let lanes_str := default (PInt 1) (data !! "lanes"%string) in
  lanes_str ← match lanes_str with
              | PList [] => Raise IndexError
              | PList (x :: _) => Ok x
              | _ => Ok lanes_str
              end;
  py_float lanes_str ≫= py_int.

(** [float(data.get('speed_kph', 30))] *)
Definition clean_speed (data : RawData) : result Q :=
  let speed_str := default (PInt 30) (data !! "speed_kph"%string) in
  py_float speed_str ≫= finite.

(** The body of the clean-up loop for one edge, after the lanes and
    the speed:
<<
    travel_time_str = data.get('travel_time',
        data['length'] / (data['speed_kph'] * 1000 / 3600))
    data['travel_time'] = float(travel_time_str)
    data['base_travel_time'] = data['travel_time']
>>
    The second argument of [data.get] is evaluated before the call,
    whether or not the key is there. *)
Definition clean_edge (e : Edge RawData)
  : result (Edge Step9c.EdgeData) :=
  let data := e_data e in
  lanes ← clean_lanes data;
  speed ← clean_speed data;
  length ← match data !! "length"%string with
            | Some l => Ok l
            | None => Raise KeyError
            end;
  fallback ← py_div length (speed * 1000 / 3600)%Q;
  let travel_time_str :=
    default (PFloat fallback) (data !! "travel_time"%string) in
  travel_time ← py_float travel_time_str ≫= finite;
  Ok (mkEdge (e_u e) (e_v e) (e_key e)
        (Step9c.mkEdgeData lanes speed travel_time travel_time)).

(** The script from the download on: the graph it saves, or nothing
    when something in its [try] block raised. *)
Definition rich_graph (downloaded : result (Graph RawData))
  : option (Graph Step9c.EdgeData) :=
  match (g ← downloaded;
         edges ← mapM clean_edge (g_edges g);
         Ok (mkGraph (g_nodes g) edges)) with
  | Ok g => Some g
  | Raise _ => None
  end.
End Step9.

(** ** The calibration of the agent count

    [calibrate_agent_count] and the guard of the main block, the same in
    the three simulation scripts. *)

Module Calibration.


(** The numeric columns of the registration file, as [pd.read_csv]
    reads them. *)
Abbreviation DataFrame := (gmap string (list Q)).



End Calibration.

(** ** Attaching the amenities to the graph
    ([step5_build_graph_layer.py], [step9b_build_rich_graph_layer.py]) *)

Module Enrich.

Record Item : Type := mkItem {
  file : string;
  attr : string;
  lat_col : string;
  lon_col : string;
  name_col : string
}.

Definition data_to_map : list Item :=
  [ mkItem "healthcare_pune_clean.csv" "healthcare_amenity"
      "latitude" "longitude" "name";
    mkItem "bus_stops_clean.csv" "bus_stop"
      "stop_lat" "stop_lon" "stop_name";
    mkItem "metro_stations_clean.csv" "metro_station"
      "latitude" "longitude" "station_name";
    mkItem "aqi_pune_clean.csv" "aqi_station"
      "latitude" "longitude" "station" ]%string.

(** A cell of a data frame, or the value of a node attribute: a value
    or the missing-value marker. *)
Inductive Cell : Type :=
| Val (v : PyVal)
| NA.

(** A data frame: its column labels and its rows; a row maps a label to
    its cell, and a label without entry in a row is a missing value. *)
Record DataFrame : Type := mkDataFrame {
  columns : list string;
  rows : list (gmap string PyVal)
}.

(** [G.nodes]: the attribute dictionary of every node. *)
Abbreviation NodeAttrs := (gmap node (gmap string Cell)).

Definition cell (row : gmap string PyVal) (label : string) : Cell :=
  match row !! label with
  | Some v => Val v
  | None => NA
  end.

(** [df.dropna(subset=[lat_col, lon_col])]: [KeyError] for a label that
    is not a column. *)
Definition dropna (lat lon : string) (df : DataFrame)
  : result (list (gmap string PyVal)) :=
  if bool_decide (lat ∈ columns df ∧ lon ∈ columns df) then
    Ok (filter (λ row, is_Some (row !! lat) ∧ is_Some (row !! lon))
          (rows df))
  else Raise KeyError.

(** [df.iloc[i].get(name_col, 1)] *)
Definition name_of (df : DataFrame) (name : string)
    (row : gmap string PyVal) : Cell :=
  if bool_decide (name ∈ columns df) then cell row name
  else Val (PInt 1).

(** The inner loop, from position [i] on:
<<
    for i, node_id in enumerate(nearest_nodes):
        name = df.iloc[i].get(item['name_col'], 1)
        G.nodes[node_id][item['attr']] = name
>>
    The graph is changed in place, so what was attached before an
    exception stays attached: the result is the graph the loop leaves
    and the exception that ended it, if any. *)
Fixpoint attach (item : Item) (df : DataFrame)
    (kept : list (gmap string PyVal)) (i : nat) (nearest_nodes : list node)
    (g : NodeAttrs) : NodeAttrs * option pyerr :=
  match nearest_nodes with
  | [] => (g, None)
  | node_id :: rest =>
      match kept !! i with
      | None => (g, Some IndexError)
      | Some row =>
          match g !! node_id with
          | None => (g, Some KeyError)
          | Some d =>
              attach item df kept (S i) rest
                (<[node_id := <[attr item := name_of df (name_col item) row]> d]> g)
          end
      end
  end.

Section WithLibraries.
(** [ox.nearest_nodes(G, X=lons, Y=lats)] for the graph of the
    script, whose nodes and coordinates the script never changes:
    one node for each point, or an exception. *)
Variable nearest_nodes : list Cell → list Cell → result (list node).

(** The body of the outer loop for one entry of [data_to_map], given
    what [pd.read_csv] made of its file.  Both [except] clauses only
    print. *)
Definition process (item : Item) (csv : result DataFrame)
    (g : NodeAttrs) : NodeAttrs :=
  match csv with
  | Raise _ => g
  | Ok df =>
      match dropna (lat_col item) (lon_col item) df with
      | Raise _ => g
      | Ok kept =>
          let lats := (λ row, cell row (lat_col item)) <$> kept in
          let lons := (λ row, cell row (lon_col item)) <$> kept in
          match nearest_nodes lons lats with
          | Raise _ => g
          | Ok nodes => fst (attach item df kept 0 nodes g)
          end
      end
  end.

(** The script from the loaded graph to the graph it saves. *)
Definition enrich (files : string → result DataFrame) (g : NodeAttrs)
  : NodeAttrs :=
  foldl (λ g item, process item (files (file item)) g) g data_to_map.
End WithLibraries.
End Enrich.

(** ** Small networks and worlds for the examples *)

Module Examples.

(** The draws [1, 2, 3, ...], of which the first [k] are spent. *)
Definition counting_from (k : nat) : Rng := mkRng S k.

Definition counting : Rng := counting_from 0.

(** Draws without a short period. *)
Definition scattered : Rng := seeded (λ i, (i * i `div` 7 + i `div` 4)%nat).

(** The draws [0, 0, 0, ...] of an untouched ambient generator. *)
Definition idle : Rng := seeded (λ _, 0%nat).

Definition attrs (l : list (string * PyVal)) : gmap string PyVal :=
  list_to_map l.

(** A town of three junctions on one street, as its file describes it:
    a lane count as a string, an absent one, and one given as a list. *)
Definition town_raw : Graph Step9c.RawData :=
  mkGraph [1; 2; 3]
    [ mkEdge 1 2 0 (attrs [("lanes", PStr "1"); ("base_travel_time", PStr "10.0")]);
      mkEdge 2 1 0 (attrs []);
      mkEdge 2 3 0 (attrs [("lanes", PList [PStr "2"; PStr "3"]);
                           ("base_travel_time", PStr "5.0")]);
      mkEdge 3 2 0 (attrs [("lanes", PStr "1"); ("speed_kph", PFloat 40);
                           ("base_travel_time", PStr "5")]) ]%string.


Definition router {D}
  : Graph D → (D → Q) → node → node → result (list node) :=
  enumerating_router.

Definition road (u v : node) (lanes : Z) (base tt : Q)
  : Edge Step9c.EdgeData :=
  mkEdge u v 0 (Step9c.mkEdgeData lanes 30 base tt).

(** Eleven vehicles queue at junction 1 of a one-lane road to
    junction 2, each with the route [2] in hand; the last recompute
    left the road at twice its free-flow time. *)
Definition rush_hour : Step9c.World :=
  mkWorld (mkGraph [1; 2] [road 1 2 1 10 20])
    [1; 2]
    {[ 1 := list_to_set (seq 1 11); 2 := ∅ ]}
    (list_to_map ((λ i, (i, 1)) <$> seq 1 11))
    ((λ i, mkAgent i (Some 1) 2 [2]) <$> seq 1 11)
    0 counting idle.

(** One vehicle at junction 1 of the street 1 - 2, junction 3 off the
    network. *)
Definition lone_car (destination : node) (path : list node) (tick : nat)
    (rng : Rng) : Step9c.World :=
  mkWorld (mkGraph [1; 2; 3] [road 1 2 1 10 10; road 2 1 1 10 10])
    [1; 2; 3]
    {[ 1 := {[ 1%nat ]}; 2 := ∅; 3 := ∅ ]}
    {[ 1%nat := 1 ]}
    [mkAgent 1 (Some 1) destination path]
    tick rng idle.

(** The street 1 - 2 of residential roads and the unconnected
    junction 3, for the closure script. *)
Definition village : Graph Step8.EdgeData :=
  mkGraph [1; 2; 3]
    [ mkEdge 1 2 0 (Step8.mkEdgeData (Some (PStr "residential")) 100);
      mkEdge 2 1 0 (Step8.mkEdgeData (Some (PStr "residential")) 100) ].

(** A random walker in a cul-de-sac: the only road leads into
    junction 2. *)
Definition cul_de_sac : World Step6.Agent unit :=
  mkWorld (mkGraph [1; 2] [mkEdge 1 2 0 ()])
    [1; 2]
    {[ 1 := ∅; 2 := {[ 1%nat ]} ]}
    {[ 1%nat := 2 ]}
    [Step6.mkAgent 1 2]
    3 counting idle.
End Examples.

(** ** Further scenarios *)

Module Scenarios.
Import Examples.

Definition street (u v : node) (tag : string) (len : Q)
  : Edge Step8.EdgeData :=
  mkEdge u v 0 (Step8.mkEdgeData (Some (PStr tag)) len).

(** A motorway from junction 1 to junction 3, and the way round through
    junction 2: a primary road and a residential street. *)
Definition bypass : Graph Step8.EdgeData :=
  mkGraph [1; 2; 3]
    [ street 1 3 "motorway" 100;
      street 1 2 "primary" 80;
      street 2 3 "residential" 80 ].

(** The one-lane road of the rush hour with a single vehicle on it. *)
Definition quiet_hour : Step9c.World :=
  mkWorld (G rush_hour) [1; 2]
    {[ 1 := {[ 1%nat ]}; 2 := ∅ ]}
    {[ 1%nat := 1 ]}
    [mkAgent 1 (Some 1) 2 [2]]
    0 counting idle.

(** The rush hour on a street with one lane each way. *)
Definition two_way_rush : Step9c.World :=
  Step9c.set_edges [road 1 2 1 10 10; road 2 1 1 10 10] rush_hour.

(** Three junctions on a one-way ring, with a short cut from 1 to 3. *)
Definition ring : Graph unit :=
  mkGraph [1; 2; 3]
    [ mkEdge 1 2 0 (); mkEdge 2 3 0 (); mkEdge 3 1 0 (); mkEdge 1 3 0 () ].

(** After the closure of the motorway of the bypass: a vehicle at
    junction 1 holding the route through junction 2 to junction 3. *)
Definition commuter : Step8.World :=
  mkWorld (Step8.apply_highway_closure bypass) [1; 2; 3]
    {[ 1 := {[ 1%nat ]}; 2 := ∅; 3 := ∅ ]}
    {[ 1%nat := 1 ]}
    [mkAgent 1 (Some 1) 3 [2; 3]]
    0 counting idle.

(** Two clinics that snap to junction 2 and one that snaps to
    junction 3; the longitude column of the example holds the junction
    each point is nearest to. *)
Definition clinics : Enrich.DataFrame :=
  Enrich.mkDataFrame ["name"; "latitude"; "longitude"]%string
    [ attrs [("name", PStr "North Clinic"); ("latitude", PInt 0);
             ("longitude", PInt 2)];
      attrs [("name", PStr "no position")];
      attrs [("name", PStr "City Hospital"); ("latitude", PInt 0);
             ("longitude", PInt 2)];
      attrs [("latitude", PInt 0); ("longitude", PInt 3)] ]%string.

Definition snap (lons lats : list Enrich.Cell) : result (list node) :=
  Ok ((λ c, match c with
            | Enrich.Val (PInt z) => z
            | _ => 1
            end) <$> lons).

(** Three junctions, the first with a name already. *)
Definition bare_nodes : Enrich.NodeAttrs :=
  {[ 1 := {[ "street_count"%string := Enrich.Val (PInt 3) ]};
     2 := ∅; 3 := ∅ ]}.

(** Of the four files only the clinics are there. *)
Definition only_clinics (file : string) : result Enrich.DataFrame :=
  if bool_decide (file = "healthcare_pune_clean.csv"%string)
  then Ok clinics else Raise KeyError.
End Scenarios.
Import Examples.
Import Scenarios.

#[local] Set Warnings "-clear-no-such-hyp".

(** * Properties *)

(** ** The exception monad *)

Lemma bind_Ok {A B} (m : result A) (k : A → result B) (b : B) :
  m ≫= k = Ok b → ∃ a, m = Ok a ∧ k a = Ok b.
Proof. destruct m as [a|e]; [eauto | discriminate]. Qed.

Lemma get_agent_Ok {A D} (i : nat) (w : World A D) (a : A) :
  get_agent i w = Ok a ↔ agents w !! i = Some a.
Proof.
  unfold get_agent. destruct (agents w !! i); split; congruence.
Qed.


Lemma foldM_invariant {A S} (P : S → Prop) (f : S → A → result S)
    (xs : list A) :
  (∀ s x s', x ∈ xs → P s → f s x = Ok s' → P s') →
  ∀ s s', P s → foldM f s xs = Ok s' → P s'.
Proof.
  induction xs as [|x xs IH]; intros Hf s s' Hs Hfold; cbn in Hfold.
  - congruence.
  - apply bind_Ok in Hfold as (s1 & H1 & H2).
    eapply IH; [| |exact H2].
    + intros s2 y s3 Hy. apply Hf. by apply list_elem_of_further.
    + eapply Hf; [apply list_elem_of_here|exact Hs|exact H1].
Qed.

(** ** The congestion recompute *)

Section Congestion.
Import Step9c.

Lemma node_congestion_occupancy (gr : gmap node (gset nat)) (n : node) :
  default 0 (node_congestion gr !! n) = Z.of_nat (occupancy gr n).
Proof.
  unfold node_congestion, occupancy. rewrite lookup_omap.
  destruct (gr !! n) as [s|]; cbn; [|reflexivity].
  destruct (decide (0 < size s)%nat); cbn; lia.
Qed.



End Congestion.

(** ** What the agent operations leave alone *)

Ltac inv_result :=
  repeat match goal with
  | H : Ok _ = Ok _ |- _ => injection H as H; try subst
  | H : Raise _ = Ok _ |- _ => discriminate H
  | H : (_ ≫= _) = Ok _ |- _ =>
      let a := fresh "r" in
      let H1 := fresh H in
      apply bind_Ok in H as (a & H1 & H)
  | H : get_agent _ _ = Ok _ |- _ => apply get_agent_Ok in H
  | H : (let '(_, _) := ?p in _) = Ok _ |- _ => destruct p
  | H : (match ?x with _ => _ end) = Ok _ |- _ =>
      let E := fresh "E" in destruct x eqn:E
  end.

Section FrameLemmas.
Context {A D : Type} `{AgentLike A}.
Implicit Types w : World A D.

Lemma same_network_refl w : same_network w w.
Proof. unfold same_network; auto 10. Qed.

Lemma same_network_trans w1 w2 w3 :
  same_network w1 w2 → same_network w2 w3 → same_network w1 w3.
Proof.
  unfold same_network.
  intros (?&?&?&?&?&?&?&?) (?&?&?&?&?&?&?&?).
  repeat split; try congruence; lia.
Qed.

Lemma choice_Ok {B} (seq : list B) (r r' : Rng) (x : B) :
  choice seq r = Ok (x, r') →
  x ∈ seq ∧ stream r' = stream r ∧ cursor r' = S (cursor r).
Proof.
  unfold choice, randbelow. intros Hc.
  destruct (seq !! _) eqn:E; inv_result.
  split; [|done]. eapply list_elem_of_lookup_2; eauto.
Qed.

Lemma random_node_Ok w w' (n : node) :
  random_node w = Ok (n, w') →
  ∃ r, n ∈ graph_nodes w ∧ w' = set_random r w ∧
       stream r = stream (random w) ∧
       cursor r = S (cursor (random w)).
Proof.
  unfold random_node. intros Hc. inv_result.
  apply choice_Ok in Hc0 as (? & ? & ?). eauto.
Qed.

Lemma set_agent_same_network i a w : same_network w (set_agent i a w).
Proof.
  unfold same_network, set_agent; cbn. rewrite length_insert. auto 10.
Qed.

Lemma set_random_same_network r w :
  stream r = stream (random w) → (cursor (random w) ≤ cursor r)%nat →
  same_network w (set_random r w).
Proof. unfold same_network, set_random; cbn; auto 10. Qed.

Lemma random_node_same_network w w' n :
  random_node w = Ok (n, w') → same_network w w'.
Proof.
  intros (r & _ & -> & ? & ?)%random_node_Ok.
  apply set_random_same_network; [done | lia].
Qed.

(** A move that went through, taken apart. *)
Lemma move_agent_Ok i n w w' :
  move_agent i n w = Ok w' →
  ∃ ag cur here there,
    agents w !! i = Some ag ∧ a_pos ag = Some cur ∧
    grid w !! cur = Some here ∧ a_id ag ∈ here ∧
    <[cur:=here ∖ {[a_id ag]}]> (grid w) !! n = Some there ∧
    w' = mkWorld (G w) (graph_nodes w)
           (<[n:=there ∪ {[a_id ag]}]>
              (<[cur:=here ∖ {[a_id ag]}]> (grid w)))
           (<[a_id ag:=n]> (agent_positions w))
           (<[i:=a_set_pos n ag]> (agents w))
           (t w) (random w) (global_random w).
Proof.
  unfold move_agent. intros Hm.
  destruct (agents w !! i) as [ag|] eqn:Hi; [|done].
  destruct (a_pos ag) as [cur|] eqn:Hpos; [|done].
  destruct (grid w !! cur) as [here|] eqn:Hcur; [|done].
  destruct (decide (a_id ag ∈ here)) as [Hin|]; [|done].
  cbv zeta in Hm.
  destruct (<[cur:=here ∖ {[a_id ag]}]> (grid w) !! n) as [there|] eqn:Hn;
    [|done].
  injection Hm as <-. exists ag, cur, here, there. done.
Qed.

(** A placement that went through, taken apart. *)
Lemma place_agent_Ok i n w w' :
  place_agent i n w = Ok w' →
  ∃ ag there,
    agents w !! i = Some ag ∧ grid w !! n = Some there ∧
    w' = mkWorld (G w) (graph_nodes w)
           (<[n:=there ∪ {[a_id ag]}]> (grid w))
           (<[a_id ag:=n]> (agent_positions w))
           (<[i:=a_set_pos n ag]> (agents w))
           (t w) (random w) (global_random w).
Proof.
  unfold place_agent, get_agent. intros Hp.
  destruct (agents w !! i) as [ag|] eqn:Hi; [|done]. cbn in Hp.
  destruct (grid w !! n) as [there|] eqn:Hn; [|done].
  injection Hp as <-. by exists ag, there.
Qed.

Lemma move_agent_same_network i n w w' :
  move_agent i n w = Ok w' → same_network w w'.
Proof.
  intros (ag & cur & here & there & _ & _ & Hcur & _ & Hn & ->)%move_agent_Ok.
  unfold same_network; cbn. rewrite length_insert.
  repeat split; try done.
  apply elem_of_dom_2 in Hcur, Hn. rewrite dom_insert_L in Hn.
  rewrite !dom_insert_L. set_solver.
Qed.

Lemma place_agent_same_network i n w w' :
  place_agent i n w = Ok w' → same_network w w'.
Proof.
  intros (ag & there & _ & Hn & ->)%place_agent_Ok.
  unfold same_network; cbn. rewrite length_insert.
  repeat split; try done.
  apply elem_of_dom_2 in Hn. rewrite dom_insert_L. set_solver.
Qed.

Lemma foldM_same_network {B} (f : World A D → B → result (World A D))
    (xs : list B) :
  (∀ w x w', f w x = Ok w' → same_network w w') →
  ∀ w w', foldM f w xs = Ok w' → same_network w w'.
Proof.
  intros Hf w w' Hfold.
  eapply (foldM_invariant (same_network w)); [| |exact Hfold].
  - intros s x s' _ Hs Hx. eapply same_network_trans; eauto.
  - apply same_network_refl.
Qed.

Lemma agents_step_same_network step w w' :
  (∀ i w w', step i w = Ok w' → same_network w w') →
  agents_step step w = Ok w' → same_network w w'.
Proof.
  intros Hs. unfold agents_step. apply foldM_same_network.
  intros; eauto.
Qed.
End FrameLemmas.

Section RoutingFrames.
Context {D : Type}.
Variable shortest_path : Graph D → (D → Q) → node → node → result (list node).
Variable weight : D → Q.
Implicit Types w : World Agent D.

Lemma calculate_new_path_same_network i w w' :
  calculate_new_path shortest_path weight i w = Ok w' → same_network w w'.
Proof.
  unfold calculate_new_path. intros Hc. inv_result.
  all: try apply set_agent_same_network.
  all: eapply same_network_trans;
    [eapply random_node_same_network; eauto | apply set_agent_same_network].
Qed.

Lemma pop_and_move_same_network i w w' :
  pop_and_move i w = Ok w' → same_network w w'.
Proof.
  unfold pop_and_move. intros Hc. inv_result.
  eapply same_network_trans;
    [apply set_agent_same_network | eapply move_agent_same_network; eauto].
Qed.

Lemma follow_path_same_network i w w' :
  follow_path shortest_path weight i w = Ok w' → same_network w w'.
Proof.
  unfold follow_path. intros Hc. inv_result.
  - eapply same_network_trans; [eapply random_node_same_network; eauto|].
    eapply same_network_trans; [apply set_agent_same_network|].
    eapply calculate_new_path_same_network; eauto.
  - eapply same_network_trans; [eapply random_node_same_network; eauto|].
    eapply same_network_trans; [apply set_agent_same_network|].
    eapply same_network_trans;
      [eapply calculate_new_path_same_network; eauto|].
    eapply pop_and_move_same_network; eauto.
  - eapply pop_and_move_same_network; eauto.
Qed.
End RoutingFrames.

Lemma mapM_Ok {A B} (f : A → result B) (xs : list A) (ys : list B) :
  mapM f xs = Ok ys → Forall2 (λ x y, f x = Ok y) xs ys.
Proof.
  revert ys. induction xs as [|x xs IH]; intros ys Hm; cbn in Hm.
  - inv_result. constructor.
  - inv_result. constructor; auto.
Qed.

Section CongestionRun.
Import Step9c.
Variable shortest_path :
  Graph EdgeData → (EdgeData → Q) → node → node → result (list node).

Lemma step_same_network i (w w' : World) :
  step shortest_path i w = Ok w' → same_network w w'.
Proof.
  unfold step. intros Hs. inv_result.
  - eapply same_network_trans;
      [eapply calculate_new_path_same_network; eauto
      |eapply follow_path_same_network; eauto].
  - eapply follow_path_same_network; eauto.
Qed.


Lemma congestion_model_ge gr (e : Edge EdgeData) :
  0 < lanes (e_data e) → (0 <= base_travel_time (e_data e))%Q →
  (base_travel_time (e_data e) <= congestion_model gr e)%Q.
Proof.
  intros Hl Hb. unfold congestion_model.
  destruct (decide _) as [Hgt|_]; [|apply Qle_refl].
  set (load := Z.of_nat (occupancy gr (e_u e)) + Z.of_nat (occupancy gr (e_v e))) in *.
  set (cap := lanes (e_data e) * CAPACITY_PER_LANE) in *.
  assert (0 < cap) as Hcap by (unfold cap, CAPACITY_PER_LANE; lia).
  assert (1 <= inject_Z load / inject_Z cap)%Q as Hf.
  { apply Qle_shift_div_l.
    - change 0%Q with (inject_Z 0). rewrite <- Zlt_Qlt. exact Hcap.
    - rewrite Qmult_1_l. rewrite <- Zle_Qle. lia. }
  revert Hb Hf.
  generalize (base_travel_time (e_data e)) (inject_Z load / inject_Z cap)%Q.
  intros b f Hb Hf. nra.
Qed.
End CongestionRun.

Section RecomputeAfterMoves.
Import Step9c.
Variable shortest_path :
  Graph EdgeData → (EdgeData → Q) → node → node → result (list node).

End RecomputeAfterMoves.


Lemma run_trace_invariant {A D} (P : World A D → Prop)
    (step update : World A D → result (World A D)) :
  (∀ w w', P w → sim_step step update w = Ok w' → P w') →
  ∀ steps w ws, P w → run_trace step update steps w = Ok ws →
  ∀ w', w' ∈ ws → P w'.
Proof.
  intros Hstep. induction steps as [|k IH]; intros w ws Hw Hrun w' Hin;
    cbn in Hrun; inv_result.
  - by apply elem_of_nil in Hin.
  - apply elem_of_cons in Hin as [->|Hin]; eauto.
Qed.

Section NoDiscount.
Import Step9c.
Variable shortest_path :
  Graph EdgeData → (EdgeData → Q) → node → node → result (list node).


Lemma place_same_network ps (w w' : World) i :
  place shortest_path ps w i = Ok w' → same_network w w'.
Proof.
  unfold place. intros Hp. inv_result.
  eapply same_network_trans;
    [eapply place_agent_same_network; eauto
    |eapply calculate_new_path_same_network; eauto].
Qed.

Lemma setup_network loaded num rng glob (w : World) :
  setup shortest_path loaded num rng glob = Ok w →
  ∃ edges, mapM cast_edge (g_edges loaded) = Ok edges ∧
           G w = mkGraph (g_nodes loaded) edges ∧
           graph_nodes w = g_nodes loaded ∧
           dom (grid w) = dom (empty_grid (g_nodes loaded)) ∧
           length (agents w) = num ∧
           global_random w = glob.
Proof.
  unfold setup. intros Hs. inv_result.
  apply foldM_same_network in Hs
    as (HG & Hn & Hlen & Hdom & _ & Hglob & _);
    [|intros; eapply place_same_network; eauto].
  cbn in *. exists r. repeat split; try done.
  rewrite Hlen. clear -Hs1.
  revert rng l r0 Hs1. generalize 1%nat.
  induction num as [|k IH]; intros first rng l r0 Hn; cbn in Hn; inv_result;
    [done|].
  cbn. f_equal. eauto.
Qed.






End NoDiscount.


(** The range of the lanes matters: an edge with a negative lane count,
    which the casts of [setup] let through, is given a travel time below
    its free-flow time. *)
Lemma negative_lanes_discount :
  let w := Step9c.set_edges [road 1 2 (-1) 10 10] rush_hour in
  ∃ w', Step9c.update w = Ok w' ∧
        g_edges (G w') = [road 1 2 (-1) 10 (10 * (11 / -10))] ∧
        ¬ Step9c.no_discount w'.
Proof.
  eexists. split; [vm_compute; reflexivity|]. split; [reflexivity|].
  intros Hd. specialize (Hd _ (list_elem_of_here _ _)).
  vm_compute in Hd. by apply Hd.
Qed.

(** ** The occupancy index *)

Section TotalOccupancy.
Implicit Types gr : gmap node (gset nat).

Lemma total_occupancy_insert gr n (s s' : gset nat) :
  gr !! n = Some s →
  (total_occupancy (<[n:=s']> gr) + size s
   = total_occupancy gr + size s')%nat.
Proof.
  intros Hn. unfold total_occupancy.
  rewrite <- insert_delete_eq.
  rewrite map_fold_insert_L; [|intros; lia|apply lookup_delete_eq].
  rewrite (map_fold_delete_L _ _ n s gr); [lia|intros; lia|done].
Qed.

Lemma total_occupancy_all_empty gr :
  (∀ n s, gr !! n = Some s → s = ∅) → total_occupancy gr = 0%nat.
Proof.
  unfold total_occupancy.
  apply (map_fold_weak_ind
           (λ r m, (∀ n s, m !! n = Some s → s = ∅) → r = 0%nat)).
  - done.
  - intros n s m r Hn IH Hall.
    rewrite (Hall n s) by apply lookup_insert_eq.
    rewrite size_empty, IH; [done|].
    intros n' s' Hn'. apply (Hall n').
    rewrite lookup_insert_ne; [done|congruence].
Qed.

Lemma empty_grid_lookup nodes n (s : gset nat) :
  empty_grid nodes !! n = Some s → s = ∅ ∧ n ∈ nodes.
Proof.
  unfold empty_grid. intros Hn%elem_of_list_to_map_2.
  apply list_elem_of_fmap in Hn as (m & [= -> ->] & Hm). done.
Qed.

Lemma empty_grid_dom nodes n :
  n ∈ dom (empty_grid nodes) ↔ n ∈ nodes.
Proof.
  unfold empty_grid. rewrite dom_list_to_map_L, elem_of_list_to_set.
  rewrite <- list_fmap_compose. cbn.
  rewrite list_elem_of_fmap. naive_solver.
Qed.

Lemma total_occupancy_empty_grid nodes :
  total_occupancy (empty_grid nodes) = 0%nat.
Proof.
  apply total_occupancy_all_empty. intros n s Hn.
  by apply empty_grid_lookup in Hn as [-> _].
Qed.
End TotalOccupancy.

Section Placed.
Context {A D : Type} `{AgentLike A}.
Implicit Types w : World A D.

Lemma ids_injective (l : list A) i j a b :
  NoDup (a_id <$> l) → l !! i = Some a → l !! j = Some b →
  a_id a = a_id b → i = j.
Proof.
  intros Hnd Hi Hj Hid.
  eapply NoDup_lookup; [exact Hnd| |].
  - rewrite list_lookup_fmap, Hi. reflexivity.
  - rewrite list_lookup_fmap, Hj. cbn. by rewrite Hid.
Qed.

Lemma ids_insert (l : list A) i a a' :
  l !! i = Some a → a_id a' = a_id a →
  a_id <$> <[i:=a']> l = a_id <$> l.
Proof.
  intros Hi Hid. rewrite list_fmap_insert, Hid.
  apply list_insert_id. by rewrite list_lookup_fmap, Hi.
Qed.

Lemma placed_ext k w w' :
  agents w' = agents w → grid w' = grid w →
  agent_positions w' = agent_positions w → placed k w → placed k w'.
Proof. unfold placed. intros -> -> ->. done. Qed.

(** Rewriting attributes of an agent other than its identifier and its
    position keeps the agents placed. *)
Lemma placed_set_agent k i a a' w :
  agents w !! i = Some a → a_id a' = a_id a → a_pos a' = a_pos a →
  placed k w → placed k (set_agent i a' w).
Proof.
  intros Hi Hid Hpos (Hnd & Hin & Hout & Htrk & Htot).
  unfold placed, set_agent; cbn.
  split; [by erewrite ids_insert|]. split; [|split; [|split; [|done]]].
  - intros j b Hj Hjk. destruct (decide (j = i)) as [->|Hne].
    + rewrite list_lookup_insert_eq in Hj
        by (by eapply lookup_lt_Some). injection Hj as <-.
      rewrite Hid, Hpos. eauto.
    + rewrite list_lookup_insert_ne in Hj by done. eauto.
  - intros n s x Hn Hx.
    destruct (Hout n s x Hn Hx) as (j & b & Hjk & Hj & Hbid & Hbpos).
    destruct (decide (j = i)) as [->|Hne].
    + exists i, a'. rewrite list_lookup_insert_eq
        by (by eapply lookup_lt_Some).
      assert (b = a) as -> by congruence.
      rewrite Hid, Hpos. done.
    + exists j, b. by rewrite list_lookup_insert_ne.
  - intros j b Hj Hjk. destruct (decide (j = i)) as [->|Hne].
    + rewrite list_lookup_insert_eq in Hj
        by (by eapply lookup_lt_Some). injection Hj as <-.
      rewrite Hid, Hpos. by apply (Htrk i).
    + rewrite list_lookup_insert_ne in Hj by done. by apply (Htrk j).
Qed.

Lemma placed_fresh k i a w n s :
  placed k w → agents w !! i = Some a → (k ≤ i)%nat →
  grid w !! n = Some s → a_id a ∉ s.
Proof.
  intros (Hnd & _ & Hout & _ & _) Hi Hki Hn Hx.
  destruct (Hout n s _ Hn Hx) as (j & b & Hjk & Hj & Hbid & _).
  assert (j = i) by (eapply ids_injective; eauto). lia.
Qed.

Lemma place_agent_placed i n w w' :
  place_agent i n w = Ok w' → placed i w → placed (S i) w'.
Proof.
  intros (a & there & Hi & Hn & ->)%place_agent_Ok Hpl.
  pose proof (placed_fresh _ _ _ _ _ _ Hpl Hi (le_n _) Hn) as Hfresh.
  pose proof (lookup_lt_Some _ _ _ Hi) as Hlt.
  destruct Hpl as (Hnd & Hin & Hout & Htrk & Htot).
  unfold placed; cbn.
  split; [by erewrite ids_insert by eauto using a_id_set_pos|].
  split; [|split; [|split]].
  - intros j b Hj Hjk. destruct (decide (j = i)) as [->|Hne].
    + rewrite list_lookup_insert_eq in Hj by done. injection Hj as <-.
      rewrite a_id_set_pos, a_pos_set_pos.
      exists n, (there ∪ {[a_id a]}).
      rewrite lookup_insert_eq. set_solver.
    + rewrite list_lookup_insert_ne in Hj by done.
      destruct (Hin j b Hj) as (m & s & Hpos & Hm & Hs); [lia|].
      destruct (decide (m = n)) as [->|Hmn].
      * exists n, (there ∪ {[a_id a]}). rewrite lookup_insert_eq.
        assert (s = there) as -> by congruence. set_solver.
      * exists m, s. rewrite lookup_insert_ne by done. done.
  - intros m s x Hm Hx. destruct (decide (m = n)) as [->|Hmn].
    + rewrite lookup_insert_eq in Hm. injection Hm as <-.
      apply elem_of_union in Hx as [Hx|Hx%elem_of_singleton].
      * destruct (Hout n there x Hn Hx) as (j & b & Hjk & Hj & Hb).
        exists j, b. rewrite list_lookup_insert_ne by lia.
        split; [lia|done].
      * exists i, (a_set_pos n a).
        rewrite list_lookup_insert_eq by done.
        rewrite a_id_set_pos, a_pos_set_pos. split; [lia|done].
    + rewrite lookup_insert_ne in Hm by done.
      destruct (Hout m s x Hm Hx) as (j & b & Hjk & Hj & Hb).
      exists j, b. rewrite list_lookup_insert_ne by lia.
      split; [lia|done].
  - intros j b Hj Hjk. destruct (decide (j = i)) as [->|Hne].
    + rewrite list_lookup_insert_eq in Hj by done. injection Hj as <-.
      rewrite a_id_set_pos, a_pos_set_pos. apply lookup_insert_eq.
    + rewrite list_lookup_insert_ne in Hj by done.
      rewrite lookup_insert_ne; [apply (Htrk j); [done|lia]|].
      intros Hid. apply Hne. symmetry. eapply ids_injective; eauto.
  - pose proof (total_occupancy_insert (grid w) n there
                  (there ∪ {[a_id a]}) Hn) as Ht.
    rewrite size_union, size_singleton in Ht by set_solver. lia.
Qed.
End Placed.

Section Moves.
Context {A D : Type} `{AgentLike A}.
Implicit Types w : World A D.

Lemma move_agent_placed k i n w w' :
  move_agent i n w = Ok w' → (i < k)%nat → placed k w → placed k w'.
Proof.
  intros (ag & cur & here & there & Hi & Hcur & Hhere & Hx & Hthere & ->)
    %move_agent_Ok Hik Hpl.
  pose proof (lookup_lt_Some _ _ _ Hi) as Hlt.
  destruct Hpl as (Hnd & Hin & Hout & Htrk & Htot).
  (* the other agents have other identifiers *)
  assert (∀ j b, agents w !! j = Some b → j ≠ i → a_id b ≠ a_id ag) as Hother.
  { intros j b Hj Hne Hid. apply Hne. eapply ids_injective; eauto. }
  (* the set at the target does not hold the agent yet *)
  assert (a_id ag ∉ there) as Hfresh.
  { destruct (decide (n = cur)) as [->|Hne].
    - rewrite lookup_insert_eq in Hthere. injection Hthere as <-.
      set_solver.
    - rewrite lookup_insert_ne in Hthere by done. intros Hin'.
      destruct (Hout n there _ Hthere Hin') as (j & b & _ & Hj & Hid & Hp).
      assert (j = i) as -> by (eapply ids_injective; eauto).
      congruence. }
  unfold placed; cbn.
  split; [by erewrite ids_insert by eauto using a_id_set_pos|].
  split; [|split; [|split]].
  - intros j b Hj Hjk. destruct (decide (j = i)) as [->|Hne].
    + rewrite list_lookup_insert_eq in Hj by done. injection Hj as <-.
      rewrite a_id_set_pos, a_pos_set_pos.
      exists n, (there ∪ {[a_id ag]}).
      rewrite lookup_insert_eq. set_solver.
    + rewrite list_lookup_insert_ne in Hj by done.
      destruct (Hin j b Hj Hjk) as (m & s & Hpos & Hm & Hs).
      pose proof (Hother j b Hj Hne) as Hid.
      destruct (decide (m = n)) as [->|Hmn].
      * exists n, (there ∪ {[a_id ag]}). rewrite lookup_insert_eq.
        split; [done|split; [done|]].
        apply elem_of_union_l.
        destruct (decide (n = cur)) as [->|Hnc].
        -- rewrite lookup_insert_eq in Hthere. injection Hthere as <-.
           assert (s = here) as -> by congruence. set_solver.
        -- rewrite lookup_insert_ne in Hthere by done.
           assert (s = there) as -> by congruence. done.
      * destruct (decide (m = cur)) as [->|Hmc].
        -- exists cur, (here ∖ {[a_id ag]}).
           rewrite lookup_insert_ne, lookup_insert_eq by done.
           assert (s = here) as -> by congruence. set_solver.
        -- exists m, s. by rewrite !lookup_insert_ne by done.
  - intros m s x Hm Hxs. destruct (decide (m = n)) as [->|Hmn].
    + rewrite lookup_insert_eq in Hm. injection Hm as <-.
      apply elem_of_union in Hxs as [Hxs|Hxs%elem_of_singleton].
      * assert (∃ j b, (j < k)%nat ∧ agents w !! j = Some b ∧
                       a_id b = x ∧ a_pos b = Some n) as (j & b & ? & Hj & Hid & ?).
        { destruct (decide (n = cur)) as [->|Hnc].
          - rewrite lookup_insert_eq in Hthere. injection Hthere as <-.
            apply (Hout cur here x Hhere). set_solver.
          - rewrite lookup_insert_ne in Hthere by done.
            by apply (Hout n there x). }
        exists j, b. rewrite list_lookup_insert_ne; [done|].
        intros ->. assert (b = ag) as -> by congruence. congruence.
      * exists i, (a_set_pos n ag).
        rewrite list_lookup_insert_eq by done.
        rewrite a_id_set_pos, a_pos_set_pos. done.
    + rewrite lookup_insert_ne in Hm by done.
      assert (∃ s0, grid w !! m = Some s0 ∧ x ∈ s0 ∧ x ≠ a_id ag ∨
                    grid w !! m = Some s0 ∧ x ∈ s0 ∧ m ≠ cur) as (s0 & Hs0).
      { destruct (decide (m = cur)) as [->|Hmc].
        - rewrite lookup_insert_eq in Hm. injection Hm as <-.
          exists here. left. set_solver.
        - rewrite lookup_insert_ne in Hm by done. exists s. by right. }
      assert (∃ j b, (j < k)%nat ∧ agents w !! j = Some b ∧
                     a_id b = x ∧ a_pos b = Some m ∧ j ≠ i)
        as (j & b & ? & Hj & Hid & ? & Hji).
      { destruct Hs0 as [(Hs0 & Hx0 & Hne)|(Hs0 & Hx0 & Hne)];
          destruct (Hout m s0 x Hs0 Hx0) as (j & b & ? & Hj & Hid & Hp);
          exists j, b; repeat split; try done; intros ->;
          assert (b = ag) as -> by congruence; congruence. }
      exists j, b. by rewrite list_lookup_insert_ne.
  - intros j b Hj Hjk. destruct (decide (j = i)) as [->|Hne].
    + rewrite list_lookup_insert_eq in Hj by done. injection Hj as <-.
      rewrite a_id_set_pos, a_pos_set_pos. apply lookup_insert_eq.
    + rewrite list_lookup_insert_ne in Hj by done.
      rewrite lookup_insert_ne; [by apply (Htrk j)|].
      intros Hid. by apply (Hother j b Hj Hne).
  - pose proof (total_occupancy_insert (grid w) cur here
                  (here ∖ {[a_id ag]}) Hhere) as Ht1.
    pose proof (total_occupancy_insert _ n there
                  (there ∪ {[a_id ag]}) Hthere) as Ht2.
    rewrite size_union, size_singleton in Ht2 by set_solver.
    rewrite size_difference, size_singleton in Ht1 by set_solver.
    assert (size here ≠ 0)%nat.
    { intros Hz%size_empty_inv. set_solver. }
    lia.
Qed.

(** A placed agent can be moved to every node the grid knows. *)
Lemma move_agent_total k i n w :
  placed k w → (i < k)%nat → (i < length (agents w))%nat →
  n ∈ dom (grid w) → ∃ w', move_agent i n w = Ok w'.
Proof.
  intros (Hnd & Hin & Hout & Htrk & Htot) Hik Hlt Hn.
  destruct (lookup_lt_is_Some_2 _ _ Hlt) as [ag Hi].
  destruct (Hin i ag Hi Hik) as (cur & here & Hpos & Hhere & Hx).
  unfold move_agent. rewrite Hi, Hpos, Hhere.
  rewrite decide_True by done.
  assert (is_Some (<[cur:=here ∖ {[a_id ag]}]> (grid w) !! n)) as [there ->].
  { apply elem_of_dom. rewrite dom_insert_L. set_solver. }
  eauto.
Qed.

Lemma occupancy_ok_exact w : occupancy_ok w → occupancy_exact w.
Proof.
  intros (Hnd & Hin & Hout & Htrk & Htot). split; [|split; [|done]].
  - intros a Ha. apply list_elem_of_lookup in Ha as [i Hi].
    pose proof (lookup_lt_Some _ _ _ Hi) as Hlt.
    destruct (Hin i a Hi Hlt) as (n & s & Hpos & Hn & Hs).
    exists n. split; [done|].
    split; [by rewrite (Htrk i a Hi Hlt)|]. split; [eauto|].
    intros n' (s' & Hn' & Hs').
    destruct (Hout n' s' _ Hn' Hs') as (j & b & _ & Hj & Hid & Hp).
    assert (j = i) as -> by (eapply ids_injective; eauto).
    congruence.
  - intros n s x Hn Hx.
    destruct (Hout n s x Hn Hx) as (j & b & _ & Hj & Hid & _).
    exists b. split; [|done]. eapply list_elem_of_lookup_2; eauto.
Qed.
End Moves.

Lemma foldM_seq_invariant {St} (P : nat → St → Prop)
    (f : St → nat → result St) :
  ∀ len start s s',
    (∀ i s s', (start ≤ i < start + len)%nat → P i s → f s i = Ok s' →
               P (S i) s') →
    P start s → foldM f s (seq start len) = Ok s' → P (start + len)%nat s'.
Proof.
  induction len as [|len IH]; intros start s s' Hf Hs Hfold; cbn in Hfold.
  - inv_result. by rewrite Nat.add_0_r.
  - inv_result. replace (start + S len)%nat with (S start + len)%nat by lia.
    eapply IH; [| |exact Hfold].
    + intros i s1 s2 Hi. apply Hf. lia.
    + eapply Hf; [|exact Hs|eassumption]. lia.
Qed.

Section AgentsStep.
Context {A D : Type} `{AgentLike A}.
Implicit Types w : World A D.

Lemma agents_step_occupancy_ok (step : nat → World A D → result (World A D))
    w w' :
  (∀ i w w', step i w = Ok w' → same_network w w') →
  (∀ k i w w', step i w = Ok w' → (i < k)%nat → placed k w → placed k w') →
  agents_step step w = Ok w' → occupancy_ok w → occupancy_ok w'.
Proof.
  intros Hframe Hstep Hrun Hok. unfold agents_step in Hrun.
  pose proof (foldM_same_network _ _
                (λ w i w', Hframe i w w') _ _ Hrun) as (_ & _ & Hlen & _).
  unfold occupancy_ok. rewrite Hlen.
  eapply (foldM_invariant (placed (length (agents w))));
    [| |exact Hrun]; [|exact Hok].
  intros s i s' Hi Hs Hsi. eapply Hstep; [exact Hsi| |exact Hs].
  apply elem_of_seq in Hi. lia.
Qed.

Lemma occupancy_ok_ext w w' :
  agents w' = agents w → grid w' = grid w →
  agent_positions w' = agent_positions w →
  occupancy_ok w → occupancy_ok w'.
Proof.
  unfold occupancy_ok. intros Ha Hg Hp. rewrite Ha. by apply placed_ext.
Qed.

Lemma sim_step_occupancy_ok (step update : World A D → result (World A D))
    w w' :
  (∀ w w', step w = Ok w' → occupancy_ok w → occupancy_ok w') →
  (∀ w w', update w = Ok w' → occupancy_ok w → occupancy_ok w') →
  sim_step step update w = Ok w' → occupancy_ok w → occupancy_ok w'.
Proof.
  intros Hs Hu Hrun Hok. unfold sim_step in Hrun. inv_result.
  eapply Hu; [eassumption|]. eapply Hs; [eassumption|].
  by apply (occupancy_ok_ext w).
Qed.
End AgentsStep.

Section RoutingPlaced.
Context {D : Type}.
Variable shortest_path : Graph D → (D → Q) → node → node → result (list node).
Variable weight : D → Q.
Implicit Types w : World Agent D.

Lemma calculate_new_path_placed k i w w' :
  calculate_new_path shortest_path weight i w = Ok w' →
  placed k w → placed k w'.
Proof.
  unfold calculate_new_path. intros Hc Hpl. inv_result.
  all: try (eapply placed_set_agent; eauto; done).
  all: match goal with
       | Hr : random_node _ = Ok _ |- _ =>
           apply random_node_Ok in Hr as (rg & _ & -> & _)
       end.
  all: eapply placed_set_agent; eauto.
Qed.

Lemma pop_and_move_placed k i w w' :
  pop_and_move i w = Ok w' → (i < k)%nat → placed k w → placed k w'.
Proof.
  unfold pop_and_move. intros Hc Hik Hpl. inv_result.
  eapply move_agent_placed; [eassumption|done|].
  eapply placed_set_agent; eauto.
Qed.

Lemma follow_path_placed k i w w' :
  follow_path shortest_path weight i w = Ok w' →
  (i < k)%nat → placed k w → placed k w'.
Proof.
  unfold follow_path. intros Hc Hik Hpl.
  apply bind_Ok in Hc as (self & Hself%get_agent_Ok & Hc).
  destruct (path self) eqn:Hpath.
  - apply bind_Ok in Hc as ([d w1] & Hr & Hc).
    apply random_node_Ok in Hr as (rg & _ & -> & _).
    apply bind_Ok in Hc as (w2 & Hcalc & Hc).
    assert (placed k w2) as Hpl2.
    { eapply calculate_new_path_placed; [exact Hcalc|].
      eapply placed_set_agent; eauto. }
    inv_result; [done|]. eapply pop_and_move_placed; eauto.
  - eapply pop_and_move_placed; eauto.
Qed.
End RoutingPlaced.

Section Step9cOccupancy.
Import Step9c.
Variable shortest_path :
  Graph EdgeData → (EdgeData → Q) → node → node → result (list node).

Lemma step_placed k i (w w' : World) :
  step shortest_path i w = Ok w' → (i < k)%nat → placed k w → placed k w'.
Proof.
  unfold step. intros Hs Hik Hpl.
  apply bind_Ok in Hs as (w1 & Hcalc & Hs).
  eapply follow_path_placed; [exact Hs|done|].
  destruct (decide _); [|by inv_result].
  eapply calculate_new_path_placed; eauto.
Qed.

Lemma model_step_occupancy_ok (w w' : World) :
  model_step shortest_path w = Ok w' → occupancy_ok w → occupancy_ok w'.
Proof.
  apply agents_step_occupancy_ok.
  - apply step_same_network.
  - intros k i. apply step_placed.
Qed.

Lemma update_occupancy_ok (w w' : World) :
  update w = Ok w' → occupancy_ok w → occupancy_ok w'.
Proof.
  unfold update. intros Hu. inv_result. by apply occupancy_ok_ext.
Qed.

Lemma new_agents_ids num first nodes r ags r' :
  new_agents num first nodes r = Ok (ags, r') →
  id <$> ags = seq first num.
Proof.
  revert first r ags r'.
  induction num as [|k IH]; intros first r ags r' Hn; cbn in Hn.
  - by inv_result.
  - unfold new_agent in Hn. inv_result. cbn. f_equal. eauto.
Qed.

Lemma new_agents_length num first nodes r ags r' :
  new_agents num first nodes r = Ok (ags, r') → length ags = num.
Proof.
  intros Hn%new_agents_ids.
  by rewrite <- (length_fmap id), Hn, length_seq.
Qed.

Lemma initial_placed {A} `{AgentLike A} {D'} (g : Graph D') nodes (ags : list A)
    n rng glob :
  NoDup (a_id <$> ags) →
  placed 0 (mkWorld g nodes (empty_grid nodes) ∅ ags n rng glob).
Proof.
  intros Hnd. unfold placed; cbn. split; [done|]. split; [|split; [|split]].
  - intros; lia.
  - intros m s x Hm Hx. apply empty_grid_lookup in Hm as [-> _].
    set_solver.
  - intros; lia.
  - apply total_occupancy_empty_grid.
Qed.

Lemma place_placed ps (w w' : World) i :
  place shortest_path ps w i = Ok w' → placed i w → placed (S i) w'.
Proof.
  unfold place. intros Hp Hpl. inv_result.
  eapply calculate_new_path_placed; [eassumption|].
  eapply place_agent_placed; eauto.
Qed.

Lemma setup_occupancy_ok loaded num rng glob (w : World) :
  setup shortest_path loaded num rng glob = Ok w → occupancy_ok w.
Proof.
  intros Hs.
  pose proof (setup_network _ _ _ _ _ _ Hs) as (_ & _ & _ & _ & _ & Hlen & _).
  unfold setup in Hs. inv_result.
  rename l into ags. unfold place_all in Hs. cbn in Hs.
  unfold occupancy_ok. rewrite Hlen.
  match goal with
  | Hn : new_agents _ _ _ _ = Ok _ |- _ =>
      pose proof (new_agents_ids _ _ _ _ _ _ Hn) as Hids;
      pose proof (new_agents_length _ _ _ _ _ _ Hn) as Hl
  end.
  rewrite Hl in Hs.
  apply (foldM_seq_invariant placed) in Hs; [done| |].
  - intros i s s' _. intros. eapply place_placed; eauto.
  - apply initial_placed. cbn. rewrite Hids. apply NoDup_seq.
Qed.
End Step9cOccupancy.

Section Step6Occupancy.
Import Step6.
Context {D : Type}.
Implicit Types w : World Step6.Agent D.

Lemma step6_same_network i w w' :
  step i w = Ok w' → same_network w w'.
Proof.
  unfold step. intros Hs.
  apply bind_Ok in Hs as (self & Hself & Hs).
  apply bind_Ok in Hs as (nbrs & Hn & Hs).
  destruct nbrs as [|n nbrs]; [inv_result; apply same_network_refl|].
  apply bind_Ok in Hs as ([new_pos r] & Hc & Hs).
  apply choice_Ok in Hc as (_ & Hst & Hcur).
  eapply same_network_trans; [|eapply move_agent_same_network; eauto].
  apply set_random_same_network; [done|lia].
Qed.

Lemma step6_placed k i w w' :
  step i w = Ok w' → (i < k)%nat → placed k w → placed k w'.
Proof.
  unfold step. intros Hs Hik Hpl.
  apply bind_Ok in Hs as (self & Hself & Hs).
  apply bind_Ok in Hs as (nbrs & Hn & Hs).
  destruct nbrs as [|n nbrs]; [by inv_result|].
  apply bind_Ok in Hs as ([new_pos r] & Hc & Hs).
  eapply move_agent_placed; [exact Hs|done|].
  by apply (placed_ext k w).
Qed.

Lemma step6_model_step_occupancy_ok w w' :
  model_step w = Ok w' → occupancy_ok w → occupancy_ok w'.
Proof.
  apply agents_step_occupancy_ok.
  - apply step6_same_network.
  - intros k i. apply step6_placed.
Qed.

Lemma step6_update_occupancy_ok w w' :
  update w = Ok w' → occupancy_ok w → occupancy_ok w'.
Proof. unfold update. intros Hu. by inv_result. Qed.

Lemma step6_new_agents_ids num first :
  id <$> new_agents num first = seq first num.
Proof.
  unfold new_agents. rewrite <- list_fmap_compose.
  rewrite <- (list_fmap_id (seq first num)) at 2.
  by apply list_fmap_ext.
Qed.

Lemma step6_setup_occupancy_ok loaded num rng glob w :
  setup loaded num rng glob = Ok w → occupancy_ok w.
Proof.
  unfold setup. intros Hs. inv_result.
  unfold place_all in Hs. cbn in Hs.
  pose proof (foldM_same_network _ _
    (λ w i w' (Hp : match l !! i with
                    | Some p => place_agent i p w
                    | None => Raise IndexError
                    end = Ok w'),
       ltac:(destruct (l !! i); [by eapply place_agent_same_network
                                |discriminate]))
    _ _ Hs) as (_ & _ & Hlen & _).
  cbn in Hlen. unfold occupancy_ok. rewrite Hlen.
  apply (foldM_seq_invariant placed) in Hs; [done| |].
  - intros i s s' _ Hp Hi. destruct (l !! i); [|discriminate].
    eapply place_agent_placed; eauto.
  - apply initial_placed. cbn. rewrite step6_new_agents_ids.
    apply NoDup_seq.
Qed.
End Step6Occupancy.

Section RunInvariant.
Context {A D : Type} `{AgentLike A}.

Lemma move_agent_occupancy_ok i n (w w' : World A D) :
  move_agent i n w = Ok w' → occupancy_ok w → occupancy_ok w'.
Proof.
  intros Hm Hok. unfold occupancy_ok.
  pose proof (move_agent_same_network _ _ _ _ Hm) as (_ & _ & Hlen & _).
  rewrite Hlen. eapply move_agent_placed; [exact Hm| |exact Hok].
  unfold move_agent in Hm.
  destruct (agents w !! i) eqn:Hi; [|done]. by eapply lookup_lt_Some.
Qed.

Lemma run_occupancy_ok (step update : World A D → result (World A D))
    (w0 : World A D) steps ws :
  (∀ w w', step w = Ok w' → occupancy_ok w → occupancy_ok w') →
  (∀ w w', update w = Ok w' → occupancy_ok w → occupancy_ok w') →
  occupancy_ok w0 →
  run_trace step update steps w0 = Ok ws →
  ∀ w, w ∈ w0 :: ws → occupancy_ok w.
Proof.
  intros Hs Hu Hok Hrun w Hw.
  apply elem_of_cons in Hw as [->|Hw]; [done|].
  eapply (run_trace_invariant occupancy_ok); [|exact Hok|exact Hrun|exact Hw].
  intros wa wb Ha Hstep.
  eapply sim_step_occupancy_ok; [exact Hs|exact Hu|exact Hstep|exact Ha].
Qed.

Lemma occupancy_ok_moves (w : World A D) :
  occupancy_ok w →
  occupancy_exact w ∧
  ∀ i n w', move_agent i n w = Ok w' → occupancy_exact w'.
Proof.
  intros Hok. split; [by apply occupancy_ok_exact|].
  intros i n w' Hm. apply occupancy_ok_exact.
  by eapply move_agent_occupancy_ok.
Qed.
End RunInvariant.

(** C3.  In every world of a run of the congestion simulation and of
    the random-walk simulation (after set-up and after each tick), every
    agent identifier is in the set of exactly one node, which is the
    node the agent and the position tracker record, the sets hold only
    live agents, and the occupancies sum to the number of agents;
    and every move that [move_agent] applies to such a world gives a
    world with the same property. *)
Theorem occupancy_invariant :
  (∀ shortest_path loaded num steps rng glob ws,
     Step9c.run shortest_path loaded num steps rng glob = Ok ws →
     ∀ w, w ∈ ws →
       occupancy_exact w ∧
       ∀ i n w', move_agent i n w = Ok w' → occupancy_exact w') ∧
  (∀ (D : Type) (loaded : Graph D) num steps rng glob ws,
     Step6.run loaded num steps rng glob = Ok ws →
     ∀ w, w ∈ ws →
       occupancy_exact w ∧
       ∀ i n w', move_agent i n w = Ok w' → occupancy_exact w').
Proof.
  split.
  - intros sp loaded num steps rng glob ws Hrun w Hw.
    apply occupancy_ok_moves. unfold Step9c.run in Hrun.
    apply bind_Ok in Hrun as (w0 & Hsetup & Hrun).
    apply bind_Ok in Hrun as (w1 & Hupd & Hrun).
    apply bind_Ok in Hrun as (ws' & Htrace & Hrun). inv_result.
    eapply run_occupancy_ok; [| | |exact Htrace|exact Hw].
    + apply model_step_occupancy_ok.
    + apply update_occupancy_ok.
    + eapply update_occupancy_ok; [exact Hupd|].
      by eapply setup_occupancy_ok.
  - intros D loaded num steps rng glob ws Hrun w Hw.
    apply occupancy_ok_moves. unfold Step6.run in Hrun.
    apply bind_Ok in Hrun as (w0 & Hsetup & Hrun).
    apply bind_Ok in Hrun as (w1 & Hupd & Hrun).
    apply bind_Ok in Hrun as (ws' & Htrace & Hrun). inv_result.
    eapply run_occupancy_ok; [| | |exact Htrace|exact Hw].
    + apply step6_model_step_occupancy_ok.
    + apply step6_update_occupancy_ok.
    + eapply step6_update_occupancy_ok; [exact Hupd|].
      by eapply step6_setup_occupancy_ok.
Qed.

Lemma occupancy_invariant_witness :
  ∃ ws,
    Step9c.run router town_raw 18 3 scattered idle = Ok ws ∧
    length ws = 4%nat ∧
    ∀ w, w ∈ ws →
      occupancy_exact w ∧
      ∀ i n w', move_agent i n w = Ok w' → occupancy_exact w'.
Proof.
  eexists. split; [vm_compute; reflexivity|]. split; [reflexivity|].
  refine (proj1 occupancy_invariant router town_raw 18%nat 3%nat scattered idle
            _ _).
  vm_compute. reflexivity.
Defined.

(** ** Shortest walks are simple *)

Lemma not_NoDup_split {B} `{EqDecision B} (l : list B) :
  ¬ NoDup l → ∃ l1 x l2 l3, l = l1 ++ x :: l2 ++ x :: l3.
Proof.
  induction l as [|a l IH]; intros Hnd.
  - destruct Hnd. constructor.
  - destruct (decide (a ∈ l)) as [Hin|Hnin].
    + apply list_elem_of_split in Hin as (l2 & l3 & ->).
      by exists [], a, l2, l3.
    + destruct IH as (l1 & x & l2 & l3 & ->).
      * intros Hl. apply Hnd. by constructor.
      * by exists (a :: l1), x, l2, l3.
Qed.

Section ShortestWalks.
Context {D : Type}.
Variable g : Graph D.
Variable weight : D → Q.
Hypothesis Hpos : positive_weights g weight.

Lemma foldr_Qmin_pos (x : Q) (xs : list Q) :
  (0 < x)%Q → Forall (λ y, 0 < y)%Q xs → (0 < foldr Qmin x xs)%Q.
Proof.
  intros Hx. induction 1 as [|y ys Hy _ IH]; cbn; [done|].
  apply Q.min_glb_lt; done.
Qed.

Lemma edge_weight_pos u v : adjacent g weight u v → (0 < edge_weight g weight u v)%Q.
Proof.
  unfold adjacent, edge_weight. intros Hadj.
  assert (Forall (λ y, 0 < y)%Q (parallel_weights g weight u v)) as Hall.
  { unfold parallel_weights. apply Forall_fmap, Forall_forall.
    intros e He. apply list_elem_of_filter in He as [_ He]. by apply Hpos. }
  destruct (parallel_weights g weight u v) as [|x xs]; [done|].
  apply Forall_cons in Hall as [Hx Hxs]. by apply foldr_Qmin_pos.
Qed.

Lemma path_weight_nonneg p : chain g weight p → (0 <= path_weight g weight p)%Q.
Proof.
  induction p as [|u [|v p] IH]; cbn; intros Hc; try apply Qle_refl.
  destruct Hc as [Hadj Hc]. apply edge_weight_pos in Hadj.
  specialize (IH Hc). cbn in IH. lra.
Qed.

Lemma path_weight_pos u v p :
  chain g weight (u :: v :: p) → (0 < path_weight g weight (u :: v :: p))%Q.
Proof.
  intros [Hadj Hc]. apply edge_weight_pos in Hadj.
  apply path_weight_nonneg in Hc.
  change (0 < edge_weight g weight u v + path_weight g weight (v :: p))%Q.
  lra.
Qed.

Lemma path_weight_app l1 x l2 :
  (path_weight g weight (l1 ++ x :: l2)
   == path_weight g weight (l1 ++ [x]) + path_weight g weight (x :: l2))%Q.
Proof.
  induction l1 as [|a [|b l1] IH].
  - cbn. lra.
  - cbn. destruct l2; lra.
  - change (edge_weight g weight a b
              + path_weight g weight ((b :: l1) ++ x :: l2)
            == edge_weight g weight a b
               + path_weight g weight ((b :: l1) ++ [x])
               + path_weight g weight (x :: l2))%Q.
    rewrite IH. lra.
Qed.

Lemma chain_app l1 x l2 :
  chain g weight (l1 ++ x :: l2) ↔
  chain g weight (l1 ++ [x]) ∧ chain g weight (x :: l2).
Proof.
  induction l1 as [|a [|b l1] IH].
  - cbn. tauto.
  - cbn. destruct l2; tauto.
  - change (adjacent g weight a b ∧ chain g weight ((b :: l1) ++ x :: l2) ↔
            (adjacent g weight a b ∧ chain g weight ((b :: l1) ++ [x])) ∧
            chain g weight (x :: l2)).
    rewrite IH. tauto.
Qed.

Lemma head_app_cons {B} (l1 : list B) x l2 l2' :
  head (l1 ++ x :: l2) = head (l1 ++ x :: l2').
Proof. by destruct l1. Qed.

Lemma last_app_cons {B} (l1 : list B) x l2 :
  last (l1 ++ x :: l2) = last (x :: l2).
Proof.
  induction l1 as [|a l1 IH]; [done|].
  rewrite <- IH. cbn. by destruct (l1 ++ x :: l2) eqn:E; [destruct l1|].
Qed.

(** Cutting a cycle out of a walk gives a strictly lighter walk. *)
Lemma cut_cycle s t l1 x l2 l3 :
  walk g weight s t (l1 ++ x :: l2 ++ x :: l3) →
  walk g weight s t (l1 ++ x :: l3) ∧
  (path_weight g weight (l1 ++ x :: l3)
   < path_weight g weight (l1 ++ x :: l2 ++ x :: l3))%Q.
Proof.
  intros (Hh & Hl & Hc & Hn). split.
  - split; [|split; [|split]].
    + by rewrite (head_app_cons _ _ _ (l2 ++ x :: l3)).
    + rewrite last_app_cons in Hl |- *.
      change (x :: l2 ++ x :: l3) with ((x :: l2) ++ x :: l3) in Hl.
      by rewrite last_app_cons in Hl.
    + apply chain_app in Hc as [Hc1 Hc2].
      change (x :: l2 ++ x :: l3) with ((x :: l2) ++ x :: l3) in Hc2.
      apply chain_app in Hc2 as [_ Hc3].
      apply chain_app. done.
    + intros n Hin. apply Hn. set_solver.
  - rewrite (path_weight_app l1 x l3), (path_weight_app l1 x (l2 ++ x :: l3)).
    change (x :: l2 ++ x :: l3) with ((x :: l2) ++ x :: l3).
    rewrite (path_weight_app (x :: l2) x l3).
    apply chain_app in Hc as [_ Hc2].
    change (x :: l2 ++ x :: l3) with ((x :: l2) ++ x :: l3) in Hc2.
    apply chain_app in Hc2 as [Hcyc _].
    assert (0 < path_weight g weight ((x :: l2) ++ [x]))%Q as Hgt.
    { destruct l2; apply path_weight_pos; exact Hcyc. }
    lra.
Qed.

End ShortestWalks.

Section Route.
Context {D : Type}.
Variable shortest_path : Graph D → (D → Q) → node → node → result (list node).
Variable weight : D → Q.
Implicit Types w : World Agent D.



End Route.

(** ** The route an agent keeps *)

Section KeptRoute.
Import Step9c.
Variable shortest_path :
  Graph EdgeData → (EdgeData → Q) → node → node → result (list node).

End KeptRoute.

(** ** The enumerating router keeps the contract *)

Section EnumeratingRouter.
Context {D : Type}.
Variable g : Graph D.
Variable weight : D → Q.
Hypothesis Hpos : positive_weights g weight.

(** The endpoints of every edge are nodes of the graph. *)
Hypothesis Hclosed :
  ∀ e, e ∈ g_edges g → e_u e ∈ g_nodes g ∧ e_v e ∈ g_nodes g.

Lemma successors_edge u v :
  v ∈ successors g u ↔ ∃ e, e ∈ g_edges g ∧ e_u e = u ∧ e_v e = v.
Proof.
  unfold successors. rewrite elem_of_remove_dups, list_elem_of_fmap.
  split.
  - intros (e & -> & He). apply list_elem_of_filter in He as [Hu He]. eauto.
  - intros (e & He & Hu & Hv). exists e. split; [done|].
    by apply list_elem_of_filter.
Qed.

Lemma adjacent_iff u v :
  adjacent g weight u v ↔ ∃ e, e ∈ g_edges g ∧ e_u e = u ∧ e_v e = v.
Proof.
  unfold adjacent, parallel_weights. split.
  - intros Hne.
    destruct (filter _ (g_edges g)) as [|e es] eqn:Hf; [done|].
    assert (e ∈ filter (λ e, e_u e = u ∧ e_v e = v) (g_edges g)) as Hin
      by (rewrite Hf; apply list_elem_of_here).
    apply list_elem_of_filter in Hin as [[? ?] ?]. by exists e.
  - intros (e & He & Hu & Hv) Hnil.
    assert (e ∈ filter (λ e, e_u e = u ∧ e_v e = v) (g_edges g)) as Hin
      by (by apply list_elem_of_filter).
    apply (list_elem_of_fmap_2 (λ e, weight (e_data e))) in Hin.
    rewrite Hnil in Hin. by apply elem_of_nil in Hin.
Qed.

Lemma successors_adjacent u v :
  v ∈ successors g u ↔ adjacent g weight u v.
Proof. by rewrite successors_edge, adjacent_iff. Qed.

Lemma simple_paths_sound fuel visited cur tgt p :
  cur ∈ g_nodes g →
  p ∈ simple_paths g fuel visited cur tgt → walk g weight cur tgt p.
Proof.
  revert visited cur p.
  induction fuel as [|fuel IH]; intros visited cur p Hcur Hp; cbn in Hp.
  - destruct (decide (cur = tgt)) as [->|]; [|by apply elem_of_nil in Hp].
    apply list_elem_of_singleton in Hp as ->.
    repeat split; try done. by intros n ->%list_elem_of_singleton.
  - destruct (decide (cur = tgt)) as [->|Hne].
    { apply list_elem_of_singleton in Hp as ->.
      repeat split; try done. by intros n ->%list_elem_of_singleton. }
    apply list_elem_of_In, in_flat_map in Hp as (n & Hn & Hp).
    apply list_elem_of_In in Hn, Hp.
    destruct (decide (n ∈ cur :: visited)); [by apply elem_of_nil in Hp|].
    apply list_elem_of_fmap in Hp as (p' & -> & Hp').
    pose proof Hn as Hadj%successors_adjacent.
    apply successors_edge in Hn as (e & He & Hu & Hv).
    assert (n ∈ g_nodes g) as Hnn by (subst n; by apply Hclosed).
    destruct (IH _ _ _ Hnn Hp') as (Hh & Hl & Hc & Hin).
    destruct p' as [|a p']; [done|]. injection Hh as ->.
    repeat split; try done.
    intros m [->|Hm]%elem_of_cons; [done|by apply Hin].
Qed.

Lemma simple_paths_complete fuel visited cur tgt p :
  head p = Some cur → last p = Some tgt → chain g weight p → NoDup p →
  (∀ n, n ∈ p → n ∉ visited) → (length p ≤ S fuel)%nat →
  p ∈ simple_paths g fuel visited cur tgt.
Proof.
  revert visited cur p.
  induction fuel as [|fuel IH]; intros visited cur p Hh Hl Hc Hnd Hv Hlen;
    destruct p as [|a p]; try done; injection Hh as ->.
  - destruct p as [|b p]; [|cbn in Hlen; lia].
    injection Hl as ->. cbn. rewrite decide_True by done.
    apply list_elem_of_here.
  - cbn [simple_paths]. destruct (decide (cur = tgt)) as [->|Hne].
    + destruct p as [|b p]; [apply list_elem_of_here|].
      apply NoDup_cons in Hnd as [Hnin _]. destruct Hnin.
      apply (last_Some_elem_of (b :: p)). exact Hl.
    + destruct p as [|b p]; [cbn in Hl; congruence|].
      destruct Hc as [Hadj Hc]. apply NoDup_cons in Hnd as [Hnin Hnd].
      apply list_elem_of_In, in_flat_map. exists b. split.
      { apply list_elem_of_In. by apply successors_adjacent. }
      apply list_elem_of_In.
      rewrite decide_False.
      * apply list_elem_of_fmap. exists (b :: p). split; [done|].
        apply IH; try done.
        -- intros n Hn [->|Hin]%elem_of_cons; [done|].
           eapply Hv; [|exact Hin]. by apply list_elem_of_further.
        -- cbn in Hlen |- *. lia.
      * intros [->|Hin]%elem_of_cons.
        -- apply Hnin. apply list_elem_of_here.
        -- eapply Hv; [|exact Hin].
           apply list_elem_of_further, list_elem_of_here.
Qed.

(** Every walk can be replaced by one without repeated nodes that is
    not heavier. *)
Lemma walk_simplify s t :
  ∀ k p, (length p ≤ k)%nat → walk g weight s t p →
    ∃ p', walk g weight s t p' ∧ NoDup p' ∧
          (path_weight g weight p' <= path_weight g weight p)%Q.
Proof.
  induction k as [|k IH]; intros p Hlen Hw.
  - destruct p; [|cbn in Hlen; lia]. by destruct Hw.
  - destruct (decide (NoDup p)) as [Hnd|Hnd].
    { exists p. split; [done|]. split; [done|]. apply Qle_refl. }
    apply not_NoDup_split in Hnd as (l1 & x & l2 & l3 & ->).
    apply (cut_cycle g weight Hpos) in Hw as [Hw' Hlt].
    destruct (IH (l1 ++ x :: l3)) as (p' & Hp' & Hnd' & Hle); [|done|].
    { rewrite !length_app in Hlen |- *. cbn in Hlen |- *.
      rewrite length_app in Hlen. cbn in Hlen. lia. }
    exists p'. split; [done|]. split; [done|]. lra.
Qed.

Lemma foldl_lighter p ps :
  foldl (lighter g weight) p ps ∈ p :: ps ∧
  ∀ q, q ∈ p :: ps →
       (path_weight g weight (foldl (lighter g weight) p ps)
        <= path_weight g weight q)%Q.
Proof.
  revert p. induction ps as [|a ps IH]; intros p; cbn.
  - split; [apply list_elem_of_here|].
    intros q ->%list_elem_of_singleton. apply Qle_refl.
  - destruct (IH (lighter g weight p a)) as [Hin Hmin]. split.
    + apply elem_of_cons in Hin as [->|Hin].
      * unfold lighter. destruct (Qle_bool _ _);
          [apply list_elem_of_here
          |apply list_elem_of_further, list_elem_of_here].
      * by do 2 apply list_elem_of_further.
    + assert (path_weight g weight (lighter g weight p a)
              <= path_weight g weight p ∧
              path_weight g weight (lighter g weight p a)
              <= path_weight g weight a)%Q as [Hp Ha].
      { unfold lighter. destruct (Qle_bool _ _) eqn:E.
        - apply Qle_bool_iff in E. split; [apply Qle_refl|done].
        - split; [|apply Qle_refl].
          destruct (Qlt_le_dec (path_weight g weight a)
                      (path_weight g weight p)) as [Hlt|Hle].
          + by apply Qlt_le_weak.
          + apply Qle_bool_iff in Hle. congruence. }
      pose proof (Hmin _ (list_elem_of_here _ _)) as Hr.
      intros q [->|[->|Hq]%elem_of_cons]%elem_of_cons.
      * lra.
      * lra.
      * apply Hmin. by apply list_elem_of_further.
Qed.

(** On a graph with positive weights whose edges join nodes of the
    graph, the enumerating router keeps the contract of
    [nx.shortest_path] at every call. *)
Lemma enumerating_router_contract s t :
  shortest_path_contract g weight s t (enumerating_router g weight s t).
Proof.
  unfold enumerating_router, has_node.
  destruct (decide (s ∈ g_nodes g)) as [Hs|Hs];
    [rewrite (bool_decide_eq_true_2 _ Hs)
    |rewrite (bool_decide_eq_false_2 _ Hs); cbn; by left].
  destruct (decide (t ∈ g_nodes g)) as [Ht|Ht];
    [rewrite (bool_decide_eq_true_2 _ Ht)
    |rewrite (bool_decide_eq_false_2 _ Ht); cbn; by right].
  cbn [andb].
  (* every walk is matched by a candidate that is not heavier *)
  assert (∀ q, walk g weight s t q →
            ∃ q', q' ∈ simple_paths g (length (g_nodes g)) [] s t ∧
                  (path_weight g weight q' <= path_weight g weight q)%Q)
    as Hcover.
  { intros q Hq.
    destruct (walk_simplify s t _ q (le_n _) Hq) as (q' & Hq' & Hnd & Hle).
    exists q'. split; [|done]. destruct Hq' as (Hh & Hl & Hc & Hin).
    apply simple_paths_complete; try done.
    - intros n _. apply not_elem_of_nil.
    - apply Nat.le_le_succ_r, submseteq_length. by apply NoDup_submseteq. }
  destruct (simple_paths g (length (g_nodes g)) [] s t) as [|p ps] eqn:Hps.
  - cbn. intros [q Hq]. destruct (Hcover q Hq) as (q' & Hq' & _).
    by apply elem_of_nil in Hq'.
  - cbn. destruct (foldl_lighter p ps) as [Hin Hmin]. split.
    + eapply simple_paths_sound; [exact Hs|]. rewrite Hps. exact Hin.
    + intros q Hq. destruct (Hcover q Hq) as (q' & Hq' & Hle).
      specialize (Hmin q' Hq'). lra.
Qed.
End EnumeratingRouter.




#[local] Arguments choice : simpl never.
#[local] Arguments Step9c.place_all : simpl never.

(** ** The run does not depend on the generator of the [random] module *)

Lemma fmap_bind {A B C} (h : B → C) (m : result A) (k : A → result B) :
  h <$> (m ≫= k) = m ≫= (λ a, h <$> k a).
Proof. by destruct m. Qed.

Lemma foldM_commute {A S} (P : S → Prop) (h : S → S) (f : S → A → result S)
    (xs : list A) :
  (∀ s x, x ∈ xs → P s → f (h s) x = h <$> f s x) →
  (∀ s x s', x ∈ xs → P s → f s x = Ok s' → P s') →
  ∀ s, P s → foldM f (h s) xs = h <$> foldM f s xs.
Proof.
  induction xs as [|x xs IH]; intros Hh HP s Hs; [done|].
  cbn. rewrite Hh by (done || apply list_elem_of_here).
  destruct (f s x) as [s1|e] eqn:E; [|done]. cbn.
  apply IH.
  - intros s2 y Hy. apply Hh. by apply list_elem_of_further.
  - intros s2 y s3 Hy. apply HP. by apply list_elem_of_further.
  - eapply HP; [apply list_elem_of_here|exact Hs|exact E].
Qed.

Section Ambient.
Context {A D : Type} `{AgentLike A}.
Variable amb : Rng.
Implicit Types w : World A D.

Lemma move_agent_ambient i n w :
  move_agent i n (set_global_random amb w)
  = set_global_random amb <$> move_agent i n w.
Proof. unfold move_agent; cbn. repeat case_match; done. Qed.

Lemma place_agent_ambient i n w :
  place_agent i n (set_global_random amb w)
  = set_global_random amb <$> place_agent i n w.
Proof.
  unfold place_agent, get_agent; cbn. repeat case_match; done.
Qed.

Lemma agents_step_ambient (step : nat → World A D → result (World A D)) w :
  (∀ i w, step i (set_global_random amb w)
          = fmap (M:=result) (set_global_random amb) (step i w)) →
  agents_step step (set_global_random amb w)
  = set_global_random amb <$> agents_step step w.
Proof.
  intros Hs. unfold agents_step. cbn.
  apply (foldM_commute (λ _, True)); auto.
Qed.

Lemma run_trace_ambient (step update : World A D → result (World A D)) :
  (∀ w, step (set_global_random amb w)
        = fmap (M:=result) (set_global_random amb) (step w)) →
  (∀ w, update (set_global_random amb w)
        = fmap (M:=result) (set_global_random amb) (update w)) →
  ∀ steps w,
    run_trace step update steps (set_global_random amb w)
    = fmap (M:=result) (fmap (M:=list) (set_global_random amb))
        (run_trace step update steps w).
Proof.
  intros Hs Hu. induction steps as [|k IH]; intros w; [done|].
  cbn. unfold sim_step.
  change (set_t (S (t (set_global_random amb w))) (set_global_random amb w))
    with (set_global_random amb (set_t (S (t w)) w)).
  rewrite Hs. destruct (step _) as [w1|e]; [|done]. cbn.
  rewrite Hu. destruct (update w1) as [w2|e]; [|done]. cbn.
  rewrite IH. by destruct (run_trace _ _ _ _).
Qed.

Lemma positions_ambient w :
  positions (set_global_random amb w) = positions w.
Proof. done. Qed.
End Ambient.

Section RoutingAmbient.
Context {D : Type}.
Variable shortest_path : Graph D → (D → Q) → node → node → result (list node).
Variable weight : D → Q.
Variable amb : Rng.
Implicit Types w : World Agent D.

Lemma calculate_new_path_ambient i w :
  calculate_new_path shortest_path weight i (set_global_random amb w)
  = set_global_random amb <$> calculate_new_path shortest_path weight i w.
Proof.
  unfold calculate_new_path, get_agent; cbn.
  destruct (agents w !! i) as [self|]; [|done]. cbn.
  destruct (pos self); [|done].
  destruct (shortest_path _ _ _ _) as [[|x rest]|e]; try done.
  destruct e; try done; unfold random_node; cbn;
    destruct (choice (graph_nodes w) (random w)) as [[d r]|]; cbn; done.
Qed.

Lemma pop_and_move_ambient i w :
  pop_and_move i (set_global_random amb w)
  = set_global_random amb <$> pop_and_move i w.
Proof.
  unfold pop_and_move, get_agent; cbn.
  destruct (agents w !! i) as [self|]; [|done]. cbn.
  destruct (path self); [done|].
  apply (move_agent_ambient amb i _ (set_agent i _ w)).
Qed.

Lemma follow_path_ambient i w :
  follow_path shortest_path weight i (set_global_random amb w)
  = set_global_random amb <$> follow_path shortest_path weight i w.
Proof.
  unfold follow_path, get_agent, random_node; cbn.
  destruct (agents w !! i) as [self|]; [|done]. cbn.
  destruct (path self); [|apply pop_and_move_ambient].
  destruct (choice (graph_nodes w) (random w)) as [[d r]|e]; [|done]. cbn.
  change (set_agent i (set_destination d self)
            (set_random r (set_global_random amb w)))
    with (set_global_random amb
            (set_agent i (set_destination d self) (set_random r w))).
  rewrite calculate_new_path_ambient.
  destruct (calculate_new_path _ _ _ _) as [w2|e]; [|done]. cbn.
  destruct (agents w2 !! i) as [self'|]; [|done]. cbn.
  destruct (path self'); [done|apply pop_and_move_ambient].
Qed.

Lemma report_ambient w :
  report (set_global_random amb w) = set_global_random amb <$> report w.
Proof. unfold report, get_agent; cbn. by destruct (agents w !! 0%nat). Qed.
End RoutingAmbient.

Lemma choices_elem_of {B} (population : list B) k r ps r' :
  choices population k r = Ok (ps, r') → ∀ p, p ∈ ps → p ∈ population.
Proof.
  revert r ps r'. induction k as [|k IH]; intros r ps r' Hc p Hp; cbn in Hc.
  - inv_result. by apply elem_of_nil in Hp.
  - apply bind_Ok in Hc as ([x r1] & Hx & Hc).
    apply bind_Ok in Hc as ([xs r2] & Hxs & Hc). inv_result.
    apply elem_of_cons in Hp as [->|Hp]; [|eauto].
    by apply choice_Ok in Hx as [? _].
Qed.

Lemma trace_positions_ambient {A D} `{AgentLike A} (amb : Rng)
    (r : result (list (World A D))) :
  fmap (M:=result) (fmap (M:=list) positions)
    (fmap (M:=result) (fmap (M:=list) (set_global_random amb)) r)
  = fmap (M:=result) (fmap (M:=list) positions) r.
Proof.
  destruct r as [ws|e]; [|done]. cbn. f_equal.
  rewrite <- list_fmap_compose. by apply list_fmap_ext.
Qed.

Section Step8Ambient.
Import Step8.
Variable shortest_path :
  Graph EdgeData → (EdgeData → Q) → node → node → result (list node).
Variable amb : Rng.

(** The check [pos not in self.G] of the placement loop never fires on
    a position drawn from the nodes of [self.G]: the redraw through the
    [random] module is dead code. *)
Lemma place_no_redraw ps (w : World) i :
  (∀ p, p ∈ ps → p ∈ g_nodes (G w)) →
  place shortest_path ps w i
  = match ps !! i with
    | None => Raise IndexError
    | Some p => w2 ← place_agent i p w; calculate_new_path shortest_path i w2
    end.
Proof.
  intros Hps. unfold place. destruct (ps !! i) as [p|] eqn:Hp; [|done].
  unfold has_node. rewrite bool_decide_eq_true_2; [done|].
  apply Hps. eapply list_elem_of_lookup_2; eauto.
Qed.

Lemma closure_place_same_network ps (w w' : World) i :
  place shortest_path ps w i = Ok w' →
  G w' = G w ∧ List.length (agents w') = List.length (agents w).
Proof.
  unfold place. intros Hp.
  destruct (ps !! i) as [p|]; [|done].
  apply bind_Ok in Hp as ([p' w1] & H1 & Hp).
  apply bind_Ok in Hp as (w2 & H2 & Hp).
  apply place_agent_same_network in H2 as (HG2 & _ & Hl2 & _).
  apply calculate_new_path_same_network in Hp as (HG3 & _ & Hl3 & _).
  assert (G w1 = G w ∧ agents w1 = agents w) as [HG1 Ha1].
  { destruct (has_node (G w) p); inv_result; done. }
  rewrite HG3, HG2, HG1, Hl3, Hl2, Ha1. done.
Qed.

Lemma closure_place_ambient ps (w : World) i :
  (∀ p, p ∈ ps → p ∈ g_nodes (G w)) →
  place shortest_path ps (set_global_random amb w) i
  = set_global_random amb <$> place shortest_path ps w i.
Proof.
  intros Hps. rewrite !place_no_redraw by done.
  destruct (ps !! i) as [p|]; [|done].
  rewrite place_agent_ambient.
  destruct (place_agent i p w) as [w2|e]; [|done]. cbn.
  apply calculate_new_path_ambient.
Qed.

Lemma closure_place_all_ambient ps (w : World) :
  (∀ p, p ∈ ps → p ∈ g_nodes (G w)) →
  place_all shortest_path ps (set_global_random amb w)
  = set_global_random amb <$> place_all shortest_path ps w.
Proof.
  intros Hps. unfold place_all. cbn.
  apply (foldM_commute (λ w', G w' = G w)); [| |done].
  - intros s i _ HG. apply closure_place_ambient. by rewrite HG.
  - intros s i s' _ HG Hp. apply closure_place_same_network in Hp as [-> _]. done.
Qed.

Lemma closure_setup_ambient G_base num rng glob :
  setup shortest_path G_base num rng amb
  = set_global_random amb <$> setup shortest_path G_base num rng glob.
Proof.
  unfold setup.
  destruct (new_agents _ _ _ _) as [[ags rng1]|e]; [|done]. cbn.
  destruct (choices _ _ _) as [[ps rng2]|e] eqn:Hc; [|done]. cbn.
  apply (closure_place_all_ambient ps
           (mkWorld (apply_highway_closure G_base)
              (g_nodes (apply_highway_closure G_base))
              (empty_grid (g_nodes (apply_highway_closure G_base)))
              ∅ ags 0%nat rng2 glob)).
  cbn. eapply choices_elem_of; eauto.
Qed.

Lemma closure_model_step_ambient (w : World) :
  model_step shortest_path (set_global_random amb w)
  = set_global_random amb <$> model_step shortest_path w.
Proof. apply agents_step_ambient. intros. apply follow_path_ambient. Qed.

Lemma closure_run_ambient G_base num steps rng glob :
  run shortest_path G_base num steps rng amb
  = fmap (M:=result) (fmap (M:=list) (set_global_random amb))
      (run shortest_path G_base num steps rng glob).
Proof.
  unfold run. rewrite (closure_setup_ambient _ _ _ glob).
  destruct (setup _ _ _ _ glob) as [w|e]; [|done]. cbn.
  unfold update. rewrite report_ambient.
  destruct (report w) as [w0|e]; [|done]. cbn.
  rewrite run_trace_ambient.
  - by destruct (run_trace _ _ _ _).
  - apply closure_model_step_ambient.
  - apply report_ambient.
Qed.
End Step8Ambient.

Section Step9cAmbient.
Import Step9c.
Variable shortest_path :
  Graph EdgeData → (EdgeData → Q) → node → node → result (list node).
Variable amb : Rng.

Lemma congestion_step_ambient i (w : World) :
  step shortest_path i (set_global_random amb w)
  = set_global_random amb <$> step shortest_path i w.
Proof.
  unfold step. cbn. destruct (decide _).
  - unfold calculate_new_path. rewrite calculate_new_path_ambient.
    destruct (Routing.calculate_new_path _ _ _ _) as [w1|err]; [|done].
    apply follow_path_ambient.
  - apply follow_path_ambient.
Qed.

Lemma congestion_update_ambient (w : World) :
  update (set_global_random amb w) = set_global_random amb <$> update w.
Proof.
  unfold update, get_agent. cbn.
  destruct (mapM _ _) as [es|err]; [|done]. cbn.
  by destruct (agents w !! 0%nat).
Qed.

Lemma congestion_place_all_ambient ps (w : World) :
  place_all shortest_path ps (set_global_random amb w)
  = set_global_random amb <$> place_all shortest_path ps w.
Proof.
  unfold place_all. cbn.
  apply (foldM_commute (λ _, True)); [|done|done].
  intros s i _ _. unfold place. destruct (ps !! i) as [p|]; [|done].
  rewrite place_agent_ambient.
  destruct (place_agent i p s) as [w2|err]; [|done]. cbn.
  apply calculate_new_path_ambient.
Qed.

Lemma congestion_place_all_initial ps g nodes gr ap ags n rng glob :
  place_all shortest_path ps (mkWorld g nodes gr ap ags n rng amb)
  = set_global_random amb
      <$> place_all shortest_path ps (mkWorld g nodes gr ap ags n rng glob).
Proof. apply (congestion_place_all_ambient ps (mkWorld g nodes gr ap ags n rng glob)). Qed.

Lemma congestion_run_ambient loaded num steps rng glob :
  run shortest_path loaded num steps rng amb
  = fmap (M:=result) (fmap (M:=list) (set_global_random amb))
      (run shortest_path loaded num steps rng glob).
Proof.
  unfold run, setup.
  destruct (mapM cast_edge _) as [es|err]; [|done]. cbn.
  destruct (new_agents _ _ _ _) as [[ags rng1]|err]; [|done]. cbn.
  destruct (choices _ _ _) as [[ps rng2]|err]; [|done]. cbn.
  rewrite (congestion_place_all_initial _ _ _ _ _ _ _ _ glob).
  destruct (place_all _ _ _) as [w|err]; [|done]. cbn.
  rewrite congestion_update_ambient.
  destruct (update w) as [w0|err]; [|done]. cbn.
  rewrite run_trace_ambient.
  - by destruct (run_trace _ _ _ _).
  - intros w1. apply agents_step_ambient. apply congestion_step_ambient.
  - apply congestion_update_ambient.
Qed.
End Step9cAmbient.

(** ** Initial placement *)

(** C7 (the code at the failing input).  [setup] of the closure script
    on the village network with one agent and the draws [1, 2, 3, ...]
    places the agent on junction 3, which has no edge at all; nothing is
    redrawn and the generator of the [random] module is not touched. *)
Theorem setup_places_agent_on_isolated_junction :
  ∃ w, Step8.setup router village 1 counting idle = Ok w ∧
       positions w = [Some 3] ∧
       neighbors (G w) 3 = Ok [] ∧
       (∀ e, e ∈ g_edges (G w) → e_u e ≠ 3 ∧ e_v e ≠ 3) ∧
       global_random w = idle.
Proof.
  eexists. split; [vm_compute; reflexivity|].
  split; [reflexivity|]. split; [vm_compute; reflexivity|].
  split; [|reflexivity].
  intros e He. cbn in He.
  repeat (apply elem_of_cons in He as [->|He]);
    [..|by apply elem_of_nil in He]; split; discriminate.
Qed.

(** ** Reproducible runs *)

Lemma ambient_fixpoint {A D} (glob : Rng) (ws : list (World A D)) :
  set_global_random glob <$> ws = ws → ∀ w, w ∈ ws → global_random w = glob.
Proof.
  induction ws as [|w0 ws IH]; intros Heq w Hw.
  - by apply elem_of_nil in Hw.
  - injection Heq as H0 Hws.
    apply elem_of_cons in Hw as [->|Hw]; [|by apply IH].
    by rewrite <- H0.
Qed.

(** C8.  The positions of the agents after set-up and after every tick
    of a run of the closure script and of the congestion script are a
    function of the network, the agent count, the tick count and the
    seed of the shared random source alone: two runs that differ only in
    the state of the generator of the [random] module (the one other
    random source the scripts mention) give the same position
    sequences, and fail alike; and that generator is never drawn from,
    so every random choice of a run comes from the shared source. *)
Theorem runs_are_reproducible :
  (∀ shortest_path G_base num steps rng glob1 glob2,
     fmap (M:=result) (fmap (M:=list) positions)
       (Step8.run shortest_path G_base num steps rng glob1)
     = fmap (M:=result) (fmap (M:=list) positions)
         (Step8.run shortest_path G_base num steps rng glob2)) ∧
  (∀ shortest_path loaded num steps rng glob1 glob2,
     fmap (M:=result) (fmap (M:=list) positions)
       (Step9c.run shortest_path loaded num steps rng glob1)
     = fmap (M:=result) (fmap (M:=list) positions)
         (Step9c.run shortest_path loaded num steps rng glob2)) ∧
  (∀ shortest_path G_base num steps rng glob ws,
     Step8.run shortest_path G_base num steps rng glob = Ok ws →
     ∀ w, w ∈ ws → global_random w = glob) ∧
  (∀ shortest_path loaded num steps rng glob ws,
     Step9c.run shortest_path loaded num steps rng glob = Ok ws →
     ∀ w, w ∈ ws → global_random w = glob).
Proof.
  split; [|split; [|split]].
  - intros. rewrite (closure_run_ambient _ glob2 _ _ _ _ glob1).
    by rewrite trace_positions_ambient.
  - intros. rewrite (congestion_run_ambient _ glob2 _ _ _ _ glob1).
    by rewrite trace_positions_ambient.
  - intros sp G_base num steps rng glob ws Hrun.
    pose proof (closure_run_ambient sp glob G_base num steps rng glob) as Heq.
    rewrite Hrun in Heq. cbn in Heq. injection Heq as Heq.
    by apply ambient_fixpoint.
  - intros sp loaded num steps rng glob ws Hrun.
    pose proof (congestion_run_ambient sp glob loaded num steps rng glob) as Heq.
    rewrite Hrun in Heq. cbn in Heq. injection Heq as Heq.
    by apply ambient_fixpoint.
Qed.

Lemma runs_are_reproducible_witness :
  fmap (M:=result) (fmap (M:=list) positions)
    (Step8.run router village 2 3 counting idle)
  = fmap (M:=result) (fmap (M:=list) positions)
      (Step8.run router village 2 3 counting scattered) ∧
  ∃ ws, Step9c.run router town_raw 18 3 scattered counting = Ok ws ∧
        ∀ w, w ∈ ws → global_random w = counting.
Proof.
  split.
  - exact (proj1 runs_are_reproducible router village 2%nat 3%nat
             counting idle scattered).
  - eexists. split; [vm_compute; reflexivity|].
    refine (proj2 (proj2 (proj2 runs_are_reproducible)) router town_raw
              18%nat 3%nat scattered counting _ _).
    vm_compute. reflexivity.
Defined.

(** ** Moves are not checked against the network *)

Section Unchecked.
Context {A D : Type} `{AgentLike A}.
Implicit Types w : World A D.

(** C5 (amended).  [move_agent] makes no adjacency check: for an agent
    that is in the set of its recorded node, every move to a node of the
    grid is applied, whether or not an edge leads there; the agent, the
    tracker and the target's set then record the new position, and the
    network is not consulted or changed. *)
Theorem move_agent_applies_any_grid_move w i new_pos agent current_pos here :
  agents w !! i = Some agent →
  a_pos agent = Some current_pos →
  grid w !! current_pos = Some here →
  a_id agent ∈ here →
  new_pos ∈ dom (grid w) →
  ∃ w', move_agent i new_pos w = Ok w' ∧
        a_pos <$> agents w' !! i = Some (Some new_pos) ∧
        agent_positions w' !! a_id agent = Some new_pos ∧
        (∃ there, grid w' !! new_pos = Some there ∧ a_id agent ∈ there) ∧
        G w' = G w.
Proof.
  intros Hi Hpos Hhere Hin Hnew.
  unfold move_agent. rewrite Hi, Hpos, Hhere. rewrite decide_True by done.
  assert (is_Some (<[current_pos:=here ∖ {[a_id agent]}]> (grid w) !! new_pos))
    as [there Hthere].
  { apply elem_of_dom. rewrite dom_insert_L. set_solver. }
  rewrite Hthere. eexists. split; [reflexivity|]. cbn.
  split; [|split; [|split; [|done]]].
  - rewrite list_lookup_insert_eq by (by eapply lookup_lt_Some).
    cbn. by rewrite a_pos_set_pos.
  - apply lookup_insert_eq.
  - exists (there ∪ {[a_id agent]}). rewrite lookup_insert_eq. set_solver.
Qed.
End Unchecked.

Lemma move_agent_applies_any_grid_move_witness :
  let w := lone_car 2 [2] 1 counting in
  ∃ w', move_agent 0 3 w = Ok w' ∧
        a_pos <$> agents w' !! 0%nat = Some (Some 3) ∧
        agent_positions w' !! 1%nat = Some 3 ∧
        (∃ there, grid w' !! 3 = Some there ∧ 1%nat ∈ there) ∧
        G w' = G w.
Proof.
  refine (move_agent_applies_any_grid_move (lone_car 2 [2] 1 counting) 0%nat 3
            (mkAgent 1 (Some 1) 2 [2]) 1 {[ 1%nat ]} eq_refl eq_refl _ _ _).
  - vm_compute. reflexivity.
  - apply elem_of_singleton. reflexivity.
  - apply elem_of_dom. exists ∅. vm_compute. reflexivity.
Defined.

(** The vehicle at junction 1, whose only neighbour is junction 2, is
    moved to junction 3 on request. *)
Lemma move_to_far_junction_is_applied :
  let w := lone_car 2 [2] 1 counting in
  neighbors (G w) 1 = Ok [2] ∧
  ∃ w', move_agent 0 3 w = Ok w' ∧
        positions w' = [Some 3] ∧
        occupancy (grid w') 1 = 0%nat ∧ occupancy (grid w') 3 = 1%nat.
Proof.
  split; [vm_compute; reflexivity|].
  eexists. split; [vm_compute; reflexivity|].
  split; [reflexivity|]. split; vm_compute; reflexivity.
Qed.

(** ** The random walk at a dead end *)

(** C10.  The step of a random-walk agent whose node is in the network
    and has no out-neighbour returns the world it was given: positions,
    occupancy sets, tracker and random source are unchanged and nothing
    is raised. *)
Theorem step6_dead_end_is_noop {D} (w : World Step6.Agent D) i self :
  agents w !! i = Some self →
  Step6.pos self ∈ g_nodes (G w) →
  successors (G w) (Step6.pos self) = [] →
  Step6.step i w = Ok w.
Proof.
  intros Hi Hn Hs. unfold Step6.step, get_agent, neighbors, has_node.
  rewrite Hi. cbn. rewrite bool_decide_eq_true_2 by done. cbn.
  by rewrite Hs.
Qed.

Lemma step6_dead_end_is_noop_witness :
  Step6.step 0 cul_de_sac = Ok cul_de_sac.
Proof.
  refine (step6_dead_end_is_noop cul_de_sac 0%nat (Step6.mkAgent 1 2) eq_refl _ _).
  - apply list_elem_of_In. cbn. auto.
  - vm_compute. reflexivity.
Defined.

(** ** Destination redraws *)

Section Places.
Context {A D : Type} `{AgentLike A}.
Implicit Types w : World A D.

Lemma same_places_refl w : same_places w w.
Proof. by unfold same_places. Qed.


End Places.

Section Redraws.
Context {D : Type}.
Variable shortest_path : Graph D → (D → Q) → node → node → result (list node).
Variable weight : D → Q.
Implicit Types w : World Agent D.



End Redraws.




(** Tick 5, a destination off the network: the periodic recompute, the
    fallback and the failed retry redraw the destination three times. *)
Lemma three_redraws_in_one_tick :
  let w := lone_car 3 [] 5 counting in
  ∃ w', Step9c.step router 0 w = Ok w' ∧
        cursor (random w) = 0%nat ∧ cursor (random w') = 3%nat ∧
        positions w' = positions w.
Proof.
  eexists. split; [vm_compute; reflexivity|]. repeat split.
Qed.

(** ** The cast of the lanes *)

Example float_of_string_examples :
  float_of_string " 2.5e1 " = Ok (Fin 25) ∧
  float_of_string "1_000" = Ok (Fin 1000) ∧
  float_of_string "-.5" = Ok (Fin (-5 # 10)) ∧
  float_of_string "Infinity" = Ok Inf ∧
  float_of_string "2;3" = Raise ValueError ∧
  float_of_string "1__0" = Raise ValueError ∧
  float_of_string "" = Raise ValueError.
Proof. repeat split; vm_compute; reflexivity. Qed.

Example int_of_float_examples :
  float_of_string "2.7" ≫= py_int = Ok 2 ∧
  float_of_string "-2.7" ≫= py_int = Ok (-2) ∧
  float_of_string "0.5" ≫= py_int = Ok 0 ∧
  float_of_string "inf" ≫= py_int = Raise OverflowError ∧
  float_of_string "nan" ≫= py_int = Raise ValueError.
Proof. repeat split; vm_compute; reflexivity. Qed.

Section Lanes.
Import Step9c.

Lemma mapM_Raise {B C} (f : B → result C) (xs : list B) x err :
  x ∈ xs → f x = Raise err → ∃ err', mapM f xs = Raise err'.
Proof.
  induction xs as [|y xs IH]; intros Hx Hf.
  - by apply elem_of_nil in Hx.
  - cbn. apply elem_of_cons in Hx as [<-|Hx].
    + rewrite Hf. eauto.
    + destruct (f y); [|eauto]. cbn.
      destruct (IH Hx Hf) as [err' ->]. eauto.
Qed.




End Lanes.



(** ** The highway closure *)

Lemma filter_ext_in {B} (P Q : B → Prop) `{∀ x, Decision (P x)}
    `{∀ x, Decision (Q x)} (l : list B) :
  (∀ x, x ∈ l → P x ↔ Q x) → filter P l = filter Q l.
Proof.
  induction l as [|x l IH]; intros Hext; [done|].
  rewrite !filter_cons.
  assert (filter P l = filter Q l) as ->.
  { apply IH. intros y Hy. apply Hext. by apply list_elem_of_further. }
  pose proof (Hext x (list_elem_of_here _ _)) as Hx.
  destruct (decide (P x)), (decide (Q x)); tauto || done.
Qed.

Lemma NoDup_fmap_inj_in {B C} (f : B → C) (l : list B) x y :
  NoDup (f <$> l) → x ∈ l → y ∈ l → f x = f y → x = y.
Proof.
  induction l as [|a l IH]; intros Hnd Hx Hy Hf; [by apply elem_of_nil in Hx|].
  rewrite fmap_cons in Hnd. apply NoDup_cons in Hnd as [Ha Hnd].
  apply elem_of_cons in Hx as [->|Hx]; apply elem_of_cons in Hy as [->|Hy].
  - done.
  - exfalso. apply Ha. rewrite Hf. by apply list_elem_of_fmap_2.
  - exfalso. apply Ha. rewrite <- Hf. by apply list_elem_of_fmap_2.
  - by apply IH.
Qed.

Lemma filter_none {B} (P : B → Prop) `{∀ x, Decision (P x)} (l : list B) :
  (∀ x, x ∈ l → ¬ P x) → filter P l = [].
Proof.
  induction l as [|x l IH]; intros Hno; [done|].
  rewrite filter_cons, decide_False by (apply Hno, list_elem_of_here).
  apply IH. intros y Hy. apply Hno. by apply list_elem_of_further.
Qed.

Lemma filter_all {B} (P : B → Prop) `{∀ x, Decision (P x)} (l : list B) :
  (∀ x, x ∈ l → P x) → filter P l = l.
Proof.
  induction l as [|x l IH]; intros Hall; [done|].
  rewrite filter_cons, decide_True by (apply Hall, list_elem_of_here).
  f_equal. apply IH. intros y Hy. apply Hall. by apply list_elem_of_further.
Qed.

Section Closure.
Import Step8.
Implicit Types g : Graph EdgeData.

Lemma flagged_ids g tag e :
  NoDup (edge_id <$> g_edges g) → e ∈ g_edges g →
  edge_id e ∈ edge_id <$> filter (λ e, is_highway tag e) (g_edges g) ↔
  is_highway tag e.
Proof.
  intros Hnd He. split.
  - intros (e' & Hid & He')%list_elem_of_fmap.
    apply list_elem_of_filter in He' as [Htag He'].
    by rewrite (NoDup_fmap_inj_in edge_id (g_edges g) e e' Hnd He He' Hid).
  - intros Htag. apply list_elem_of_fmap_2. by apply list_elem_of_filter.
Qed.

Lemma edges_to_remove_motorways g :
  (∃ e, e ∈ g_edges g ∧ is_highway "motorway" e) →
  edges_to_remove g
  = edge_id <$> filter (λ e, is_highway "motorway" e) (g_edges g).
Proof.
  intros (e & He & Hm). unfold edges_to_remove.
  destruct (filter _ (g_edges g)) as [|x xs] eqn:Hf; [|done].
  assert (e ∈ filter (λ e, is_highway "motorway" e) (g_edges g)) as Hin
    by (by apply list_elem_of_filter).
  rewrite Hf in Hin. by apply elem_of_nil in Hin.
Qed.

Lemma edges_to_remove_primary g :
  (∀ e, e ∈ g_edges g → ¬ is_highway "motorway" e) →
  edges_to_remove g
  = edge_id <$> filter (λ e, is_highway "primary" e) (g_edges g).
Proof.
  intros Hno. unfold edges_to_remove.
  destruct (filter _ (g_edges g)) as [|x xs] eqn:Hf; [done|].
  assert (x ∈ filter (λ e, is_highway "motorway" e) (g_edges g)) as Hin
    by (rewrite Hf; apply list_elem_of_here).
  apply list_elem_of_filter in Hin as [Hm Hx]. by destruct (Hno x Hx).
Qed.

Lemma closure_edges_sub g e :
  e ∈ g_edges (apply_highway_closure g) → e ∈ g_edges g.
Proof. cbn. by intros [_ He]%list_elem_of_filter. Qed.

Lemma closure_no_motorway g e :
  e ∈ g_edges (apply_highway_closure g) → ¬ is_highway "motorway" e.
Proof.
  cbn. intros [Hid He]%list_elem_of_filter Hm. apply Hid.
  rewrite edges_to_remove_motorways by eauto.
  apply list_elem_of_fmap_2. by apply list_elem_of_filter.
Qed.

(** X1.  [apply_highway_closure] keeps every node; on a graph
    whose edge identifiers [(u, v, key)] are distinct it removes exactly
    the edges tagged [motorway] when there is one, and exactly the edges
    tagged [primary] when there is none. *)
Theorem closure_removes_motorways_or_else_primary_roads g :
  NoDup (edge_id <$> g_edges g) →
  g_nodes (apply_highway_closure g) = g_nodes g ∧
  ((∃ e, e ∈ g_edges g ∧ is_highway "motorway" e) →
   g_edges (apply_highway_closure g)
   = filter (λ e, ¬ is_highway "motorway" e) (g_edges g)) ∧
  ((∀ e, e ∈ g_edges g → ¬ is_highway "motorway" e) →
   g_edges (apply_highway_closure g)
   = filter (λ e, ¬ is_highway "primary" e) (g_edges g)).
Proof.
  intros Hnd. split; [done|]. split.
  - intros Hm. cbn. rewrite edges_to_remove_motorways by done.
    apply filter_ext_in. intros e He. by rewrite flagged_ids.
  - intros Hno. cbn. rewrite edges_to_remove_primary by done.
    apply filter_ext_in. intros e He. by rewrite flagged_ids.
Qed.

(** X2.  [apply_highway_closure] is not idempotent: after two
    applications no edge tagged [motorway] or [primary] is left and a
    third application changes nothing, while on a graph with a motorway a
    primary road (whose identifier is not that of a motorway) survives
    the first application and is removed by the second. *)
Theorem closure_applied_twice_removes_primary_roads_too g :
  let g2 := apply_highway_closure (apply_highway_closure g) in
  (∀ e, e ∈ g_edges g2 →
        ¬ is_highway "motorway" e ∧ ¬ is_highway "primary" e) ∧
  apply_highway_closure g2 = g2 ∧
  (∀ e, e ∈ g_edges g → is_highway "primary" e →
        (∃ m, m ∈ g_edges g ∧ is_highway "motorway" m) →
        (∀ m, m ∈ g_edges g → is_highway "motorway" m →
              edge_id m ≠ edge_id e) →
        e ∈ g_edges (apply_highway_closure g) ∧ e ∉ g_edges g2).
Proof.
  set (g1 := apply_highway_closure g).
  assert (∀ e, e ∈ g_edges (apply_highway_closure g1) →
               ¬ is_highway "motorway" e ∧ ¬ is_highway "primary" e) as Hclean.
  { intros e He. split; [by apply closure_no_motorway in He|].
    cbn in He. apply list_elem_of_filter in He as [Hid He]. intros Hp.
    apply Hid. rewrite edges_to_remove_primary
      by (intros x Hx; by apply closure_no_motorway in Hx).
    apply list_elem_of_fmap_2. by apply list_elem_of_filter. }
  cbv zeta. split; [exact Hclean|]. split.
  - unfold apply_highway_closure at 1.
    rewrite edges_to_remove_primary by (intros x Hx; by apply Hclean).
    assert (filter (λ e, is_highway "primary" e)
              (g_edges (apply_highway_closure g1)) = []) as ->.
    { apply filter_none. intros x Hx. by apply Hclean. }
    destruct (apply_highway_closure g1) as [ns es]. cbn. f_equal.
    apply filter_all. intros x _. apply not_elem_of_nil.
  - intros e He Hp Hm Hids. split.
    + cbn. apply list_elem_of_filter. split; [|done].
      rewrite edges_to_remove_motorways by done.
      intros (m & Hid & Hin)%list_elem_of_fmap.
      apply list_elem_of_filter in Hin as [Hmm Hin]. by eapply Hids.
    + intros He2. by destruct (Hclean e He2).
Qed.
End Closure.

Lemma closure_removes_motorways_or_else_primary_roads_witness :
  g_edges (Step8.apply_highway_closure bypass)
  = filter (λ e, ¬ Step8.is_highway "motorway" e) (g_edges bypass) ∧
  g_edges (Step8.apply_highway_closure village)
  = filter (λ e, ¬ Step8.is_highway "primary" e) (g_edges village).
Proof.
  split.
  - refine (proj1 (proj2
              (closure_removes_motorways_or_else_primary_roads bypass _)) _).
    + refine (bool_decide_unpack _ _). vm_compute. exact I.
    + exists (street 1 3 "motorway" 100). split; [apply list_elem_of_here|].
      vm_compute. exact I.
  - refine (proj2 (proj2
              (closure_removes_motorways_or_else_primary_roads village _)) _).
    + refine (bool_decide_unpack _ _). vm_compute. exact I.
    + intros e He. apply list_elem_of_In in He. cbn in He.
      destruct He as [<-|[<-|[]]]; vm_compute; exact (λ x, x).
Defined.

Lemma closure_applied_twice_removes_primary_roads_too_witness :
  street 1 2 "primary" 80 ∈ g_edges (Step8.apply_highway_closure bypass) ∧
  street 1 2 "primary" 80
    ∉ g_edges (Step8.apply_highway_closure (Step8.apply_highway_closure bypass)).
Proof.
  refine (proj2 (proj2 (closure_applied_twice_removes_primary_roads_too bypass))
            (street 1 2 "primary" 80) _ _ _ _).
  - apply list_elem_of_further, list_elem_of_here.
  - vm_compute. exact I.
  - exists (street 1 3 "motorway" 100). split; [apply list_elem_of_here|].
    vm_compute. exact I.
  - intros m Hm Hmw. apply list_elem_of_In in Hm. cbn in Hm.
    destruct Hm as [<-|[<-|[<-|[]]]]; try discriminate;
      vm_compute in Hmw; destruct Hmw.
Defined.

(** ** Fewer roads, longer trips *)

Lemma Qmin_list_lb (x : Q) (xs : list Q) (y : Q) :
  y ∈ x :: xs → (foldr Qmin x xs <= y)%Q.
Proof.
  induction xs as [|a xs IH]; cbn.
  - intros ->%list_elem_of_singleton. apply Qle_refl.
  - intros [->|[->|Hy]%elem_of_cons]%elem_of_cons.
    + eapply Qle_trans; [apply Q.le_min_r|]. apply IH, list_elem_of_here.
    + apply Q.le_min_l.
    + eapply Qle_trans; [apply Q.le_min_r|].
      by apply IH, list_elem_of_further.
Qed.

Lemma Qmin_list_glb (x : Q) (xs : list Q) (b : Q) :
  (∀ y, y ∈ x :: xs → (b <= y)%Q) → (b <= foldr Qmin x xs)%Q.
Proof.
  induction xs as [|a xs IH]; cbn; intros Hb.
  - apply Hb, list_elem_of_here.
  - apply Q.min_glb.
    + apply Hb, list_elem_of_further, list_elem_of_here.
    + apply IH. intros y [->|Hy]%elem_of_cons.
      * apply Hb, list_elem_of_here.
      * by apply Hb, list_elem_of_further, list_elem_of_further.
Qed.

(** Closed-form checks for the small networks of the examples. *)
Lemma closed_roads_check {D} (g : Graph D) :
  forallb (λ e, bool_decide (e_u e ∈ g_nodes g)
                && bool_decide (e_v e ∈ g_nodes g)) (g_edges g) = true →
  closed_roads g.
Proof.
  intros Hall e He. rewrite forallb_forall in Hall.
  apply list_elem_of_In, Hall, andb_true_iff in He as [Hu Hv].
  by apply bool_decide_eq_true in Hu, Hv.
Qed.

Lemma positive_weights_check {D} (g : Graph D) (weight : D → Q) :
  forallb (λ e, negb (Qle_bool (weight (e_data e)) 0)) (g_edges g) = true →
  positive_weights g weight.
Proof.
  intros Hall e He. rewrite forallb_forall in Hall.
  apply list_elem_of_In, Hall, negb_true_iff in He.
  apply Qnot_le_lt. intros Hle. apply Qle_bool_iff in Hle. congruence.
Qed.

Section Subnetwork.
Context {D : Type}.
Variables g g' : Graph D.
Variable weight : D → Q.
Hypothesis Hnodes : g_nodes g' = g_nodes g.
Hypothesis Hsub : ∀ e, e ∈ g_edges g' → e ∈ g_edges g.

Lemma parallel_weights_sub u v y :
  y ∈ parallel_weights g' weight u v → y ∈ parallel_weights g weight u v.
Proof.
  unfold parallel_weights.
  intros (e & -> & [Huv He]%list_elem_of_filter)%list_elem_of_fmap.
  apply list_elem_of_fmap. exists e. split; [done|].
  apply list_elem_of_filter. auto.
Qed.

Lemma adjacent_sub u v : adjacent g' weight u v → adjacent g weight u v.
Proof.
  unfold adjacent. intros Hne Hnil.
  destruct (parallel_weights g' weight u v) as [|y ys] eqn:Hpw; [done|].
  assert (y ∈ parallel_weights g weight u v) as Hy
    by (apply parallel_weights_sub; rewrite Hpw; apply list_elem_of_here).
  rewrite Hnil in Hy. by apply elem_of_nil in Hy.
Qed.

Lemma edge_weight_sub u v :
  adjacent g' weight u v →
  (edge_weight g weight u v <= edge_weight g' weight u v)%Q.
Proof.
  intros Hadj. pose proof (adjacent_sub _ _ Hadj) as Hadj0.
  unfold edge_weight, adjacent in *.
  destruct (parallel_weights g' weight u v) as [|y ys] eqn:Hpw'; [done|].
  destruct (parallel_weights g weight u v) as [|x xs] eqn:Hpw; [done|].
  apply Qmin_list_glb. intros z Hz. apply Qmin_list_lb.
  rewrite <- Hpw. apply parallel_weights_sub. by rewrite Hpw'.
Qed.

Lemma chain_sub p : chain g' weight p → chain g weight p.
Proof.
  induction p as [|u [|v p] IH]; [done..|].
  intros [Hadj Hc]. split; [by apply adjacent_sub|by apply IH].
Qed.

Lemma path_weight_sub p :
  chain g' weight p →
  (path_weight g weight p <= path_weight g' weight p)%Q.
Proof.
  induction p as [|u [|v p] IH]; [intros; apply Qle_refl..|].
  intros [Hadj Hc]. specialize (IH Hc).
  pose proof (edge_weight_sub _ _ Hadj) as He.
  change (edge_weight g weight u v + path_weight g weight (v :: p)
          <= edge_weight g' weight u v + path_weight g' weight (v :: p))%Q.
  lra.
Qed.

Lemma walk_sub s t p : walk g' weight s t p → walk g weight s t p.
Proof.
  intros (Hh & Hl & Hc & Hin). repeat split; [done..|by apply chain_sub|].
  intros n Hn. rewrite <- Hnodes. by apply Hin.
Qed.
End Subnetwork.

(** X3.  Closing roads never shortens a trip: every walk of the
    closed network is a walk of the base network of no greater length,
    and when the router keeps its contract on both networks and finds a
    route in the closed one, it finds one in the base network too, of
    total length no greater. *)
Theorem closure_never_shortens_a_trip (g : Graph Step8.EdgeData) (s t : node) :
  let g' := Step8.apply_highway_closure g in
  (∀ q, walk g' Step8.length s t q →
        walk g Step8.length s t q ∧
        (path_weight g Step8.length q <= path_weight g' Step8.length q)%Q) ∧
  (∀ shortest_path p',
     shortest_path_contract g Step8.length s t
       (shortest_path g Step8.length s t) →
     shortest_path_contract g' Step8.length s t
       (shortest_path g' Step8.length s t) →
     shortest_path g' Step8.length s t = Ok p' →
     ∃ p, shortest_path g Step8.length s t = Ok p ∧
          (path_weight g Step8.length p <= path_weight g' Step8.length p')%Q).
Proof.
  cbv zeta.
  assert (∀ q, walk (Step8.apply_highway_closure g) Step8.length s t q →
        walk g Step8.length s t q ∧
        (path_weight g Step8.length q
         <= path_weight (Step8.apply_highway_closure g) Step8.length q)%Q)
    as Hwalk.
  { intros q Hq. split.
    - exact (walk_sub g (Step8.apply_highway_closure g) _ eq_refl
               (closure_edges_sub g) s t q Hq).
    - apply (path_weight_sub g (Step8.apply_highway_closure g) _
               (closure_edges_sub g)).
      by destruct Hq as (_ & _ & Hc & _). }
  split; [exact Hwalk|].
  intros sp p' Hc Hc' Hsp'. rewrite Hsp' in Hc'. destruct Hc' as [Hw' _].
  destruct (Hwalk p' Hw') as [Hw Hle].
  destruct (sp g Step8.length s t) as [p|err].
  - exists p. split; [done|]. destruct Hc as [_ Hmin].
    specialize (Hmin p' Hw). lra.
  - exfalso. destruct err; try done.
    + apply Hc. by exists p'.
    + destruct Hw as (Hh & Hl & _ & Hin). destruct Hc as [Hs|Ht].
      * apply Hs, Hin. destruct p'; [done|]. injection Hh as ->.
        apply list_elem_of_here.
      * apply Ht, Hin. by apply last_Some_elem_of.
Qed.

Lemma closure_never_shortens_a_trip_witness :
  ∃ p, router bypass Step8.length 1 3 = Ok p ∧
       (path_weight bypass Step8.length p
        <= path_weight (Step8.apply_highway_closure bypass) Step8.length
             [1%Z; 2%Z; 3%Z])%Q.
Proof.
  refine (proj2 (closure_never_shortens_a_trip bypass 1 3) router [1; 2; 3]
            _ _ _).
  - apply enumerating_router_contract;
      [apply positive_weights_check|apply closed_roads_check];
      vm_compute; reflexivity.
  - apply enumerating_router_contract;
      [apply positive_weights_check|apply closed_roads_check];
      vm_compute; reflexivity.
  - vm_compute. reflexivity.
Defined.

(** ** The outcome of the congestion recompute *)

Lemma mapM_outcome {A B} (f : A → result B) (bad : A → Prop)
    `{∀ x, Decision (bad x)} (h : A → B) (e0 : pyerr) (xs : list A) :
  (∀ x, x ∈ xs → f x = if decide (bad x) then Raise e0 else Ok (h x)) →
  mapM f xs = if decide (Exists bad xs) then Raise e0 else Ok (h <$> xs).
Proof.
  induction xs as [|x xs IH]; intros Hf.
  - cbn. destruct (decide _) as [Hex|_]; [by apply Exists_nil in Hex|done].
  - cbn. rewrite (Hf x) by apply list_elem_of_here.
    rewrite IH by (intros y Hy; by apply Hf, list_elem_of_further).
    destruct (decide (bad x)) as [Hx|Hx].
    + cbn. by rewrite decide_True by (by apply Exists_cons_hd).
    + cbn. destruct (decide (Exists bad xs)) as [Hex|Hex].
      * by rewrite decide_True by (by apply Exists_cons_tl).
      * rewrite decide_False; [done|].
        by intros [?|?]%Exists_cons.
Qed.

Section UpdateOutcome.
Import Step9c.
Implicit Types w : World.

Lemma apply_congestion_outcome (gr : gmap node (gset nat)) (e : Edge EdgeData) :
  apply_congestion (node_congestion gr) (reset_travel_time e)
  = if decide (lanes (e_data e) = 0 ∧
               (0 < occupancy gr (e_u e) + occupancy gr (e_v e))%nat)
    then Raise ZeroDivisionError
    else Ok (set_travel_time (congestion_model gr e) e).
Proof.
  unfold apply_congestion, congestion_model. cbn.
  rewrite !node_congestion_occupancy. unfold CAPACITY_PER_LANE.
  destruct (decide (lanes (e_data e) = 0 ∧ _)) as [[Hl Hocc]|Hno].
  - rewrite decide_True by lia. by rewrite decide_True by lia.
  - destruct (decide (_ > _)) as [Hgt|Hle]; [|reflexivity].
    rewrite decide_False; [reflexivity|].
    intros Hcap. apply Hno. split; lia.
Qed.

Lemma update_outcome_cases w :
  update w
  = if decide (Exists (λ e, lanes (e_data e) = 0 ∧
                 (0 < occupancy (grid w) (e_u e)
                      + occupancy (grid w) (e_v e))%nat) (g_edges (G w)))
    then Raise ZeroDivisionError
    else match agents w with
         | [] => Raise IndexError
         | _ :: _ =>
             Ok (set_edges
                   ((λ e, set_travel_time (congestion_model (grid w) e) e)
                      <$> g_edges (G w)) w)
         end.
Proof.
  unfold update.
  assert (mapM (apply_congestion (node_congestion (grid w)))
            (reset_travel_time <$> g_edges (G w))
          = mapM (λ e, apply_congestion (node_congestion (grid w))
                         (reset_travel_time e)) (g_edges (G w))) as ->.
  { induction (g_edges (G w)) as [|e es IH]; [done|]. cbn. by rewrite IH. }
  rewrite (mapM_outcome _ _ _ ZeroDivisionError _
             (λ e _, apply_congestion_outcome (grid w) e)).
  destruct (decide _); [done|]. cbn. unfold get_agent. cbn.
  by destruct (agents w).
Qed.

(** X4.  The outcomes of [update] of the congestion script: it
    raises [ZeroDivisionError] when some edge has zero lanes and an agent
    on one of its endpoints; otherwise it raises [IndexError] when there
    is no agent, and else succeeds with the congestion formula on every
    edge (a zero-lane edge with empty endpoints keeps its free-flow
    time). *)
Theorem update_raises_on_an_occupied_zero_lane_edge w :
  let stuck (e : Edge EdgeData) :=
    lanes (e_data e) = 0 ∧
    (0 < occupancy (grid w) (e_u e) + occupancy (grid w) (e_v e))%nat in
  ((∃ e, e ∈ g_edges (G w) ∧ stuck e) →
   update w = Raise ZeroDivisionError) ∧
  ((∀ e, e ∈ g_edges (G w) → ¬ stuck e) → agents w = [] →
   update w = Raise IndexError) ∧
  ((∀ e, e ∈ g_edges (G w) → ¬ stuck e) → agents w ≠ [] →
   update w
   = Ok (set_edges
           ((λ e, set_travel_time (congestion_model (grid w) e) e)
              <$> g_edges (G w)) w)).
Proof.
  cbv zeta. rewrite update_outcome_cases. split; [|split].
  - intros (e & He & Hst). rewrite decide_True; [done|].
    apply Exists_exists. eauto.
  - intros Hno Hag. rewrite decide_False, Hag; [done|].
    intros (e & He & Hst)%Exists_exists. by apply (Hno e).
  - intros Hno Hag. rewrite decide_False.
    + by destruct (agents w).
    + intros (e & He & Hst)%Exists_exists. by apply (Hno e).
Qed.

Lemma update_Ok_edges w w' :
  update w = Ok w' →
  w' = set_edges
         ((λ e, set_travel_time (congestion_model (grid w) e) e)
            <$> g_edges (G w)) w.
Proof.
  rewrite update_outcome_cases. destruct (decide _); [done|].
  destruct (agents w); [done|]. by intros [= <-].
Qed.

(** X5.  The congestion penalty does not see the direction of
    travel: after [update], two edges that join the same two nodes in
    opposite directions and have the same lanes and the same free-flow
    time have the same travel time. *)
Theorem congestion_is_direction_blind w w' (e1 e2 : Edge EdgeData) :
  update w = Ok w' →
  e1 ∈ g_edges (G w') → e2 ∈ g_edges (G w') →
  e_u e1 = e_v e2 → e_v e1 = e_u e2 →
  lanes (e_data e1) = lanes (e_data e2) →
  base_travel_time (e_data e1) = base_travel_time (e_data e2) →
  travel_time (e_data e1) = travel_time (e_data e2).
Proof.
  intros ->%update_Ok_edges. cbn.
  intros (x1 & -> & _)%list_elem_of_fmap (x2 & -> & _)%list_elem_of_fmap.
  cbn. unfold congestion_model. intros -> -> -> ->.
  by rewrite (Z.add_comm (Z.of_nat (occupancy (grid w) (e_v x2)))).
Qed.

Lemma congestion_model_mono (gr gr' : gmap node (gset nat))
    (e : Edge EdgeData) :
  0 < lanes (e_data e) → (0 <= base_travel_time (e_data e))%Q →
  (∀ n, (occupancy gr n ≤ occupancy gr' n)%nat) →
  (congestion_model gr e <= congestion_model gr' e)%Q.
Proof.
  intros Hl Hb Hocc.
  pose proof (congestion_model_ge gr' e Hl Hb) as Hge.
  unfold congestion_model in *.
  pose proof (Hocc (e_u e)) as Hu. pose proof (Hocc (e_v e)) as Hv.
  set (load := Z.of_nat (occupancy gr (e_u e))
               + Z.of_nat (occupancy gr (e_v e))) in *.
  set (load' := Z.of_nat (occupancy gr' (e_u e))
                + Z.of_nat (occupancy gr' (e_v e))) in *.
  set (cap := lanes (e_data e) * CAPACITY_PER_LANE) in *.
  assert (load ≤ load') as Hload by (unfold load, load'; lia).
  assert (0 < cap) as Hcap by (unfold cap, CAPACITY_PER_LANE; lia).
  destruct (decide (load > cap)) as [Hgt|Hle]; [|exact Hge].
  rewrite decide_True by lia.
  assert (inject_Z load / inject_Z cap <= inject_Z load' / inject_Z cap)%Q
    as Hf.
  { apply Qmult_le_compat_r.
    - by rewrite <- Zle_Qle.
    - apply Qinv_le_0_compat. change 0%Q with (inject_Z 0).
      rewrite <- Zle_Qle. lia. }
  revert Hb Hf.
  generalize (base_travel_time (e_data e))
    (inject_Z load / inject_Z cap)%Q (inject_Z load' / inject_Z cap)%Q.
  intros b f f' Hb Hf. nra.
Qed.

(** X6.  More traffic never makes a road faster: on the same
    network with at least one lane and a free-flow time that is not
    negative on every edge, if no node holds fewer agents in the second
    world than in the first, then after [update] no edge has a smaller
    travel time in the second world than in the first. *)
Theorem more_traffic_never_speeds_a_road w1 w2 w1' w2' :
  G w2 = G w1 → valid_edges w1 →
  (∀ n, (occupancy (grid w1) n ≤ occupancy (grid w2) n)%nat) →
  update w1 = Ok w1' → update w2 = Ok w2' →
  Forall2 (λ e e',
             e_u e' = e_u e ∧ e_v e' = e_v e ∧ e_key e' = e_key e ∧
             (travel_time (e_data e) <= travel_time (e_data e'))%Q)
    (g_edges (G w1')) (g_edges (G w2')).
Proof.
  intros HG Hv Hocc ->%update_Ok_edges ->%update_Ok_edges. cbn.
  rewrite HG. apply Forall2_fmap, Forall_Forall2_diag, Forall_forall.
  intros e He. cbn. repeat split.
  destruct (Hv e He) as [Hl Hb]. by apply congestion_model_mono.
Qed.
End UpdateOutcome.

Lemma update_raises_on_an_occupied_zero_lane_edge_witness :
  Step9c.update (Step9c.set_edges [road 1 2 0 10 10] rush_hour)
  = Raise ZeroDivisionError ∧
  Step9c.update
    (Step9c.set_edges [road 1 2 1 10 10; road 2 3 0 10 10]
       (lone_car 2 [2] 1 counting))
  = Ok (Step9c.set_edges [road 1 2 1 10 10; road 2 3 0 10 10]
          (lone_car 2 [2] 1 counting)).
Proof.
  split.
  - refine (proj1 (update_raises_on_an_occupied_zero_lane_edge
                     (Step9c.set_edges [road 1 2 0 10 10] rush_hour)) _).
    exists (road 1 2 0 10 10). split; [apply list_elem_of_here|].
    split; [reflexivity|]. vm_compute. lia.
  - refine (proj2 (proj2 (update_raises_on_an_occupied_zero_lane_edge
              (Step9c.set_edges [road 1 2 1 10 10; road 2 3 0 10 10]
                 (lone_car 2 [2] 1 counting)))) _ _).
    + intros e He [Hl Hocc]. apply list_elem_of_In in He. cbn in He.
      destruct He as [<-|[<-|[]]]; [discriminate|].
      vm_compute in Hocc. lia.
    + discriminate.
Defined.

Lemma congestion_is_direction_blind_witness :
  Step9c.travel_time (e_data (road 1 2 1 10 (10 * (11 / 10))))
  = Step9c.travel_time (e_data (road 2 1 1 10 (10 * (11 / 10)))).
Proof.
  refine (congestion_is_direction_blind two_way_rush
            (Step9c.set_edges [road 1 2 1 10 (10 * (11 / 10));
                               road 2 1 1 10 (10 * (11 / 10))] rush_hour)
            (road 1 2 1 10 (10 * (11 / 10))) (road 2 1 1 10 (10 * (11 / 10)))
            _ _ _ eq_refl eq_refl eq_refl eq_refl).
  - vm_compute. reflexivity.
  - apply list_elem_of_here.
  - apply list_elem_of_further, list_elem_of_here.
Defined.

Lemma more_traffic_never_speeds_a_road_witness :
  Forall2 (λ e e',
             e_u e' = e_u e ∧ e_v e' = e_v e ∧ e_key e' = e_key e ∧
             (Step9c.travel_time (e_data e)
              <= Step9c.travel_time (e_data e'))%Q)
    [road 1 2 1 10 10] [road 1 2 1 10 (10 * (11 / 10))].
Proof.
  refine (more_traffic_never_speeds_a_road quiet_hour rush_hour
            (Step9c.set_edges [road 1 2 1 10 10] quiet_hour)
            (Step9c.set_edges [road 1 2 1 10 (10 * (11 / 10))] rush_hour)
            eq_refl _ _ _ _).
  - intros e He. apply list_elem_of_In in He. cbn in He.
    destruct He as [<-|[]]. split; [reflexivity|discriminate].
  - intros n. unfold occupancy. cbn.
    destruct (decide (n = 1)) as [->|H1]; [vm_compute; lia|].
    destruct (decide (n = 2)) as [->|H2]; [vm_compute; lia|].
    rewrite !lookup_insert_ne by done. rewrite !lookup_singleton_ne by done.
    lia.
  - vm_compute. reflexivity.
  - vm_compute. reflexivity.
Defined.

(** ** Moves: when they fail, and how they undo *)

Section MoveOutcome.
Context {A D : Type} `{AgentLike A}.
Implicit Types w : World A D.

(** X7.  The outcomes of [move_agent]: [IndexError] when the
    agent is not in the agent list; success when the agent is in the set
    of its recorded node and the target is a node of the grid; and
    [KeyError] in every other case (no recorded position, recorded node
    not in the grid, agent not in the set of its node, target not in the
    grid). *)
Theorem move_agent_failure_modes w i new_pos :
  (agents w !! i = None → move_agent i new_pos w = Raise IndexError) ∧
  (∀ agent, agents w !! i = Some agent →
     ((∃ current_pos here,
         a_pos agent = Some current_pos ∧
         grid w !! current_pos = Some here ∧ a_id agent ∈ here) ∧
      new_pos ∈ dom (grid w) →
      ∃ w', move_agent i new_pos w = Ok w') ∧
     (¬ ((∃ current_pos here,
            a_pos agent = Some current_pos ∧
            grid w !! current_pos = Some here ∧ a_id agent ∈ here) ∧
         new_pos ∈ dom (grid w)) →
      move_agent i new_pos w = Raise KeyError)).
Proof.
  split.
  - intros Hi. unfold move_agent. by rewrite Hi.
  - intros agent Hi. unfold move_agent. rewrite Hi. split.
    + intros [(cur & here & Hpos & Hhere & Hin) Hnew].
      rewrite Hpos, Hhere, decide_True by done.
      assert (is_Some (<[cur:=here ∖ {[a_id agent]}]> (grid w) !! new_pos))
        as [there ->]; [|eauto].
      apply elem_of_dom. rewrite dom_insert_L. set_solver.
    + intros Hno.
      destruct (a_pos agent) as [cur|] eqn:Hpos; [|done].
      destruct (grid w !! cur) as [here|] eqn:Hhere; [|done].
      destruct (decide (a_id agent ∈ here)) as [Hin|]; [|done].
      destruct (_ !! new_pos) as [there|] eqn:Hthere; [|done].
      exfalso. apply Hno. split; [eauto|].
      assert (new_pos ∈ dom (<[cur:=here ∖ {[a_id agent]}]> (grid w)))
        as Hd by (apply elem_of_dom; eauto).
      rewrite dom_insert_L in Hd.
      apply elem_of_union in Hd as [->%elem_of_singleton|Hd]; [|done].
      apply elem_of_dom. eauto.
Qed.

Lemma placed_elsewhere k w i a cur n s :
  placed k w → (i < k)%nat → agents w !! i = Some a →
  a_pos a = Some cur → grid w !! n = Some s → n ≠ cur → a_id a ∉ s.
Proof.
  intros (Hnd & _ & Hback & _) Hik Hi Hpos Hs Hne Hin.
  destruct (Hback n s _ Hs Hin) as (j & b & Hj & Hb & Hid & Hposb).
  assert (j = i) as -> by (by eapply ids_injective).
  rewrite Hi in Hb. injection Hb as <-. congruence.
Qed.

(** X8.  A move and the move back undo each other: in a world
    that satisfies the occupancy invariant, moving an agent to any node
    of the grid and then back to where it stood succeeds and restores
    the grid, the position tracker and the positions of all agents; the
    network, the random source and the tick are untouched. *)
Theorem move_there_and_back w i agent current_pos new_pos :
  occupancy_ok w →
  agents w !! i = Some agent → a_pos agent = Some current_pos →
  new_pos ∈ dom (grid w) →
  ∃ w1 w2,
    move_agent i new_pos w = Ok w1 ∧
    move_agent i current_pos w1 = Ok w2 ∧
    grid w2 = grid w ∧ agent_positions w2 = agent_positions w ∧
    positions w2 = positions w ∧ a_id <$> agents w2 = a_id <$> agents w ∧
    G w2 = G w ∧ random w2 = random w ∧ t w2 = t w.
Proof.
  intros Hok Hi Hpos Hnew.
  pose proof (lookup_lt_Some _ _ _ Hi) as Hlt.
  pose proof Hok as (Hnd & Hfwd & Hback & Htrk & _).
  destruct (Hfwd i agent Hi Hlt) as (cur & here & Hcur & Hhere & Hin).
  rewrite Hpos in Hcur. injection Hcur as <-.
  pose proof (Htrk i agent Hi Hlt) as Htr. rewrite Hpos in Htr.
  apply elem_of_dom in Hnew as [s Hs].
  set (x := a_id agent) in *.
  assert ((here ∖ {[x]}) ∪ {[x]} = here) as Hput.
  { apply set_eq. intros y. rewrite elem_of_union, elem_of_difference,
      elem_of_singleton. destruct (decide (y = x)) as [->|]; tauto. }
  destruct (decide (new_pos = current_pos)) as [->|Hne].
  - (* the move to the node the agent stands on *)
    assert (move_agent i current_pos w
            = Ok (mkWorld (G w) (graph_nodes w) (grid w) (agent_positions w)
                    (<[i:=a_set_pos current_pos agent]> (agents w))
                    (t w) (random w) (global_random w))) as Hm1.
    { unfold move_agent. rewrite Hi, Hpos, Hhere, decide_True by done.
      rewrite lookup_insert_eq. fold x. rewrite insert_insert_eq, Hput.
      by rewrite (insert_id _ _ _ Hhere), (insert_id _ _ _ Htr). }
    eexists _, _. split; [exact Hm1|].
    unfold move_agent. cbn.
    rewrite list_lookup_insert_eq by done.
    rewrite a_pos_set_pos, a_id_set_pos, Hhere, decide_True by done.
    rewrite lookup_insert_eq. fold x. rewrite insert_insert_eq, Hput.
    rewrite (insert_id _ _ _ Hhere), (insert_id _ _ _ Htr).
    split; [reflexivity|]. cbn. rewrite list_insert_insert_eq.
    repeat split.
    + unfold positions. cbn. rewrite list_fmap_insert, a_pos_set_pos.
      apply list_insert_id. rewrite list_lookup_fmap, Hi, <- Hpos. reflexivity.
    + rewrite list_fmap_insert, !a_id_set_pos.
      apply list_insert_id. rewrite list_lookup_fmap, Hi. reflexivity.
  - (* a move to another node *)
    assert (x ∉ s) as Hfresh by (by eapply placed_elsewhere).
    assert ((s ∪ {[x]}) ∖ {[x]} = s) as Htake by set_solver.
    eexists _, _. split.
    { unfold move_agent. rewrite Hi, Hpos, Hhere, decide_True by done.
      fold x. rewrite lookup_insert_ne, Hs by done. reflexivity. }
    unfold move_agent. cbn.
    rewrite list_lookup_insert_eq by done.
    rewrite a_pos_set_pos, a_id_set_pos. fold x.
    rewrite lookup_insert_eq, decide_True by set_solver.
    rewrite Htake, insert_insert_eq.
    rewrite lookup_insert_ne, lookup_insert_eq by done.
    split; [reflexivity|]. cbn.
    repeat split.
    + rewrite Hput. apply map_eq. intros n.
      destruct (decide (n = current_pos)) as [->|Hn1];
        [by rewrite lookup_insert_eq, Hhere|].
      rewrite lookup_insert_ne by done.
      destruct (decide (n = new_pos)) as [->|Hn2];
        [by rewrite lookup_insert_eq, Hs|].
      by rewrite !lookup_insert_ne by done.
    + rewrite insert_insert_eq. by apply insert_id.
    + unfold positions. cbn. rewrite list_insert_insert_eq.
      rewrite list_fmap_insert, a_pos_set_pos.
      apply list_insert_id. rewrite list_lookup_fmap, Hi, <- Hpos. reflexivity.
    + rewrite list_insert_insert_eq, list_fmap_insert, !a_id_set_pos.
      apply list_insert_id. rewrite list_lookup_fmap, Hi. reflexivity.
Qed.
End MoveOutcome.

Lemma move_agent_failure_modes_witness :
  move_agent 5 2 (lone_car 2 [2] 1 counting) = Raise IndexError ∧
  (∃ w', move_agent 0 3 (lone_car 2 [2] 1 counting) = Ok w') ∧
  move_agent 0 9 (lone_car 2 [2] 1 counting) = Raise KeyError.
Proof.
  split; [|split].
  - exact (proj1 (move_agent_failure_modes (lone_car 2 [2] 1 counting) 5%nat 2)
             eq_refl).
  - refine (proj1 (proj2 (move_agent_failure_modes (lone_car 2 [2] 1 counting)
                     0%nat 3) _ eq_refl) _).
    split.
    + exists 1, {[ 1%nat ]}. split; [reflexivity|]. split; [reflexivity|].
      by apply elem_of_singleton.
    + apply elem_of_dom. exists ∅. vm_compute. reflexivity.
  - refine (proj2 (proj2 (move_agent_failure_modes (lone_car 2 [2] 1 counting)
                     0%nat 9) _ eq_refl) _).
    intros [_ Hd]. apply elem_of_dom in Hd as [s Hs].
    vm_compute in Hs. discriminate.
Defined.

Lemma move_there_and_back_witness :
  ∃ w, Step9c.setup router town_raw 1 counting idle = Ok w ∧
  ∃ w1 w2,
    move_agent 0 1 w = Ok w1 ∧ move_agent 0 3 w1 = Ok w2 ∧
    grid w2 = grid w ∧ agent_positions w2 = agent_positions w ∧
    positions w2 = positions w ∧ a_id <$> agents w2 = a_id <$> agents w ∧
    G w2 = G w ∧ random w2 = random w ∧ t w2 = t w.
Proof.
  eexists. split; [vm_compute; reflexivity|].
  refine (move_there_and_back _ 0%nat _ 3 1 _ _ _ _).
  - apply (setup_occupancy_ok router town_raw 1 counting idle).
    vm_compute. reflexivity.
  - reflexivity.
  - reflexivity.
  - apply elem_of_dom. eexists. vm_compute. reflexivity.
Defined.

(** ** Runs without agents, networks without nodes *)

Lemma occupancy_empty_grid nodes n : occupancy (empty_grid nodes) n = 0%nat.
Proof.
  unfold occupancy. destruct (empty_grid nodes !! n) as [s|] eqn:Hs; [|done].
  apply empty_grid_lookup in Hs as [-> _]. apply size_empty.
Qed.

(** X9.  A model without agents cannot run: with
    [num_agents = 0] the set-up succeeds and the first [update] raises
    [IndexError] at [self.agents[0]], in the random-walk script, in the
    closure script and (once the casts of the edges have succeeded) in
    the congestion script. *)
Theorem run_without_agents_raises_IndexError :
  (∀ (D : Type) (loaded : Graph D) steps rng glob,
     Step6.run loaded 0 steps rng glob = Raise IndexError) ∧
  (∀ shortest_path G_base steps rng glob,
     Step8.run shortest_path G_base 0 steps rng glob = Raise IndexError) ∧
  (∀ shortest_path loaded steps rng glob,
     Step9c.run shortest_path loaded 0 steps rng glob
     = mapM Step9c.cast_edge (g_edges loaded) ≫= λ _, Raise IndexError).
Proof.
  split; [|split].
  - reflexivity.
  - reflexivity.
  - intros sp loaded steps rng glob. unfold Step9c.run, Step9c.setup.
    destruct (mapM Step9c.cast_edge (g_edges loaded)) as [edges|]; [|done].
    unfold Step9c.place_all. cbn -[Step9c.update].
    rewrite update_outcome_cases. cbn.
    rewrite decide_False; [done|].
    intros (e & _ & _ & Hocc)%Exists_exists.
    rewrite !occupancy_empty_grid in Hocc. lia.
Qed.

Lemma choice_empty {B} (r : Rng) : choice ([] : list B) r = Raise IndexError.
Proof. reflexivity. Qed.

(** X10.  On a network without nodes, [setup] with at least one
    agent raises [IndexError]: in the random-walk script when the
    initial positions are drawn, in the two routing scripts when the
    first agent draws its destination (in the congestion script after
    the casts of the edges); with no agent the set-up of the
    random-walk script succeeds on any network. *)
Theorem setup_on_a_network_without_nodes_raises_IndexError :
  (∀ (D : Type) (es : list (Edge D)) k rng glob,
     Step6.setup (mkGraph [] es) (S k) rng glob = Raise IndexError) ∧
  (∀ shortest_path es k rng glob,
     Step8.setup shortest_path (mkGraph [] es) (S k) rng glob
     = Raise IndexError) ∧
  (∀ shortest_path es k rng glob,
     Step9c.setup shortest_path (mkGraph [] es) (S k) rng glob
     = mapM Step9c.cast_edge es ≫= λ _, Raise IndexError) ∧
  (∀ (D : Type) (loaded : Graph D) rng glob,
     ∃ w, Step6.setup loaded 0 rng glob = Ok w ∧ agents w = []).
Proof.
  split; [|split; [|split]].
  - reflexivity.
  - reflexivity.
  - intros sp es k rng glob. unfold Step9c.setup. cbn.
    destruct (mapM Step9c.cast_edge es); reflexivity.
  - intros D loaded rng glob. eexists. split; reflexivity.
Qed.

(** ** Loops that run to their end *)

Lemma foldM_total {A S} (P : S → Prop) (f : S → A → result S) (xs : list A) :
  (∀ s x, x ∈ xs → P s → ∃ s', f s x = Ok s' ∧ P s') →
  ∀ s, P s → ∃ s', foldM f s xs = Ok s' ∧ P s'.
Proof.
  induction xs as [|x xs IH]; intros Hf s Hs; cbn; [eauto|].
  destruct (Hf s x (list_elem_of_here _ _) Hs) as (s1 & -> & Hs1). cbn.
  apply IH; [|done]. intros s2 y Hy. by apply Hf, list_elem_of_further.
Qed.

Lemma choice_total {B} (l : list B) (r : Rng) :
  l ≠ [] → ∃ x r', choice l r = Ok (x, r').
Proof.
  intros Hne. unfold choice, randbelow.
  destruct (l !! _) as [x|] eqn:Hx; [eauto|].
  apply lookup_ge_None in Hx. destruct l; [done|]. cbn in Hx.
  pose proof (Nat.mod_upper_bound (stream r (cursor r)) (S (length l))). lia.
Qed.

Lemma choices_total {B} (l : list B) (k : nat) (r : Rng) :
  l ≠ [] →
  ∃ xs r', choices l k r = Ok (xs, r') ∧ length xs = k ∧ ∀ x, x ∈ xs → x ∈ l.
Proof.
  intros Hne. revert r. induction k as [|k IH]; intros r; cbn.
  - exists [], r. split; [done|]. split; [done|]. by intros x ?%elem_of_nil.
  - destruct (choice_total l r Hne) as (x & r1 & Hc). rewrite Hc. cbn.
    destruct (IH r1) as (xs & r2 & -> & Hlen & Hin). cbn.
    exists (x :: xs), r2. split; [done|]. split; [cbn; lia|].
    intros y [->|Hy]%elem_of_cons; [|by apply Hin].
    by apply choice_Ok in Hc as [? _].
Qed.

Lemma run_trace_total {A D} (P : World A D → Prop)
    (step update : World A D → result (World A D)) :
  (∀ w, P w → ∃ w', sim_step step update w = Ok w' ∧ P w') →
  ∀ steps w, P w →
    ∃ ws, run_trace step update steps w = Ok ws ∧ length ws = steps ∧
          ∀ w', w' ∈ ws → P w'.
Proof.
  intros Hstep. induction steps as [|k IH]; intros w Hw; cbn.
  - exists []. split; [done|]. split; [done|]. by intros ? ?%elem_of_nil.
  - destruct (Hstep w Hw) as (w1 & -> & Hw1). cbn.
    destruct (IH w1 Hw1) as (ws & -> & Hlen & Hall). cbn.
    exists (w1 :: ws). split; [done|]. split; [cbn; lia|].
    intros w' [->|Hin]%elem_of_cons; auto.
Qed.

(** Each world of a run comes from the one before it by one tick. *)
Lemma run_trace_consecutive {A D}
    (step update : World A D → result (World A D)) :
  ∀ steps w ws, run_trace step update steps w = Ok ws →
  ∀ k wa wb, (w :: ws) !! k = Some wa → (w :: ws) !! S k = Some wb →
    sim_step step update wa = Ok wb.
Proof.
  induction steps as [|n IH]; intros w ws Hrun k wa wb Ha Hb; cbn in Hrun.
  - injection Hrun as <-. by destruct k.
  - apply bind_Ok in Hrun as (w1 & Hs & Hrun).
    apply bind_Ok in Hrun as (ws1 & Hrun & Hws). injection Hws as <-.
    destruct k as [|k].
    + cbn in Ha, Hb. by simplify_eq.
    + by apply (IH w1 ws1 Hrun k).
Qed.

Section Each.
Context {A D : Type} `{AgentLike A}.
Implicit Types w : World A D.

(** One round of agent steps, seen agent by agent: when the step of
    agent [i] touches no other agent object, every agent is related to
    what it was before the round as its own step relates it. *)
Lemma agents_step_each (step : nat → World A D → result (World A D))
    (I : World A D → Prop) (R : A → A → Prop) w0 w' :
  (∀ i w w1 a, I w → same_network w0 w → step i w = Ok w1 →
     agents w !! i = Some a →
     I w1 ∧ same_network w w1 ∧
     (∀ j, j ≠ i → agents w1 !! j = agents w !! j) ∧
     ∃ a', agents w1 !! i = Some a' ∧ R a a') →
  I w0 → agents_step step w0 = Ok w' →
  I w' ∧ same_network w0 w' ∧
  ∀ i a, agents w0 !! i = Some a → ∃ a', agents w' !! i = Some a' ∧ R a a'.
Proof.
  intros Hstep HI Hrun. unfold agents_step in Hrun.
  pose proof (foldM_seq_invariant
    (λ k w, I w ∧ same_network w0 w ∧
            (∀ j a, (j < k)%nat → agents w0 !! j = Some a →
                    ∃ a', agents w !! j = Some a' ∧ R a a') ∧
            (∀ j, (k ≤ j)%nat → agents w !! j = agents w0 !! j))
    (λ w i, step i w) (length (agents w0)) 0 w0 w') as Hfold.
  cbn beta in Hfold.
  destruct Hfold as (HI' & Hnet & Hdone & _); [| |exact Hrun|].
  - intros i w w1 [_ Hi] (HIw & Hnw & Hlow & Hhigh) Hs.
    assert (is_Some (agents w0 !! i)) as [a Ha]
      by (apply lookup_lt_is_Some; lia).
    assert (agents w !! i = Some a) as Hwa by (rewrite Hhigh; [done|lia]).
    destruct (Hstep i w w1 a HIw Hnw Hs Hwa)
      as (HI1 & Hn1 & Hoth & a' & Ha' & HR).
    split; [done|]. split; [by eapply same_network_trans|]. split.
    + intros j b Hj Hb. destruct (decide (j = i)) as [->|Hne].
      * rewrite Ha in Hb. injection Hb as <-. eauto.
      * rewrite Hoth by done. apply Hlow; [lia|done].
    + intros j Hj. rewrite Hoth by lia. apply Hhigh. lia.
  - split; [done|]. split; [apply same_network_refl|]. split; [|done].
    intros j a Hj. lia.
  - split; [done|]. split; [done|]. intros i a Ha. apply (Hdone i a); [|done].
    apply lookup_lt_Some in Ha. lia.
Qed.

Lemma agents_step_total (step : nat → World A D → result (World A D))
    (I : World A D → Prop) w0 :
  (∀ i w, I w → same_network w0 w → (i < length (agents w))%nat →
     ∃ w1, step i w = Ok w1 ∧ I w1 ∧ same_network w w1) →
  I w0 → ∃ w', agents_step step w0 = Ok w' ∧ I w' ∧ same_network w0 w'.
Proof.
  intros Hstep HI. unfold agents_step.
  destruct (foldM_total (λ w, I w ∧ same_network w0 w) (λ w i, step i w)
              (seq 0 (length (agents w0)))) with (s := w0)
    as (w' & Hrun & HI' & Hnet).
  - intros w i Hi [HIw Hnw]. apply elem_of_seq in Hi.
    destruct (Hstep i w HIw Hnw) as (w1 & Hs & HI1 & Hn1).
    { destruct Hnw as (_ & _ & -> & _). lia. }
    exists w1. split; [done|]. split; [done|]. by eapply same_network_trans.
  - split; [done|apply same_network_refl].
  - eauto.
Qed.
End Each.

(** ** The random walk runs to its end, along the edges *)

Section RandomWalk.
Context {D : Type}.
Import Step6.
Implicit Types w : World Step6.Agent D.

Lemma step6_setup_network (loaded : Graph D) num rng glob w :
  setup loaded num rng glob = Ok w →
  G w = loaded ∧ length (agents w) = num ∧
  ∀ n, n ∈ dom (grid w) ↔ n ∈ g_nodes loaded.
Proof.
  unfold setup. intros Hs.
  apply bind_Ok in Hs as ([ps rng1] & _ & Hs). unfold place_all in Hs.
  apply (foldM_same_network (A:=Agent)) in Hs
    as (HG & _ & Hlen & Hdom & _).
  - cbn in HG, Hlen, Hdom. split; [done|]. split.
    + rewrite Hlen. unfold new_agents. by rewrite length_fmap, length_seq.
    + intros n. rewrite Hdom. apply empty_grid_dom.
  - intros wa i wb Hp. destruct (ps !! i); [|done].
    by eapply place_agent_same_network.
Qed.

Lemma step6_setup_total (loaded : Graph D) num rng glob :
  g_nodes loaded ≠ [] → ∃ w, setup loaded num rng glob = Ok w.
Proof.
  intros Hne. unfold setup.
  destruct (choices_total (g_nodes loaded) num rng Hne)
    as (ps & rng1 & -> & Hlen & Hin). cbn.
  set (w0 := mkWorld loaded _ _ _ _ _ _ _).
  destruct (foldM_total (λ w : World Step6.Agent D, same_network w0 w)
              (λ w i, match ps !! i with
                      | Some p => place_agent i p w
                      | None => Raise IndexError
                      end) (seq 0 (length (agents w0)))) with (s := w0)
    as (w & Hrun & _); [| apply same_network_refl | by exists w].
  intros w i Hi Hnw. apply elem_of_seq in Hi.
  assert (length (agents w0) = num) as Hnum
    by (cbn; unfold new_agents; by rewrite length_fmap, length_seq).
  assert (is_Some (ps !! i)) as [p Hp] by (apply lookup_lt_is_Some; lia).
  rewrite Hp.
  assert (is_Some (agents w !! i)) as [a Ha].
  { apply lookup_lt_is_Some. destruct Hnw as (_ & _ & -> & _). lia. }
  assert (is_Some (grid w !! p)) as [s Hsome].
  { apply elem_of_dom. destruct Hnw as (_ & _ & _ & -> & _).
    apply empty_grid_dom, Hin. by eapply list_elem_of_lookup_2. }
  unfold place_agent, get_agent. rewrite Ha. cbn. rewrite Hsome.
  eexists. split; [reflexivity|].
  eapply same_network_trans; [exact Hnw|].
  eapply (place_agent_same_network i p).
  unfold place_agent, get_agent. rewrite Ha. cbn. by rewrite Hsome.
Qed.

Lemma step6_step_total i w :
  occupancy_ok w → closed_roads (G w) →
  (∀ n, n ∈ dom (grid w) ↔ n ∈ g_nodes (G w)) →
  (i < length (agents w))%nat →
  ∃ w', step i w = Ok w'.
Proof.
  intros Hok Hcl Hdom Hi.
  destruct (lookup_lt_is_Some_2 _ _ Hi) as [self Hself].
  pose proof Hok as (_ & Hfwd & _).
  destruct (Hfwd i self Hself Hi) as (n & s & Hpos & Hs & _).
  cbn in Hpos. injection Hpos as Hpos.
  unfold step, get_agent, neighbors, has_node. rewrite Hself. cbn.
  rewrite bool_decide_eq_true_2
    by (apply Hdom, elem_of_dom; rewrite Hpos; eauto).
  cbn. destruct (successors (G w) (pos self)) as [|x xs] eqn:Hsucc; [eauto|].
  destruct (choice_total (x :: xs) (random w)) as (new_pos & r & Hc); [done|].
  rewrite Hc. cbn.
  apply (move_agent_total (length (agents w)) i); [|done|done|].
  - by apply (placed_ext _ w).
  - cbn. apply Hdom. apply choice_Ok in Hc as [Hin _].
    rewrite <- Hsucc in Hin.
    apply successors_edge in Hin as (e & He & _ & <-). by apply Hcl.
Qed.

Lemma step6_step_effect i w w' self :
  step i w = Ok w' → agents w !! i = Some self →
  (∀ j, j ≠ i → agents w' !! j = agents w !! j) ∧
  ∃ self', agents w' !! i = Some self' ∧
    (pos self' ∈ successors (G w) (pos self) ∨
     (successors (G w) (pos self) = [] ∧ self' = self)).
Proof.
  unfold step, get_agent. intros Hs Hself. rewrite Hself in Hs. cbn in Hs.
  apply bind_Ok in Hs as (nbrs & Hn & Hs).
  unfold neighbors in Hn. destruct (has_node _ _); [|done].
  injection Hn as <-.
  destruct (successors (G w) (pos self)) as [|x xs] eqn:Hsucc.
  - injection Hs as <-. split; [done|]. exists self. auto.
  - apply bind_Ok in Hs as ([new_pos r] & Hc & Hs).
    apply choice_Ok in Hc as [Hin _].
    apply move_agent_Ok in Hs
      as (ag & cur & here & there & Hi & _ & _ & _ & _ & ->).
    cbn in Hi. rewrite Hself in Hi. injection Hi as <-. cbn.
    split.
    + intros j Hj. by rewrite list_lookup_insert_ne.
    + eexists. split.
      * apply list_lookup_insert_eq. by eapply lookup_lt_Some.
      * left. exact Hin.
Qed.

(** X11.  The random-walk simulation runs to its end: on a
    network with at least one node whose edges join nodes of the
    network, a run with at least one agent raises nothing and yields the
    world after set-up and one world per tick, all on the loaded network
    and with all agents. *)
Theorem random_walk_never_raises (loaded : Graph D) k steps rng glob :
  g_nodes loaded ≠ [] → closed_roads loaded →
  ∃ ws, run loaded (S k) steps rng glob = Ok ws ∧
        length ws = S steps ∧
        ∀ w, w ∈ ws → G w = loaded ∧ length (agents w) = S k.
Proof.
  intros Hne Hcl. unfold run.
  destruct (step6_setup_total loaded (S k) rng glob Hne) as (w & Hs).
  rewrite Hs. cbn.
  pose proof (step6_setup_network _ _ _ _ _ Hs) as (HG & Hlen & Hdom).
  pose proof (step6_setup_occupancy_ok _ _ _ _ _ Hs) as Hok.
  assert (update w = Ok w) as ->.
  { unfold update, get_agent. destruct (agents w); [done|reflexivity]. }
  cbn.
  destruct (run_trace_total
    (λ w : World Step6.Agent D,
       occupancy_ok w ∧ G w = loaded ∧ length (agents w) = S k ∧
       ∀ n, n ∈ dom (grid w) ↔ n ∈ g_nodes loaded)
    model_step update) with (steps := steps) (w := w)
    as (ws & -> & Hlws & Hall); [|done|].
  - clear dependent w. intros w (Hok & HG & Hlen & Hdom).
    unfold sim_step.
    destruct (agents_step_total step
      (λ w : World Step6.Agent D, occupancy_ok w) (set_t (S (t w)) w))
      as (w1 & Hstep & Hok1 & Hnet).
    + intros i wa Hoka Hna Hi.
      destruct Hna as (HGa & _ & Hlena & Hdoma & _). cbn in HGa, Hdoma.
      destruct (step6_step_total i wa) as (wb & Hb); try done.
      * rewrite HGa, HG. exact Hcl.
      * intros n. rewrite Hdoma, HGa, HG. apply Hdom.
      * exists wb. split; [done|]. split.
        -- pose proof (step6_placed _ _ _ _ Hb Hi Hoka) as Hpl.
           apply step6_same_network in Hb as (_ & _ & Hl & _).
           unfold occupancy_ok. by rewrite Hl.
        -- by eapply step6_same_network.
    + by apply (occupancy_ok_ext w).
    + unfold model_step. rewrite Hstep. cbn.
      destruct Hnet as (HG1 & _ & Hlen1 & Hdom1 & _).
      cbn in HG1, Hlen1, Hdom1.
      exists w1. split.
      * unfold update, get_agent.
        destruct (agents w1); [cbn in Hlen1; lia|reflexivity].
      * split; [done|]. split; [congruence|]. split; [congruence|].
        intros n. rewrite Hdom1. apply Hdom.
  - cbn. exists (w :: ws). split; [done|]. split; [cbn; lia|].
    intros w' [->|Hin]%elem_of_cons; [done|].
    by destruct (Hall w' Hin) as (_ & ? & ? & _).
Qed.

(** X12.  Random walkers move along edges: between two
    consecutive worlds of a run of the random-walk script every agent
    either stands on a successor of the node it stood on, or that node
    has no successor and the agent is unchanged. *)
Theorem random_walkers_move_along_edges (loaded : Graph D)
    num steps rng glob ws k w w' i self self' :
  run loaded num steps rng glob = Ok ws →
  ws !! k = Some w → ws !! S k = Some w' →
  agents w !! i = Some self → agents w' !! i = Some self' →
  pos self' ∈ successors loaded (pos self) ∨
  (successors loaded (pos self) = [] ∧ self' = self).
Proof.
  unfold run. intros Hrun Hk HSk Hself Hself'.
  apply bind_Ok in Hrun as (w0 & Hs & Hrun).
  apply bind_Ok in Hrun as (w1 & Hu & Hrun).
  apply bind_Ok in Hrun as (tr & Htr & Hrun). injection Hrun as <-.
  assert (w1 = w0) as -> by (unfold update in Hu; by inv_result).
  pose proof (step6_setup_network _ _ _ _ _ Hs) as (HG & _).
  assert (∀ wa, wa ∈ w0 :: tr → G wa = loaded) as HGall.
  { intros wa [->|Hin]%elem_of_cons; [done|].
    eapply (run_trace_invariant (λ w : World Step6.Agent D, G w = loaded));
      [|exact HG|exact Htr|exact Hin].
    intros wb wc HGb Hstep. unfold sim_step in Hstep.
    apply bind_Ok in Hstep as (wd & Hms & Hupd).
    assert (wc = wd) as -> by (unfold update in Hupd; by inv_result).
    apply (agents_step_same_network step) in Hms
      as (HGd & _); [|apply step6_same_network].
    cbn in HGd. congruence. }
  pose proof (run_trace_consecutive _ _ _ _ _ Htr k w w' Hk HSk) as Hstep.
  unfold sim_step in Hstep.
  apply bind_Ok in Hstep as (wd & Hms & Hupd).
  assert (w' = wd) as -> by (unfold update in Hupd; by inv_result).
  pose proof (HGall w (list_elem_of_lookup_2 _ _ _ Hk)) as HGw.
  destruct (agents_step_each step (λ _, True)
    (λ a a', pos a' ∈ successors loaded (pos a) ∨
             (successors loaded (pos a) = [] ∧ a' = a))
    (set_t (S (t w)) w) wd) as (_ & _ & Hrel); [|done|exact Hms|].
  - intros j wa wb a _ Hna Hb Ha.
    destruct Hna as (HGa & _). cbn in HGa.
    split; [done|]. split; [by eapply step6_same_network|].
    destruct (step6_step_effect j wa wb a Hb Ha) as (Hoth & a' & Ha' & Hrel).
    split; [done|]. exists a'. split; [done|].
    by rewrite HGa, HGw in Hrel.
  - destruct (Hrel i self Hself) as (a' & Ha' & HR).
    rewrite Hself' in Ha'. by injection Ha' as <-.
Qed.
End RandomWalk.

Lemma random_walk_never_raises_witness :
  ∃ ws, Step6.run ring 2 3 scattered idle = Ok ws ∧
        length ws = 4%nat ∧
        ∀ w, w ∈ ws → G w = ring ∧ length (agents w) = 2%nat.
Proof.
  refine (random_walk_never_raises ring 1 3 scattered idle _ _).
  - discriminate.
  - apply closed_roads_check. vm_compute. reflexivity.
Defined.

Lemma random_walkers_move_along_edges_witness :
  ∃ ws w w' self self',
    Step6.run ring 2 3 scattered idle = Ok ws ∧
    ws !! 1%nat = Some w ∧ ws !! 2%nat = Some w' ∧
    agents w !! 0%nat = Some self ∧ agents w' !! 0%nat = Some self' ∧
    (Step6.pos self' ∈ successors ring (Step6.pos self) ∨
     (successors ring (Step6.pos self) = [] ∧ self' = self)).
Proof.
  eexists _, _, _, _, _.
  split; [vm_compute; reflexivity|].
  split; [reflexivity|]. split; [reflexivity|].
  split; [reflexivity|]. split; [reflexivity|].
  refine (random_walkers_move_along_edges ring 2 3 scattered idle _ 1 _ _ 0 _ _
            _ _ _ _ _).
  - vm_compute. reflexivity.
  - reflexivity.
  - reflexivity.
  - reflexivity.
  - reflexivity.
Defined.

(** ** Routing agents, step by step *)

Section RoutingSteps.
Context {D : Type}.
Variable shortest_path : Graph D → (D → Q) → node → node → result (list node).
Variable weight : D → Q.
Implicit Types w : World Agent D.

(** What one route computation does to the agent that asks for it. *)
Lemma calculate_new_path_cases i w w' a :
  calculate_new_path shortest_path weight i w = Ok w' →
  agents w !! i = Some a →
  ∃ a' w1,
    w' = set_agent i a' w1 ∧ (w1 = w ∨ ∃ r, w1 = set_random r w) ∧
    id a' = id a ∧ pos a' = pos a ∧
    (path a' = [] ∨
     ∃ s x, pos a = Some s ∧
            shortest_path (G w) weight s (destination a) = Ok (x :: path a') ∧
            destination a' = destination a) ∧
    (∀ s x r, pos a = Some s →
       shortest_path (G w) weight s (destination a) = Ok (x :: r) →
       path a' = r ∧ destination a' = destination a).
Proof.
  unfold calculate_new_path, get_agent. intros Hc Ha. rewrite Ha in Hc.
  cbn in Hc. destruct (pos a) as [s|] eqn:Hpos.
  2:{ injection Hc as <-. exists (set_path [] a), w.
      split; [done|]. split; [by left|]. cbn.
      split; [done|]. split; [done|]. split; [by left|]. by intros ? ? ? [=]. }
  destruct (shortest_path _ _ _ _) as [[|x rest]|e] eqn:Hsp; [done| |].
  { injection Hc as <-. exists (set_path rest a), w.
    split; [done|]. split; [by left|]. cbn.
    split; [done|]. split; [done|]. split.
    - right. exists s, x. auto.
    - intros s' x' r [= <-]. rewrite Hsp. by intros [= _ <-]. }
  assert (∃ d w1, random_node w = Ok (d, w1) ∧
            w' = set_agent i (set_path [] (set_destination d a)) w1)
    as (d & w1 & Hr & ->).
  { destruct e; try done;
      apply bind_Ok in Hc as ([d w1] & Hr & Hc); inv_result; eauto. }
  apply random_node_Ok in Hr as (r & _ & -> & _).
  eexists _, _. split; [reflexivity|]. split; [right; eauto|]. cbn.
  split; [done|]. split; [done|]. split; [by left|].
  intros s' x' r' [= <-]. by rewrite Hsp.
Qed.

Lemma pop_and_move_effect i w w' a :
  pop_and_move i w = Ok w' → agents w !! i = Some a →
  ∃ n rest,
    path a = n :: rest ∧ G w' = G w ∧
    agents w' = <[i:=mkAgent (id a) (Some n) (destination a) rest]> (agents w).
Proof.
  unfold pop_and_move, get_agent. intros Hc Ha. rewrite Ha in Hc.
  cbn in Hc. destruct (path a) as [|n rest] eqn:Hpath; [done|].
  apply move_agent_Ok in Hc
    as (ag & cur & here & there & Hi & _ & _ & _ & _ & ->).
  cbn in Hi. rewrite list_lookup_insert_eq in Hi
    by (by eapply lookup_lt_Some).
  injection Hi as <-. exists n, rest. split; [done|]. split; [done|].
  cbn. by rewrite list_insert_insert_eq.
Qed.

Lemma set_agent_lookup i j (a : Agent) w :
  agents (set_agent i a w) !! j
  = if decide (j = i) then (if decide (i < length (agents w))%nat
                            then Some a else None)
    else agents w !! j.
Proof.
  cbn. destruct (decide (j = i)) as [->|Hne].
  - destruct (decide _) as [Hlt|Hge].
    + by apply list_lookup_insert_eq.
    + apply lookup_ge_None. rewrite length_insert. lia.
  - by apply list_lookup_insert_ne.
Qed.

(** The step of an agent with a stored route: the agent moves to the
    head of the route and keeps the rest; nobody else changes. *)
Lemma follow_path_others i w w' a :
  follow_path shortest_path weight i w = Ok w' → agents w !! i = Some a →
  G w' = G w ∧
  (∀ j, j ≠ i → agents w' !! j = agents w !! j) ∧
  ∃ a', agents w' !! i = Some a' ∧
        ∀ n rest, path a = n :: rest →
                  a' = mkAgent (id a) (Some n) (destination a) rest.
Proof.
  intros Hf Ha. pose proof (lookup_lt_Some _ _ _ Ha) as Hlt.
  unfold follow_path, get_agent in Hf. rewrite Ha in Hf. cbn in Hf.
  destruct (path a) as [|hd tl] eqn:Hpath.
  - apply bind_Ok in Hf as ([d w1] & Hr & Hf).
    apply random_node_Ok in Hr as (r & _ & -> & _).
    apply bind_Ok in Hf as (w2 & Hcalc & Hf).
    eapply calculate_new_path_cases in Hcalc as (a' & w1 & -> & Hw1 & _);
      [|cbn; by apply list_lookup_insert_eq].
    assert (G w1 = G w ∧ agents w1 = <[i:=set_destination d a]> (agents w))
      as [HG Hags] by (destruct Hw1 as [->|[r' ->]]; done).
    apply bind_Ok in Hf as (self' & Hself'%get_agent_Ok & Hf).
    cbn in Hself'. rewrite Hags, list_insert_insert_eq in Hself'.
    rewrite list_lookup_insert_eq in Hself' by done.
    injection Hself' as <-.
    destruct (path a') as [|hd' tl'] eqn:Hpath'.
    + injection Hf as <-. cbn. rewrite Hags, list_insert_insert_eq.
      split; [done|]. split.
      * intros j Hj. by rewrite list_lookup_insert_ne.
      * exists a'. split; [by apply list_lookup_insert_eq|]. done.
    + eapply pop_and_move_effect in Hf as (n & rest & _ & HG' & ->);
        [|cbn; rewrite Hags, list_insert_insert_eq;
          by apply list_lookup_insert_eq].
      cbn in HG' |- *. rewrite Hags, !list_insert_insert_eq.
      split; [congruence|]. split.
      * intros j Hj. by rewrite list_lookup_insert_ne.
      * eexists. split; [by apply list_lookup_insert_eq|]. done.
  - eapply pop_and_move_effect in Hf as (n & rest & Hp & HG' & ->);
      [|exact Ha].
    split; [done|]. split.
    + intros j Hj. by rewrite list_lookup_insert_ne.
    + eexists. split; [by apply list_lookup_insert_eq|].
      intros n' rest' Heq. rewrite Hp in Hpath. by simplify_eq.
Qed.
End RoutingSteps.

(** ** Following a stored route *)

Section StoredRoute.
Variable shortest_path :
  Graph Step8.EdgeData → (Step8.EdgeData → Q) → node → node →
  result (list node).
Implicit Types w : Step8.World.

Lemma closure_tick_stored_route w w' i a :
  sim_step (Step8.model_step shortest_path) Step8.update w = Ok w' →
  agents w !! i = Some a →
  ∃ a', agents w' !! i = Some a' ∧
        ∀ n rest, path a = n :: rest →
                  a' = mkAgent (id a) (Some n) (destination a) rest.
Proof.
  unfold sim_step. intros Hs Ha.
  apply bind_Ok in Hs as (w1 & Hms & Hu).
  assert (w' = w1) as ->
    by (unfold Step8.update, report in Hu; by inv_result).
  destruct (agents_step_each (Step8.step shortest_path) (λ _, True)
    (λ a a', ∀ n rest, path a = n :: rest →
                       a' = mkAgent (id a) (Some n) (destination a) rest)
    (set_t (S (t w)) w) w1) as (_ & _ & Hrel); [|done|exact Hms|].
  - intros j wa wb b _ _ Hb Hj. split; [done|].
    split; [by eapply follow_path_same_network|].
    by destruct (follow_path_others _ _ _ _ _ _ Hb Hj) as (_ & ? & ?).
  - by apply Hrel.
Qed.

(** X13.  In the closure script an agent walks its stored route one
    node per tick: after [k] ticks, for [k] at least 1 and at most the
    length of the route, the agent stands on the [k]-th node of the route
    and keeps the rest of it, with the same identifier and destination
    (so after as many ticks as the route is long it stands on the last
    node of the route with an empty route). *)
Theorem agent_walks_its_route k : ∀ w ws i a,
  run_trace (Step8.model_step shortest_path) Step8.update k w = Ok ws →
  agents w !! i = Some a →
  (0 < k ≤ length (path a))%nat →
  ∃ w' a',
    last ws = Some w' ∧ agents w' !! i = Some a' ∧
    id a' = id a ∧ destination a' = destination a ∧
    pos a' = path a !! (k - 1)%nat ∧ path a' = drop k (path a).
Proof.
  induction k as [|k IH]; intros w ws i a Hrun Ha Hk; [lia|].
  cbn in Hrun. apply bind_Ok in Hrun as (w1 & Hs & Hrun).
  apply bind_Ok in Hrun as (ws1 & Hrun & Hws). injection Hws as <-.
  destruct (path a) as [|n rest] eqn:Hpath; [cbn in Hk; lia|].
  destruct (closure_tick_stored_route _ _ _ _ Hs Ha) as (a1 & Ha1 & Heq).
  specialize (Heq n rest Hpath). subst a1.
  destruct k as [|k].
  - cbn in Hrun. injection Hrun as <-. exists w1. eexists.
    split; [done|]. split; [exact Ha1|]. done.
  - destruct (IH w1 ws1 i _ Hrun Ha1) as (w' & a' & Hl & Ha' & Hid & Hd & Hp & Hpa).
    { cbn in Hk |- *. lia. }
    exists w', a'. cbn in Hid, Hd, Hp, Hpa.
    split.
    { destruct ws1 as [|x xs]; [done|]. exact Hl. }
    split; [done|]. split; [done|]. split; [done|]. split; [|done].
    rewrite Hp. cbn. by rewrite Nat.sub_0_r.
Qed.
End StoredRoute.

Section Recomputation.
Import Step9c.
Variable shortest_path :
  Graph EdgeData → (EdgeData → Q) → node → node → result (list node).
Implicit Types w : World.

(** X14.  In the congestion script routes are recomputed on the
    ticks that are multiples of [RECALCULATE_PATH_STEPS] and on no other
    tick: on any other tick an agent with a stored route moves to the
    head of that route and keeps the rest, whatever the travel times and
    the router say; on a multiple the stored route is discarded, and an
    agent for which the router returns a route of two nodes or more moves
    to the second node of the new route and keeps what follows. *)
Theorem routes_are_recomputed_every_fifth_tick_only w w' i a :
  sim_step (model_step shortest_path) update w = Ok w' →
  agents w !! i = Some a →
  ((S (t w) `mod` RECALCULATE_PATH_STEPS ≠ 0)%nat →
   ∀ n rest, path a = n :: rest →
     agents w' !! i = Some (mkAgent (id a) (Some n) (destination a) rest)) ∧
  ((S (t w) `mod` RECALCULATE_PATH_STEPS = 0)%nat →
   ∀ s x n rest, pos a = Some s →
     shortest_path (G w) travel_time s (destination a)
     = Ok (x :: n :: rest) →
     agents w' !! i = Some (mkAgent (id a) (Some n) (destination a) rest)).
Proof.
  unfold sim_step. intros Hs Ha.
  apply bind_Ok in Hs as (w1 & Hms & Hu).
  apply update_Ok_edges in Hu as ->. cbn.
  destruct (agents_step_each (step shortest_path) (λ _, True)
    (λ a a',
       ((S (t w) `mod` RECALCULATE_PATH_STEPS ≠ 0)%nat →
        ∀ n rest, path a = n :: rest →
          a' = mkAgent (id a) (Some n) (destination a) rest) ∧
       ((S (t w) `mod` RECALCULATE_PATH_STEPS = 0)%nat →
        ∀ s x n rest, pos a = Some s →
          shortest_path (G w) travel_time s (destination a)
          = Ok (x :: n :: rest) →
          a' = mkAgent (id a) (Some n) (destination a) rest))
    (set_t (S (t w)) w) w1) as (_ & _ & Hrel); [|done|exact Hms|].
  - intros j wa wb b _ Hnet Hb Hj.
    destruct Hnet as (HG & _ & _ & _ & Ht & _). cbn in HG, Ht.
    split; [done|]. split; [by eapply step_same_network|].
    unfold step in Hb. rewrite Ht in Hb.
    apply bind_Ok in Hb as (wc & Hcalc & Hf).
    destruct (decide _) as [Hmod|Hmod].
    + eapply calculate_new_path_cases in Hcalc
        as (b1 & wd & -> & Hwd & Hid & Hpos & _ & Hroute); [|exact Hj].
      pose proof (lookup_lt_Some _ _ _ Hj) as Hlt.
      assert (agents wd = agents wa ∧ G wd = G wa) as [Hags HGd]
        by (destruct Hwd as [->|[r ->]]; done).
      eapply follow_path_others in Hf as (_ & Hoth & b' & Hb' & Heq);
        [|cbn; rewrite Hags; by apply list_lookup_insert_eq].
      split.
      { intros j' Hj'. rewrite Hoth by done. cbn.
        rewrite Hags. by apply list_lookup_insert_ne. }
      exists b'. split; [done|]. split; [done|].
      intros _ s x n rest Hs Hsp. rewrite <- HG in Hsp.
      destruct (Hroute s x (n :: rest) Hs Hsp) as [Hp Hd].
      rewrite (Heq n rest) by done. by rewrite Hid, Hd.
    + injection Hcalc as <-.
      destruct (follow_path_others _ _ _ _ _ _ Hf Hj) as (_ & Hoth & b' & Hb' & Heq).
      split; [done|]. exists b'. split; [done|]. split; [|done].
      intros _. exact Heq.
  - destruct (Hrel i a Ha) as (a' & Ha' & Hoff & Hon). split.
    + intros Hmod n rest Hp. by rewrite Ha', (Hoff Hmod n rest Hp).
    + intros Hmod s x n rest Hs Hsp.
      by rewrite Ha', (Hon Hmod s x n rest Hs Hsp).
Qed.
End Recomputation.

Lemma agent_walks_its_route_witness :
  ∃ ws,
    run_trace (Step8.model_step router) Step8.update 2 commuter = Ok ws ∧
    ∃ w' a',
      last ws = Some w' ∧ agents w' !! 0%nat = Some a' ∧
      id a' = 1%nat ∧ destination a' = 3 ∧ pos a' = Some 3 ∧ path a' = [].
Proof.
  eexists. split; [vm_compute; reflexivity|].
  refine (agent_walks_its_route router 2 commuter _ 0%nat
            (mkAgent 1 (Some 1) 3 [2; 3]) _ eq_refl _).
  - vm_compute. reflexivity.
  - cbn. lia.
Defined.

Lemma routes_are_recomputed_every_fifth_tick_only_witness :
  ∃ w1 w2,
    sim_step (Step9c.model_step router) Step9c.update
      (lone_car 2 [2] 0 counting) = Ok w1 ∧
    agents w1 !! 0%nat = Some (mkAgent 1 (Some 2) 2 []) ∧
    sim_step (Step9c.model_step router) Step9c.update
      (lone_car 2 [3] 4 counting) = Ok w2 ∧
    agents w2 !! 0%nat = Some (mkAgent 1 (Some 2) 2 []).
Proof.
  eexists _, _.
  split; [vm_compute; reflexivity|]. split.
  { refine (proj1 (routes_are_recomputed_every_fifth_tick_only router
                     (lone_car 2 [2] 0 counting) _ 0%nat _ _ eq_refl)
              _ 2 [] eq_refl).
    - vm_compute. reflexivity.
    - vm_compute. discriminate. }
  split; [vm_compute; reflexivity|].
  refine (proj2 (routes_are_recomputed_every_fifth_tick_only router
                   (lone_car 2 [3] 4 counting) _ 0%nat _ _ eq_refl)
            _ 1 1 2 [] eq_refl _).
  - vm_compute. reflexivity.
  - vm_compute. reflexivity.
  - vm_compute. reflexivity.
Defined.

(** ** Routes that stay on the network *)

Lemma adjacent_roads {D D'} (g : Graph D) (g' : Graph D')
    (weight : D → Q) (weight' : D' → Q) u v :
  roads g' = roads g → adjacent g weight u v → adjacent g' weight' u v.
Proof.
  intros Hr. rewrite !adjacent_iff.
  intros (e & He & Hu & Hv).
  assert ((u, v) ∈ roads g') as Hin.
  { rewrite Hr. unfold roads. apply list_elem_of_fmap. exists e.
    by rewrite Hu, Hv. }
  unfold roads in Hin.
  apply list_elem_of_fmap in Hin as (e' & Heq & He'). injection Heq as -> ->.
  eauto.
Qed.

Lemma adjacent_in_roads {D} (g : Graph D) (weight : D → Q) u v :
  adjacent g weight u v ↔ (u, v) ∈ roads g.
Proof.
  rewrite adjacent_iff. unfold roads. rewrite list_elem_of_fmap. split.
  - intros (e & He & <- & <-). eauto.
  - intros (e & [= -> ->] & He). eauto.
Qed.

Lemma chain_roads {D D'} (g : Graph D) (g' : Graph D')
    (weight : D → Q) (weight' : D' → Q) p :
  roads g' = roads g → chain g weight p → chain g' weight' p.
Proof.
  intros Hr. induction p as [|u [|v p] IH]; [done..|].
  intros [Hadj Hc]. split; [by eapply adjacent_roads|by apply IH].
Qed.

Section RoutedSteps.
Context {D : Type}.
Variable shortest_path : Graph D → (D → Q) → node → node → result (list node).
Variable weight : D → Q.
Implicit Types w : World Agent D.

Lemma routed_insert k i a' w w' :
  G w' = G w → agents w' = <[i:=a']> (agents w) → routed weight k w →
  ((i < k)%nat →
   ∃ s, pos a' = Some s ∧ chain (G w) weight (s :: path a') ∧
        ∀ n, n ∈ path a' → n ∈ g_nodes (G w)) →
  routed weight k w'.
Proof.
  intros HG Hags Hr Hnew j b Hb Hj. rewrite HG. rewrite Hags in Hb.
  destruct (decide (j = i)) as [->|Hne].
  - apply list_lookup_insert_Some in Hb as [(_ & <- & _)|[? _]]; [|done].
    by apply Hnew.
  - rewrite list_lookup_insert_ne in Hb by done. by apply (Hr j).
Qed.

Lemma routed_weaken k k' w :
  (k' ≤ k)%nat → routed weight k w → routed weight k' w.
Proof. intros Hle Hr j b Hb Hj. apply (Hr j b Hb). lia. Qed.

Lemma calculate_new_path_routed k k' i w w' a :
  (∀ s t, router_safe (G w) weight s t (shortest_path (G w) weight s t)) →
  calculate_new_path shortest_path weight i w = Ok w' →
  agents w !! i = Some a → is_Some (pos a) →
  (∀ j, (j < k')%nat → (j < k)%nat ∨ j = i) →
  routed weight k w → routed weight k' w'.
Proof.
  intros Hsafe Hc Ha [s Hs] Hk Hr.
  eapply calculate_new_path_cases in Hc
    as (a' & w1 & -> & Hw1 & _ & Hpos & Hroute & _); [|exact Ha].
  assert (G w1 = G w ∧ agents w1 = agents w) as [HG Hags]
    by (destruct Hw1 as [->|[r ->]]; done).
  intros j b Hb Hj. cbn in Hb |- *. rewrite HG. rewrite Hags in Hb.
  destruct (decide (j = i)) as [->|Hne].
  - apply list_lookup_insert_Some in Hb as [(_ & <- & _)|[? _]]; [|done].
    exists s. split; [congruence|].
    destruct Hroute as [->|(s' & x & Hs' & Hsp & _)].
    + split; [done|]. by intros n ?%elem_of_nil.
    + rewrite Hs in Hs'. injection Hs' as <-.
      pose proof (Hsafe s (destination a)) as Hw. rewrite Hsp in Hw.
      destruct Hw as (Hh & _ & Hch & Hin). cbn in Hh. injection Hh as ->.
      split; [done|]. intros n Hn. by apply Hin, list_elem_of_further.
  - rewrite list_lookup_insert_ne in Hb by done.
    destruct (Hk j Hj) as [Hlt|?]; [|done]. by apply (Hr j).
Qed.

Lemma pop_and_move_routed k i w w' a :
  pop_and_move i w = Ok w' → agents w !! i = Some a → (i < k)%nat →
  routed weight k w →
  routed weight k w' ∧
  ∃ s n a', pos a = Some s ∧ agents w' !! i = Some a' ∧ pos a' = Some n ∧
            adjacent (G w) weight s n.
Proof.
  intros Hp Ha Hi Hr.
  pose proof (lookup_lt_Some _ _ _ Ha) as Hlt.
  destruct (Hr i a Ha Hi) as (s & Hs & Hch & Hin).
  eapply pop_and_move_effect in Hp as (n & rest & Hpath & HG & Hags);
    [|exact Ha].
  rewrite Hpath in Hch, Hin. destruct Hch as [Hadj Hch].
  split.
  - eapply routed_insert; [exact HG|exact Hags|exact Hr|].
    intros _. exists n. cbn. split; [done|]. split; [done|].
    intros m Hm. by apply Hin, list_elem_of_further.
  - exists s, n. eexists. split; [done|]. rewrite Hags.
    split; [by apply list_lookup_insert_eq|]. done.
Qed.

Lemma follow_path_routed k i w w' a :
  (∀ s t, router_safe (G w) weight s t (shortest_path (G w) weight s t)) →
  follow_path shortest_path weight i w = Ok w' →
  agents w !! i = Some a → (i < k)%nat → routed weight k w →
  routed weight k w' ∧
  ∃ a', agents w' !! i = Some a' ∧
        (pos a' = pos a ∨
         ∃ s n, pos a = Some s ∧ pos a' = Some n ∧
                adjacent (G w) weight s n).
Proof.
  intros Hsafe Hf Ha Hi Hr.
  pose proof (lookup_lt_Some _ _ _ Ha) as Hlt.
  destruct (Hr i a Ha Hi) as (s & Hs & Hch & Hin).
  unfold follow_path, get_agent in Hf. rewrite Ha in Hf. cbn in Hf.
  destruct (path a) as [|hd tl] eqn:Hpath.
  - apply bind_Ok in Hf as ([d w1] & Hrn & Hf).
    apply random_node_Ok in Hrn as (r & _ & -> & _).
    apply bind_Ok in Hf as (w2 & Hcalc & Hf).
    set (w1 := set_agent i (set_destination d a) (set_random r w)) in *.
    assert (routed weight k w1) as Hr1.
    { eapply (routed_insert k i (set_destination d a) w w1);
        [done|done|exact Hr|].
      intros _. exists s. cbn. rewrite Hpath. split; [done|].
      split; [done|]. by intros n ?%elem_of_nil. }
    assert (agents w1 !! i = Some (set_destination d a)) as Ha1
      by (cbn; by apply list_lookup_insert_eq).
    assert (routed weight k w2) as Hr2.
    { apply (calculate_new_path_routed k k i w1 w2 (set_destination d a)
               Hsafe Hcalc Ha1); [|auto|exact Hr1].
      cbn. rewrite Hs. eauto. }
    pose proof Hcalc as Hcases.
    eapply calculate_new_path_cases in Hcases
      as (a2 & w1' & Hw2 & Hw1' & _ & Hpos2 & _); [|exact Ha1].
    assert (G w2 = G w ∧ agents w2 = <[i:=a2]> (agents w)) as [HG2 Hags2].
    { rewrite Hw2. cbn.
      destruct Hw1' as [->|[r' ->]]; cbn;
        by rewrite list_insert_insert_eq. }
    assert (agents w2 !! i = Some a2) as Ha2
      by (rewrite Hags2; by apply list_lookup_insert_eq).
    apply bind_Ok in Hf as (self' & Hself'%get_agent_Ok & Hf).
    rewrite Ha2 in Hself'. injection Hself' as <-.
    destruct (path a2) as [|hd' tl'] eqn:Hpath2.
    + injection Hf as <-. split; [done|]. exists a2. split; [done|].
      left. exact Hpos2.
    + destruct (pop_and_move_routed k i w2 w' a2 Hf Ha2 Hi Hr2)
        as (Hr' & s' & n & a' & Hs' & Ha' & Hn & Hadj).
      split; [done|]. exists a'. split; [done|]. right.
      exists s, n. assert (pos a2 = Some s) as Hs2 by (rewrite Hpos2; exact Hs).
      rewrite Hs2 in Hs'. injection Hs' as <-.
      split; [done|]. split; [done|]. by rewrite <- HG2.
  - assert (path a = hd :: tl) as Hp by done.
    destruct (pop_and_move_routed k i w w' a Hf Ha Hi Hr)
      as (Hr' & s' & n & a' & Hs' & Ha' & Hn & Hadj).
    split; [done|]. exists a'. split; [done|]. right. eauto.
Qed.

(** *** Nothing raises *)

Lemma calculate_new_path_total i w a :
  (∀ s t, router_safe (G w) weight s t (shortest_path (G w) weight s t)) →
  graph_nodes w ≠ [] → agents w !! i = Some a →
  ∃ w', calculate_new_path shortest_path weight i w = Ok w'.
Proof.
  intros Hsafe Hne Ha. unfold calculate_new_path, get_agent.
  rewrite Ha. cbn. destruct (pos a) as [s|]; [|eauto].
  pose proof (Hsafe s (destination a)) as Hw.
  assert (∃ d w1, random_node w = Ok (d, w1)) as (d & w1 & Hrn).
  { unfold random_node.
    destruct (choice_total (graph_nodes w) (random w) Hne) as (d & r & ->).
    cbn. eauto. }
  destruct (shortest_path _ _ _ _) as [[|x rest]|e].
  - by destruct Hw as [? _].
  - eauto.
  - destruct e; try done; rewrite Hrn; cbn; eauto.
Qed.

Lemma pop_and_move_total k i w a n rest :
  placed k w → (i < k)%nat → agents w !! i = Some a →
  path a = n :: rest → n ∈ dom (grid w) →
  ∃ w', pop_and_move i w = Ok w'.
Proof.
  intros Hpl Hi Ha Hpath Hn. unfold pop_and_move, get_agent.
  rewrite Ha. cbn. rewrite Hpath.
  apply (move_agent_total k); [|done| |done].
  - by eapply placed_set_agent.
  - cbn. rewrite length_insert. by eapply lookup_lt_Some.
Qed.

Lemma follow_path_total k i w :
  (∀ s t, router_safe (G w) weight s t (shortest_path (G w) weight s t)) →
  graph_nodes w ≠ [] →
  (∀ n, n ∈ g_nodes (G w) → n ∈ dom (grid w)) →
  placed k w → routed weight k w →
  (i < k)%nat → (i < length (agents w))%nat →
  ∃ w', follow_path shortest_path weight i w = Ok w'.
Proof.
  intros Hsafe Hne Hdom Hpl Hr Hi Hlt.
  destruct (lookup_lt_is_Some_2 _ _ Hlt) as [a Ha].
  destruct (Hr i a Ha Hi) as (s & Hs & Hch & Hin).
  unfold follow_path, get_agent. rewrite Ha. cbn.
  destruct (path a) as [|hd tl] eqn:Hpath.
  - destruct (choice_total (graph_nodes w) (random w) Hne) as (d & r & Hc).
    unfold random_node. rewrite Hc. cbn.
    set (w1 := set_agent i (set_destination d a) (set_random r w)).
    assert (agents w1 !! i = Some (set_destination d a)) as Ha1
      by (cbn; by apply list_lookup_insert_eq).
    destruct (calculate_new_path_total i w1 _ Hsafe Hne Ha1) as (w2 & Hcalc).
    rewrite Hcalc. cbn.
    assert (placed k w1) as Hpl1.
    { apply (placed_set_agent k i a); [done|done|done|].
      by apply (placed_ext k w). }
    assert (routed weight k w1) as Hr1.
    { eapply (routed_insert k i (set_destination d a) w w1);
        [done|done|exact Hr|].
      intros _. exists s. cbn. rewrite Hpath. split; [done|].
      split; [done|]. by intros n ?%elem_of_nil. }
    assert (routed weight k w2) as Hr2.
    { apply (calculate_new_path_routed k k i w1 w2 (set_destination d a)
               Hsafe Hcalc Ha1); [|auto|exact Hr1].
      cbn. rewrite Hs. eauto. }
    pose proof (calculate_new_path_placed _ _ _ _ _ _ Hcalc Hpl1) as Hpl2.
    pose proof (calculate_new_path_same_network _ _ _ _ _ Hcalc)
      as (HG2 & _ & Hlen2 & Hdom2 & _).
    cbn in HG2, Hlen2, Hdom2. rewrite length_insert in Hlen2.
    destruct (lookup_lt_is_Some_2 (agents w2) i) as [a2 Ha2]; [lia|].
    unfold get_agent. rewrite Ha2. cbn.
    destruct (path a2) as [|hd' tl'] eqn:Hpath2; [eauto|].
    apply (pop_and_move_total k i w2 a2 hd' tl'); try done.
    destruct (Hr2 i a2 Ha2 Hi) as (s2 & _ & _ & Hin2).
    rewrite Hdom2. apply Hdom. rewrite <- HG2. apply Hin2.
    rewrite Hpath2. apply list_elem_of_here.
  - apply (pop_and_move_total k i w a hd tl); try done.
    apply Hdom, Hin, list_elem_of_here.
Qed.
End RoutedSteps.

Lemma foldM_seq_total {St} (P : nat → St → Prop) (f : St → nat → result St) :
  ∀ len start s,
    (∀ i s, (start ≤ i < start + len)%nat → P i s → ∃ s', f s i = Ok s') →
    (∀ i s s', (start ≤ i < start + len)%nat → P i s → f s i = Ok s' →
               P (S i) s') →
    P start s →
    ∃ s', foldM f s (seq start len) = Ok s' ∧ P (start + len)%nat s'.
Proof.
  induction len as [|len IH]; intros start s Htot Hinv Hs; cbn.
  - exists s. by rewrite Nat.add_0_r.
  - destruct (Htot start s) as (s1 & Hs1); [lia|done|]. rewrite Hs1. cbn.
    destruct (IH (S start) s1) as (s' & Hrun & HP).
    + intros i s2 Hi. apply Htot. lia.
    + intros i s2 s3 Hi. apply Hinv. lia.
    + eapply Hinv; [|exact Hs|exact Hs1]. lia.
    + exists s'. split; [done|].
      by replace (start + S len)%nat with (S start + len)%nat by lia.
Qed.

Lemma new_agents_total num first nodes r :
  nodes ≠ [] → ∃ ags r', new_agents num first nodes r = Ok (ags, r').
Proof.
  intros Hne. revert first r.
  induction num as [|k IH]; intros first r; cbn; [eauto|].
  unfold new_agent. destruct (choice_total nodes r Hne) as (d & r1 & ->).
  cbn. destruct (IH (S first) r1) as (rest & r2 & ->). cbn. eauto.
Qed.

Lemma contract_safe {D} (g : Graph D) (weight : D → Q) s t r :
  shortest_path_contract g weight s t r → router_safe g weight s t r.
Proof. destruct r as [p|e]; [by intros [? _]|]. by destruct e. Qed.

(** The enumerating router is safe on every network whose roads join
    nodes of the network, whatever the weights. *)
Lemma enumerating_router_safe {D} (g : Graph D) (weight : D → Q) s t :
  closed_roads g → router_safe g weight s t (enumerating_router g weight s t).
Proof.
  intros Hcl. unfold enumerating_router, has_node.
  destruct (decide (s ∈ g_nodes g)) as [Hs|Hs];
    [rewrite (bool_decide_eq_true_2 _ Hs)
    |by rewrite (bool_decide_eq_false_2 _ Hs)].
  destruct (bool_decide (t ∈ g_nodes g)); [|done]. cbn.
  destruct (simple_paths g (length (g_nodes g)) [] s t) as [|p ps] eqn:Hps;
    [done|].
  cbn. destruct (foldl_lighter g weight p ps) as [Hin _].
  eapply simple_paths_sound; [exact Hcl|exact Hs|]. rewrite Hps. exact Hin.
Qed.

Section RoutedModel.
Context {D : Type}.
Variable shortest_path : Graph D → (D → Q) → node → node → result (list node).
Variable weight : D → Q.
Implicit Types w : World Agent D.

(** The placement of one agent followed by its first route. *)
Lemma place_then_route_invariant i p w w2 w' :
  (∀ s t, router_safe (G w) weight s t (shortest_path (G w) weight s t)) →
  place_agent i p w = Ok w2 →
  calculate_new_path shortest_path weight i w2 = Ok w' →
  placed i w → routed weight i w →
  placed (S i) w' ∧ routed weight (S i) w'.
Proof.
  intros Hsafe Hp Hc Hpl Hr. split.
  - eapply calculate_new_path_placed; [exact Hc|].
    by eapply place_agent_placed.
  - apply place_agent_Ok in Hp as (ag & there & Hi & _ & ->).
    match type of Hc with
    | calculate_new_path _ _ _ ?x = _ => set (w2 := x) in *
    end.
    eapply (calculate_new_path_routed _ _ i (S i) i w2 w');
      [intros s t; exact (Hsafe s t)|exact Hc| | | |].
    + cbn. apply list_lookup_insert_eq. by eapply lookup_lt_Some.
    + cbn. eauto.
    + intros j Hj. destruct (decide (j = i)); [by right|left; lia].
    + eapply routed_insert; [| |exact Hr|]; [done|done|]. lia.
Qed.

Lemma place_then_route_total i p w :
  (∀ s t, router_safe (G w) weight s t (shortest_path (G w) weight s t)) →
  graph_nodes w ≠ [] → (i < length (agents w))%nat → p ∈ dom (grid w) →
  ∃ w', place_agent i p w
        ≫= calculate_new_path shortest_path weight i = Ok w'.
Proof.
  intros Hsafe Hne Hi Hp.
  destruct (lookup_lt_is_Some_2 _ _ Hi) as [a Ha].
  apply elem_of_dom in Hp as [there Hthere].
  unfold place_agent, get_agent. rewrite Ha. cbn. rewrite Hthere. cbn.
  eapply calculate_new_path_total; [exact Hsafe|exact Hne|].
  cbn. by apply list_lookup_insert_eq.
Qed.

(** A step function that keeps the invariants and relates each agent
    to what it was by a move along an edge or no move at all. *)
Variable stp : nat → World Agent D → result (World Agent D).

Hypothesis stp_partial : ∀ k i w w' a,
  (∀ s t, router_safe (G w) weight s t (shortest_path (G w) weight s t)) →
  stp i w = Ok w' → agents w !! i = Some a → (i < k)%nat →
  placed k w → routed weight k w →
  placed k w' ∧ routed weight k w' ∧ same_network w w' ∧
  (∀ j, j ≠ i → agents w' !! j = agents w !! j) ∧
  ∃ a', agents w' !! i = Some a' ∧
        (pos a' = pos a ∨
         ∃ s n, pos a = Some s ∧ pos a' = Some n ∧
                adjacent (G w) weight s n).

Hypothesis stp_total : ∀ k i w,
  (∀ s t, router_safe (G w) weight s t (shortest_path (G w) weight s t)) →
  graph_nodes w ≠ [] →
  (∀ n, n ∈ g_nodes (G w) → n ∈ dom (grid w)) →
  placed k w → routed weight k w →
  (i < k)%nat → (i < length (agents w))%nat →
  ∃ w', stp i w = Ok w'.

Lemma routed_round_partial w w' :
  (∀ s t, router_safe (G w) weight s t (shortest_path (G w) weight s t)) →
  occupancy_ok w → routed weight (length (agents w)) w →
  agents_step stp w = Ok w' →
  occupancy_ok w' ∧ routed weight (length (agents w')) w' ∧
  same_network w w' ∧
  ∀ i a, agents w !! i = Some a →
    ∃ a', agents w' !! i = Some a' ∧
          (pos a' = pos a ∨
           ∃ s n, pos a = Some s ∧ pos a' = Some n ∧
                  adjacent (G w) weight s n).
Proof.
  intros Hsafe Hok Hr Hrun.
  destruct (agents_step_each stp
    (λ w1, placed (length (agents w)) w1 ∧
           routed weight (length (agents w)) w1)
    (λ a a', pos a' = pos a ∨
             ∃ s n, pos a = Some s ∧ pos a' = Some n ∧
                    adjacent (G w) weight s n)
    w w') as ((Hpl' & Hr') & Hnet & Hrel); [|done|exact Hrun|].
  - intros i wa wb a [Hpla Hra] Hna Hb Ha.
    destruct Hna as (HGa & _ & Hlena & _).
    destruct (stp_partial (length (agents w)) i wa wb a)
      as (Hplb & Hrb & Hnb & Hoth & a' & Ha' & Hmv); try done.
    + by rewrite HGa.
    + rewrite <- Hlena. by eapply lookup_lt_Some.
    + split; [done|]. split; [done|]. split; [done|].
      exists a'. split; [done|]. by rewrite <- HGa.
  - pose proof Hnet as (_ & _ & Hlen & _). unfold occupancy_ok.
    rewrite Hlen. done.
Qed.

Lemma routed_round_total w :
  (∀ s t, router_safe (G w) weight s t (shortest_path (G w) weight s t)) →
  graph_nodes w ≠ [] →
  (∀ n, n ∈ g_nodes (G w) → n ∈ dom (grid w)) →
  occupancy_ok w → routed weight (length (agents w)) w →
  ∃ w', agents_step stp w = Ok w'.
Proof.
  intros Hsafe Hne Hdom Hok Hr.
  destruct (agents_step_total stp
    (λ w1, placed (length (agents w)) w1 ∧
           routed weight (length (agents w)) w1) w)
    as (w' & Hrun & _); [|done|eauto].
  intros i wa [Hpla Hra] Hna Hi.
  destruct Hna as (HGa & Hgn & Hlena & Hdoma & _).
  destruct (stp_total (length (agents w)) i wa) as (wb & Hb); try done.
  - by rewrite HGa.
  - by rewrite Hgn.
  - intros n. rewrite HGa, Hdoma. apply Hdom.
  - by rewrite <- Hlena.
  - exists wb. split; [done|].
    destruct (lookup_lt_is_Some_2 _ _ Hi) as [a Ha].
    destruct (stp_partial (length (agents w)) i wa wb a)
      as (Hplb & Hrb & Hnb & _); try done.
    + by rewrite HGa.
    + by rewrite <- Hlena.
Qed.
End RoutedModel.

Section PlacementLoop.
Context {D : Type}.
Variable shortest_path : Graph D → (D → Q) → node → node → result (list node).
Variable weight : D → Q.
Implicit Types w : World Agent D.

(** The body of a placement loop: the agent is placed on its drawn
    node and computes its first route. *)
Variable plc : World Agent D → nat → result (World Agent D).
Variable ps : list node.
Variable w0 : World Agent D.

Hypothesis plc_body : ∀ w i,
  G w = G w0 →
  plc w i = match ps !! i with
            | None => Raise IndexError
            | Some p =>
                place_agent i p w
                ≫= calculate_new_path shortest_path weight i
            end.
Hypothesis Hsafe :
  ∀ s t, router_safe (G w0) weight s t (shortest_path (G w0) weight s t).

Lemma placement_loop_invariant n w :
  placed 0 w0 → foldM plc w0 (seq 0 n) = Ok w →
  placed n w ∧ routed weight n w ∧ same_network w0 w.
Proof.
  intros Hpl0 Hrun.
  apply (foldM_seq_invariant
    (λ k w, placed k w ∧ routed weight k w ∧ same_network w0 w)
    plc n 0 w0 w); [| |exact Hrun].
  - intros i wa wb _ (Hpl & Hr & Hnet) Hb.
    pose proof Hnet as (HG & _).
    rewrite plc_body in Hb by done.
    destruct (ps !! i) as [p|]; [|done].
    apply bind_Ok in Hb as (w2 & Hp & Hc).
    destruct (place_then_route_invariant shortest_path weight i p wa w2 wb)
      as [Hpl' Hr']; try done.
    { by rewrite HG. }
    split; [done|]. split; [done|].
    eapply same_network_trans; [exact Hnet|].
    eapply same_network_trans; [by eapply place_agent_same_network|].
    by eapply calculate_new_path_same_network.
  - split; [done|]. split; [|apply same_network_refl].
    intros j b _ Hj. lia.
Qed.

Lemma placement_loop_total n :
  placed 0 w0 → graph_nodes w0 ≠ [] →
  (n ≤ length (agents w0))%nat → (n ≤ length ps)%nat →
  (∀ p, p ∈ ps → p ∈ dom (grid w0)) →
  ∃ w, foldM plc w0 (seq 0 n) = Ok w.
Proof.
  intros Hpl0 Hne Hn Hps Hdom.
  destruct (foldM_seq_total
    (λ k w, placed k w ∧ routed weight k w ∧ same_network w0 w)
    plc n 0 w0) as (w & Hrun & _); [| | |eauto].
  - intros i wa Hi (Hpl & Hr & Hnet).
    pose proof Hnet as (HG & Hgn & Hlen & Hd & _).
    rewrite plc_body by done.
    destruct (lookup_lt_is_Some_2 ps i) as [p Hp]; [lia|]. rewrite Hp.
    apply place_then_route_total.
    + by rewrite HG.
    + by rewrite Hgn.
    + rewrite Hlen. lia.
    + rewrite Hd. apply Hdom. by eapply list_elem_of_lookup_2.
  - intros i wa wb _ (Hpl & Hr & Hnet) Hb.
    pose proof Hnet as (HG & _).
    rewrite plc_body in Hb by done.
    destruct (ps !! i) as [p|]; [|done].
    apply bind_Ok in Hb as (w2 & Hp & Hc).
    destruct (place_then_route_invariant shortest_path weight i p wa w2 wb)
      as [Hpl' Hr']; try done.
    { by rewrite HG. }
    split; [done|]. split; [done|].
    eapply same_network_trans; [exact Hnet|].
    eapply same_network_trans; [by eapply place_agent_same_network|].
    by eapply calculate_new_path_same_network.
  - split; [done|]. split; [|apply same_network_refl].
    intros j b _ Hj. lia.
Qed.
End PlacementLoop.

Section RoutedStepFunctions.
Context {D : Type}.
Variable shortest_path : Graph D → (D → Q) → node → node → result (list node).
Variable weight : D → Q.
Implicit Types w : World Agent D.

Lemma follow_path_partial k i w w' a :
  (∀ s t, router_safe (G w) weight s t (shortest_path (G w) weight s t)) →
  follow_path shortest_path weight i w = Ok w' →
  agents w !! i = Some a → (i < k)%nat →
  placed k w → routed weight k w →
  placed k w' ∧ routed weight k w' ∧ same_network w w' ∧
  (∀ j, j ≠ i → agents w' !! j = agents w !! j) ∧
  ∃ a', agents w' !! i = Some a' ∧
        (pos a' = pos a ∨
         ∃ s n, pos a = Some s ∧ pos a' = Some n ∧
                adjacent (G w) weight s n).
Proof.
  intros Hsafe Hf Ha Hi Hpl Hr.
  destruct (follow_path_routed _ _ _ _ _ _ _ Hsafe Hf Ha Hi Hr) as [Hr' Hmv].
  destruct (follow_path_others _ _ _ _ _ _ Hf Ha) as (_ & Hoth & _).
  split; [by eapply follow_path_placed|]. split; [done|].
  split; [by eapply follow_path_same_network|]. done.
Qed.

(** The step of the congestion script: a recomputation when [b] says
    so, then the shared part. *)
Lemma recompute_then_follow_partial (b : bool) k i w w' a :
  (∀ s t, router_safe (G w) weight s t (shortest_path (G w) weight s t)) →
  (if b then calculate_new_path shortest_path weight i w else Ok w)
  ≫= follow_path shortest_path weight i = Ok w' →
  agents w !! i = Some a → (i < k)%nat →
  placed k w → routed weight k w →
  placed k w' ∧ routed weight k w' ∧ same_network w w' ∧
  (∀ j, j ≠ i → agents w' !! j = agents w !! j) ∧
  ∃ a', agents w' !! i = Some a' ∧
        (pos a' = pos a ∨
         ∃ s n, pos a = Some s ∧ pos a' = Some n ∧
                adjacent (G w) weight s n).
Proof.
  intros Hsafe Hs Ha Hi Hpl Hr.
  apply bind_Ok in Hs as (w1 & Hc & Hf).
  destruct b; [|injection Hc as <-; by eapply follow_path_partial].
  pose proof (lookup_lt_Some _ _ _ Ha) as Hlt.
  destruct (Hr i a Ha Hi) as (s & Hs & _).
  assert (routed weight k w1) as Hr1.
  { eapply (calculate_new_path_routed _ _ k k i w w1); try done; eauto. }
  pose proof (calculate_new_path_placed _ _ _ _ _ _ Hc Hpl) as Hpl1.
  pose proof (calculate_new_path_same_network _ _ _ _ _ Hc) as Hn1.
  eapply calculate_new_path_cases in Hc
    as (a1 & w0 & Hw1 & Hw0 & _ & Hpos1 & _); [|exact Ha].
  assert (G w1 = G w ∧ agents w1 = <[i:=a1]> (agents w)) as [HG1 Hags1].
  { rewrite Hw1. destruct Hw0 as [->|[r ->]]; done. }
  assert (agents w1 !! i = Some a1) as Ha1
    by (rewrite Hags1; by apply list_lookup_insert_eq).
  destruct (follow_path_partial k i w1 w' a1)
    as (Hpl' & Hr' & Hn' & Hoth & a' & Ha' & Hmv); try done.
  { by rewrite HG1. }
  split; [done|]. split; [done|].
  split; [by eapply same_network_trans|]. split.
  - intros j Hj. rewrite Hoth by done. rewrite Hags1.
    by apply list_lookup_insert_ne.
  - exists a'. split; [done|]. by rewrite Hpos1, HG1 in Hmv.
Qed.

Lemma recompute_then_follow_total (b : bool) k i w :
  (∀ s t, router_safe (G w) weight s t (shortest_path (G w) weight s t)) →
  graph_nodes w ≠ [] →
  (∀ n, n ∈ g_nodes (G w) → n ∈ dom (grid w)) →
  placed k w → routed weight k w →
  (i < k)%nat → (i < length (agents w))%nat →
  ∃ w', (if b then calculate_new_path shortest_path weight i w else Ok w)
        ≫= follow_path shortest_path weight i = Ok w'.
Proof.
  intros Hsafe Hne Hdom Hpl Hr Hi Hlt.
  destruct b; [|by eapply follow_path_total].
  destruct (lookup_lt_is_Some_2 _ _ Hlt) as [a Ha].
  destruct (Hr i a Ha Hi) as (s & Hs & _).
  destruct (calculate_new_path_total shortest_path weight i w a)
    as (w1 & Hc); try done.
  rewrite Hc. cbn.
  pose proof (calculate_new_path_same_network _ _ _ _ _ Hc)
    as (HG1 & Hgn1 & Hlen1 & Hdom1 & _).
  eapply follow_path_total.
  - by rewrite HG1.
  - by rewrite Hgn1.
  - intros n. rewrite HG1, Hdom1. apply Hdom.
  - by eapply calculate_new_path_placed.
  - eapply (calculate_new_path_routed _ _ k k i w w1); try done; eauto.
  - done.
  - by rewrite Hlen1.
Qed.
End RoutedStepFunctions.

(** ** Runs of the closure script *)

Section ClosureRuns.
Variable shortest_path :
  Graph Step8.EdgeData → (Step8.EdgeData → Q) → node → node →
  result (list node).
Variable G_base : Graph Step8.EdgeData.
Implicit Types w : Step8.World.

Local Abbreviation g := (Step8.apply_highway_closure G_base).
Local Abbreviation ready w :=
  (G w = g ∧ graph_nodes w = g_nodes g ∧
   (∀ n, n ∈ g_nodes g → n ∈ dom (grid w)) ∧
   occupancy_ok w ∧ routed Step8.length (List.length (agents w)) w).

Hypothesis Hsafe :
  ∀ s t, router_safe g Step8.length s t (shortest_path g Step8.length s t).

Lemma closure_place_body ags ps rng1 rng2 num rng w i :
  new_agents num 1 (g_nodes g) rng = Ok (ags, rng1) →
  choices (g_nodes g) num rng1 = Ok (ps, rng2) →
  G w = g →
  Step8.place shortest_path ps w i
  = match ps !! i with
    | None => Raise IndexError
    | Some p =>
        place_agent i p w
        ≫= calculate_new_path shortest_path Step8.length i
    end.
Proof.
  intros _ Hch HG. rewrite place_no_redraw; [done|].
  intros p Hp. rewrite HG. by eapply choices_elem_of.
Qed.

Lemma closure_setup_invariants num rng glob w :
  Step8.setup shortest_path G_base num rng glob = Ok w →
  ready w ∧ List.length (agents w) = num.
Proof.
  unfold Step8.setup. intros Hs.
  apply bind_Ok in Hs as ([ags rng1] & Hn & Hs).
  apply bind_Ok in Hs as ([ps rng2] & Hch & Hs).
  unfold Step8.place_all in Hs. cbn [agents] in Hs.
  pose proof (new_agents_length _ _ _ _ _ _ Hn) as Hlen.
  pose proof (new_agents_ids _ _ _ _ _ _ Hn) as Hids.
  match type of Hs with foldM _ ?x _ = _ => set (w0 := x) in * end.
  destruct (placement_loop_invariant shortest_path Step8.length
              (Step8.place shortest_path ps) ps w0) with
    (n := List.length ags) (w := w) as (Hpl & Hr & Hnet).
  - intros w1 i HG. by eapply closure_place_body.
  - exact Hsafe.
  - apply initial_placed. cbn. rewrite Hids. apply NoDup_seq.
  - exact Hs.
  - destruct Hnet as (HG & Hgn & Hl & Hdom & _). cbn in HG, Hgn, Hl, Hdom.
    split; [|congruence]. split; [done|]. split; [done|]. split.
    + intros n Hn'. rewrite Hdom. by apply empty_grid_dom.
    + unfold occupancy_ok. rewrite Hl. done.
Qed.

Lemma closure_setup_total num rng glob :
  g_nodes G_base ≠ [] →
  ∃ w, Step8.setup shortest_path G_base num rng glob = Ok w.
Proof.
  intros Hne. unfold Step8.setup.
  destruct (new_agents_total num 1 (g_nodes g) rng Hne)
    as (ags & rng1 & Hn).
  rewrite Hn. cbn -[Step8.apply_highway_closure].
  destruct (choices_total (g_nodes g) num rng1 Hne)
    as (ps & rng2 & Hch & Hlps & Hin).
  rewrite Hch. cbn -[Step8.apply_highway_closure].
  pose proof (new_agents_length _ _ _ _ _ _ Hn) as Hlen.
  pose proof (new_agents_ids _ _ _ _ _ _ Hn) as Hids.
  unfold Step8.place_all. cbn [agents].
  match goal with |- ∃ _, foldM _ ?x _ = _ => set (w0 := x) end.
  apply (placement_loop_total shortest_path Step8.length
           (Step8.place shortest_path ps) ps w0).
  - intros w1 i HG. by eapply closure_place_body.
  - exact Hsafe.
  - apply initial_placed. cbn. rewrite Hids. apply NoDup_seq.
  - exact Hne.
  - done.
  - cbn. lia.
  - intros p Hp. cbn. apply empty_grid_dom. by apply Hin.
Qed.

Lemma closure_tick_partial w w' :
  ready w →
  sim_step (Step8.model_step shortest_path) Step8.update w = Ok w' →
  ready w' ∧ List.length (agents w') = List.length (agents w) ∧
  ∀ i a, agents w !! i = Some a →
    ∃ a', agents w' !! i = Some a' ∧
          (pos a' = pos a ∨
           ∃ s n, pos a = Some s ∧ pos a' = Some n ∧ (s, n) ∈ roads g).
Proof.
  intros (HG & Hgn & Hdom & Hok & Hr) Hs. unfold sim_step in Hs.
  apply bind_Ok in Hs as (w1 & Hms & Hu).
  assert (w' = w1) as ->
    by (unfold Step8.update, report in Hu; by inv_result).
  destruct (routed_round_partial shortest_path Step8.length
              (Step8.step shortest_path)
              (follow_path_partial shortest_path Step8.length)
              (set_t (S (t w)) w) w1)
    as (Hok1 & Hr1 & Hnet & Hmv); try done.
  { cbn. by rewrite HG. }
  destruct Hnet as (HG1 & Hgn1 & Hl1 & Hdom1 & _).
  cbn in HG1, Hgn1, Hl1, Hdom1.
  split; [|split; [done|]].
  - split; [congruence|]. split; [congruence|].
    split; [|done]. intros n Hn. rewrite Hdom1. by apply Hdom.
  - intros i a Ha. destruct (Hmv i a Ha) as (a' & Ha' & Hmove).
    exists a'. split; [done|].
    destruct Hmove as [?|(s & n & Hs & Hn & Hadj)]; [by left|].
    right. exists s, n. split; [done|]. split; [done|].
    cbn in Hadj. rewrite HG in Hadj. by apply adjacent_in_roads in Hadj.
Qed.

Lemma closure_tick_total w :
  ready w → agents w ≠ [] → g_nodes g ≠ [] →
  ∃ w', sim_step (Step8.model_step shortest_path) Step8.update w = Ok w'.
Proof.
  intros (HG & Hgn & Hdom & Hok & Hr) Hag Hne. unfold sim_step.
  destruct (routed_round_total shortest_path Step8.length
              (Step8.step shortest_path)
              (follow_path_partial shortest_path Step8.length)
              (follow_path_total shortest_path Step8.length)
              (set_t (S (t w)) w)) as (w1 & Hms); try done.
  { cbn. by rewrite HG. }
  { cbn. by rewrite Hgn. }
  { cbn. intros n. rewrite HG. apply Hdom. }
  unfold Step8.model_step. rewrite Hms. cbn.
  apply (agents_step_same_network (Step8.step shortest_path)) in Hms
    as (_ & _ & Hl & _); [|intros; by eapply follow_path_same_network].
  cbn in Hl. unfold Step8.update, report, get_agent.
  destruct (agents w1); [|eauto].
  destruct (agents w); [done|discriminate].
Qed.

Lemma closure_run_total k steps rng glob :
  g_nodes G_base ≠ [] →
  ∃ ws, Step8.run shortest_path G_base (S k) steps rng glob = Ok ws ∧
        List.length ws = S steps.
Proof.
  intros Hne. unfold Step8.run.
  destruct (closure_setup_total (S k) rng glob Hne) as (w & Hs).
  rewrite Hs. cbn.
  destruct (closure_setup_invariants _ _ _ _ Hs) as [Hrd Hlen].
  assert (Step8.update w = Ok w) as ->.
  { unfold Step8.update, report, get_agent.
    destruct (agents w); [discriminate|reflexivity]. }
  cbn.
  destruct (run_trace_total (λ w, ready w ∧ List.length (agents w) = S k)
    (Step8.model_step shortest_path) Step8.update) with
    (steps := steps) (w := w) as (ws & -> & Hlws & _); [|done|].
  - clear dependent w. intros w [Hrd Hlen].
    destruct (closure_tick_total w Hrd) as (w' & Hs); [|done|].
    { intros Hnil. rewrite Hnil in Hlen. discriminate. }
    exists w'. split; [done|].
    destruct (closure_tick_partial w w' Hrd Hs) as (Hrd' & Hl' & _).
    split; [done|congruence].
  - cbn. exists (w :: ws). split; [done|]. cbn. lia.
Qed.

Lemma closure_run_moves num steps rng glob ws k w w' i a a' :
  Step8.run shortest_path G_base num steps rng glob = Ok ws →
  ws !! k = Some w → ws !! S k = Some w' →
  agents w !! i = Some a → agents w' !! i = Some a' →
  pos a' = pos a ∨
  ∃ s n, pos a = Some s ∧ pos a' = Some n ∧ (s, n) ∈ roads g.
Proof.
  unfold Step8.run. intros Hrun Hk HSk Ha Ha'.
  apply bind_Ok in Hrun as (w0 & Hs & Hrun).
  apply bind_Ok in Hrun as (w1 & Hu & Hrun).
  apply bind_Ok in Hrun as (tr & Htr & Hrun). injection Hrun as <-.
  assert (w1 = w0) as ->
    by (unfold Step8.update, report in Hu; by inv_result).
  destruct (closure_setup_invariants _ _ _ _ Hs) as [Hrd _].
  assert (ready w) as Hrdw.
  { apply list_elem_of_lookup_2 in Hk.
    apply elem_of_cons in Hk as [->|Hin]; [done|].
    eapply (run_trace_invariant (λ w, ready w));
      [|exact Hrd|exact Htr|exact Hin].
    intros wa wb Hra Hstep.
    by destruct (closure_tick_partial wa wb Hra Hstep). }
  pose proof (run_trace_consecutive _ _ _ _ _ Htr k w w' Hk HSk) as Hstep.
  destruct (closure_tick_partial w w' Hrdw Hstep) as (_ & _ & Hmv).
  destruct (Hmv i a Ha) as (b & Hb & Hmove).
  rewrite Ha' in Hb. by injection Hb as <-.
Qed.
End ClosureRuns.

(** ** Runs of the congestion script *)

Lemma cast_edges_roads (es : list (Edge Step9c.RawData))
    (es' : list (Edge Step9c.EdgeData)) :
  mapM Step9c.cast_edge es = Ok es' →
  (λ e, (e_u e, e_v e)) <$> es' = (λ e, (e_u e, e_v e)) <$> es.
Proof.
  intros Hm%mapM_Ok. induction Hm as [|e e' es es' He _ IH]; [done|].
  cbn. rewrite IH. f_equal. unfold Step9c.cast_edge in He.
  by inv_result.
Qed.

Lemma routed_change_graph {D} (weight : D → Q) k (w w' : World Agent D) :
  agents w' = agents w → g_nodes (G w') = g_nodes (G w) →
  roads (G w') = roads (G w) →
  routed weight k w → routed weight k w'.
Proof.
  intros Hags Hn Hrd Hr i a Ha Hi. rewrite Hags in Ha.
  destruct (Hr i a Ha Hi) as (s & Hs & Hch & Hin).
  exists s. split; [done|]. split.
  - by eapply chain_roads.
  - intros n Hn'. rewrite Hn. by apply Hin.
Qed.

Section CongestionRuns.
Variable shortest_path :
  Graph Step9c.EdgeData → (Step9c.EdgeData → Q) → node → node →
  result (list node).
Variable loaded : Graph Step9c.RawData.
Implicit Types w : Step9c.World.

Local Abbreviation ready w :=
  (g_nodes (G w) = g_nodes loaded ∧ roads (G w) = roads loaded ∧
   graph_nodes w = g_nodes loaded ∧
   (∀ n, n ∈ g_nodes loaded → n ∈ dom (grid w)) ∧
   occupancy_ok w ∧
   routed Step9c.travel_time (length (agents w)) w).

Hypothesis Hsafe : ∀ g s t,
  g_nodes g = g_nodes loaded → roads g = roads loaded →
  router_safe g Step9c.travel_time s t
    (shortest_path g Step9c.travel_time s t).

Lemma congestion_step_partial k i w w' a :
  (∀ s t, router_safe (G w) Step9c.travel_time s t
            (shortest_path (G w) Step9c.travel_time s t)) →
  Step9c.step shortest_path i w = Ok w' →
  agents w !! i = Some a → (i < k)%nat →
  placed k w → routed Step9c.travel_time k w →
  placed k w' ∧ routed Step9c.travel_time k w' ∧ same_network w w' ∧
  (∀ j, j ≠ i → agents w' !! j = agents w !! j) ∧
  ∃ a', agents w' !! i = Some a' ∧
        (pos a' = pos a ∨
         ∃ s n, pos a = Some s ∧ pos a' = Some n ∧
                adjacent (G w) Step9c.travel_time s n).
Proof.
  intros Hs Hstep.
  apply (recompute_then_follow_partial shortest_path Step9c.travel_time
           (bool_decide (t w `mod` Step9c.RECALCULATE_PATH_STEPS = 0)%nat));
    [exact Hs|].
  unfold Step9c.step in Hstep.
  destruct (decide _) as [Hm|Hm];
    [rewrite (bool_decide_eq_true_2 _ Hm)
    |rewrite (bool_decide_eq_false_2 _ Hm)]; exact Hstep.
Qed.

Lemma congestion_step_total k i w :
  (∀ s t, router_safe (G w) Step9c.travel_time s t
            (shortest_path (G w) Step9c.travel_time s t)) →
  graph_nodes w ≠ [] →
  (∀ n, n ∈ g_nodes (G w) → n ∈ dom (grid w)) →
  placed k w → routed Step9c.travel_time k w →
  (i < k)%nat → (i < length (agents w))%nat →
  ∃ w', Step9c.step shortest_path i w = Ok w'.
Proof.
  intros Hs Hne Hdom Hpl Hr Hi Hlt.
  destruct (recompute_then_follow_total shortest_path Step9c.travel_time
              (bool_decide (t w `mod` Step9c.RECALCULATE_PATH_STEPS = 0)%nat)
              k i w) as (w' & Hw'); try done.
  exists w'. unfold Step9c.step.
  destruct (decide _) as [Hm|Hm];
    [rewrite (bool_decide_eq_true_2 _ Hm) in Hw'
    |rewrite (bool_decide_eq_false_2 _ Hm) in Hw']; exact Hw'.
Qed.

Lemma congestion_setup_invariants num rng glob w :
  Step9c.setup shortest_path loaded num rng glob = Ok w →
  ready w ∧ length (agents w) = num ∧
  mapM Step9c.cast_edge (g_edges loaded) = Ok (g_edges (G w)).
Proof.
  intros Hs.
  pose proof (setup_occupancy_ok _ _ _ _ _ _ Hs) as Hok.
  unfold Step9c.setup in Hs.
  apply bind_Ok in Hs as (edges & Hcast & Hs).
  apply bind_Ok in Hs as ([ags rng1] & Hn & Hs).
  apply bind_Ok in Hs as ([ps rng2] & Hch & Hs).
  unfold Step9c.place_all in Hs. cbn [agents] in Hs.
  pose proof (new_agents_length _ _ _ _ _ _ Hn) as Hlen.
  pose proof (new_agents_ids _ _ _ _ _ _ Hn) as Hids.
  match type of Hs with foldM _ ?x _ = _ => set (w0 := x) in * end.
  assert (roads (G w0) = roads loaded) as Hrd0
    by (by apply cast_edges_roads).
  destruct (placement_loop_invariant shortest_path Step9c.travel_time
              (Step9c.place shortest_path ps) ps w0) with
    (n := length ags) (w := w) as (Hpl & Hr & Hnet).
  - intros w1 i HG. reflexivity.
  - intros s t. by apply Hsafe.
  - apply initial_placed. cbn. rewrite Hids. apply NoDup_seq.
  - exact Hs.
  - destruct Hnet as (HG & Hgn & Hl & Hdom & _). cbn in Hgn, Hl, Hdom.
    split; [|split; [congruence|by rewrite HG]].
    rewrite HG. split; [done|]. split; [done|]. split; [done|]. split.
    + intros n Hn'. rewrite Hdom. by apply empty_grid_dom.
    + split; [done|]. by rewrite Hl.
Qed.

Lemma congestion_setup_total num rng glob edges :
  g_nodes loaded ≠ [] →
  mapM Step9c.cast_edge (g_edges loaded) = Ok edges →
  ∃ w, Step9c.setup shortest_path loaded num rng glob = Ok w.
Proof.
  intros Hne Hcast. unfold Step9c.setup. rewrite Hcast. cbn.
  destruct (new_agents_total num 1 (g_nodes loaded) rng Hne)
    as (ags & rng1 & Hn).
  rewrite Hn. cbn.
  destruct (choices_total (g_nodes loaded) num rng1 Hne)
    as (ps & rng2 & Hch & Hlps & Hin).
  rewrite Hch. cbn.
  pose proof (new_agents_length _ _ _ _ _ _ Hn) as Hlen.
  pose proof (new_agents_ids _ _ _ _ _ _ Hn) as Hids.
  unfold Step9c.place_all. cbn [agents].
  match goal with |- ∃ _, foldM _ ?x _ = _ => set (w0 := x) end.
  apply (placement_loop_total shortest_path Step9c.travel_time
           (Step9c.place shortest_path ps) ps w0).
  - intros w1 i HG. reflexivity.
  - intros s t. apply Hsafe; [done|]. by apply cast_edges_roads.
  - apply initial_placed. cbn. rewrite Hids. apply NoDup_seq.
  - exact Hne.
  - done.
  - cbn. lia.
  - intros p Hp. cbn. apply empty_grid_dom. by apply Hin.
Qed.

Lemma congestion_tick_partial w w' :
  ready w →
  sim_step (Step9c.model_step shortest_path) Step9c.update w = Ok w' →
  ready w' ∧ length (agents w') = length (agents w) ∧
  Step9c.lanes ∘ e_data <$> g_edges (G w')
  = Step9c.lanes ∘ e_data <$> g_edges (G w) ∧
  ∀ i a, agents w !! i = Some a →
    ∃ a', agents w' !! i = Some a' ∧
          (pos a' = pos a ∨
           ∃ s n, pos a = Some s ∧ pos a' = Some n ∧
                  (s, n) ∈ roads loaded).
Proof.
  intros (Hnd & Hrd & Hgn & Hdom & Hok & Hr) Hs. unfold sim_step in Hs.
  apply bind_Ok in Hs as (w1 & Hms & Hu).
  destruct (routed_round_partial shortest_path Step9c.travel_time
              (Step9c.step shortest_path) congestion_step_partial
              (set_t (S (t w)) w) w1)
    as (Hok1 & Hr1 & Hnet & Hmv); try done.
  { cbn. intros s t. by apply Hsafe. }
  destruct Hnet as (HG1 & Hgn1 & Hl1 & Hdom1 & _).
  cbn in HG1, Hgn1, Hl1, Hdom1.
  pose proof (update_occupancy_ok _ _ Hu Hok1) as Hok'.
  apply update_Ok_edges in Hu as ->.
  assert (roads (G (Step9c.set_edges
            ((λ e, Step9c.set_travel_time
                     (Step9c.congestion_model (grid w1) e) e)
               <$> g_edges (G w1)) w1)) = roads (G w1)) as Hrd'.
  { unfold roads. cbn. rewrite <- list_fmap_compose.
    by apply list_fmap_ext. }
  split; [|split; [done|split]].
  - split; [cbn; congruence|]. split; [by rewrite Hrd', HG1|].
    split; [cbn; congruence|]. split.
    + intros n Hn. cbn. rewrite Hdom1. by apply Hdom.
    + split; [done|]. eapply routed_change_graph; [| | |exact Hr1]; done.
  - cbn. rewrite HG1, <- list_fmap_compose. by apply list_fmap_ext.
  - intros i a Ha. destruct (Hmv i a Ha) as (a' & Ha' & Hmove).
    exists a'. split; [done|].
    destruct Hmove as [?|(s & n & Hs & Hn & Hadj)]; [by left|].
    right. exists s, n. split; [done|]. split; [done|].
    cbn in Hadj. apply adjacent_in_roads in Hadj. by rewrite Hrd in Hadj.
Qed.

Lemma congestion_tick_total w :
  ready w → agents w ≠ [] → g_nodes loaded ≠ [] →
  (∀ e, e ∈ g_edges (G w) → Step9c.lanes (e_data e) ≠ 0) →
  ∃ w', sim_step (Step9c.model_step shortest_path) Step9c.update w = Ok w'.
Proof.
  intros (Hnd & Hrd & Hgn & Hdom & Hok & Hr) Hag Hne Hl. unfold sim_step.
  destruct (routed_round_total shortest_path Step9c.travel_time
              (Step9c.step shortest_path) congestion_step_partial
              congestion_step_total (set_t (S (t w)) w))
    as (w1 & Hms); try done.
  { cbn. intros s t. by apply Hsafe. }
  { cbn. by rewrite Hgn. }
  { cbn. intros n. rewrite Hnd. apply Hdom. }
  unfold Step9c.model_step. rewrite Hms. cbn.
  apply (agents_step_same_network (Step9c.step shortest_path)) in Hms
    as (HG1 & _ & Hl1 & _); [|intros; by eapply step_same_network].
  cbn in HG1, Hl1. rewrite update_outcome_cases.
  rewrite decide_False.
  - destruct (agents w1); [|eauto].
    destruct (agents w); [done|discriminate].
  - intros (e & He & Hz & _)%Exists_exists. rewrite HG1 in He.
    by apply (Hl e).
Qed.

Lemma congestion_run_total k steps rng glob edges :
  g_nodes loaded ≠ [] →
  mapM Step9c.cast_edge (g_edges loaded) = Ok edges →
  (∀ e, e ∈ edges → Step9c.lanes (e_data e) ≠ 0) →
  ∃ ws, Step9c.run shortest_path loaded (S k) steps rng glob = Ok ws ∧
        length ws = S steps.
Proof.
  intros Hne Hcast Hlanes. unfold Step9c.run.
  destruct (congestion_setup_total (S k) rng glob edges Hne Hcast)
    as (w & Hs).
  rewrite Hs. cbn -[Step9c.update].
  destruct (congestion_setup_invariants _ _ _ _ Hs) as (Hrd & Hlen & Hedges).
  rewrite Hcast in Hedges. injection Hedges as Hedges.
  set (good := λ w : Step9c.World,
         (g_nodes (G w) = g_nodes loaded ∧ roads (G w) = roads loaded ∧
          graph_nodes w = g_nodes loaded ∧
          (∀ n, n ∈ g_nodes loaded → n ∈ dom (grid w)) ∧
          occupancy_ok w ∧
          routed Step9c.travel_time (length (agents w)) w) ∧
         length (agents w) = S k ∧
         Step9c.lanes ∘ e_data <$> g_edges (G w)
         = Step9c.lanes ∘ e_data <$> edges).
  assert (∀ w, good w → ∀ e, e ∈ g_edges (G w) →
               Step9c.lanes (e_data e) ≠ 0) as Hnz.
  { intros wa (_ & _ & Hla) e He Hz.
    assert (0 ∈ Step9c.lanes ∘ e_data <$> edges) as Hin.
    { rewrite <- Hla. apply list_elem_of_fmap. exists e. by rewrite <- Hz. }
    apply list_elem_of_fmap in Hin as (e' & Hz' & He').
    by apply (Hlanes e' He'). }
  assert (∀ w, good w → ∃ w', sim_step (Step9c.model_step shortest_path)
                                Step9c.update w = Ok w' ∧ good w') as Htick.
  { intros wa Hg. pose proof Hg as (Hra & Hlena & Hla).
    destruct (congestion_tick_total wa Hra) as (wb & Hb); [|done| |].
    { intros Hnil. rewrite Hnil in Hlena. discriminate. }
    { by apply Hnz. }
    exists wb. split; [done|].
    destruct (congestion_tick_partial wa wb Hra Hb) as (Hrb & Hlb & Hlab & _).
    split; [done|]. split; congruence. }
  assert (good w) as Hgw by (split; [done|]; split; [done|]; by rewrite Hedges).
  assert (∃ w0, Step9c.update w = Ok w0 ∧ good w0) as (w0 & Hu & Hg0).
  { rewrite update_outcome_cases. rewrite decide_False.
    - destruct (agents w) eqn:Hag; [discriminate|].
      eexists. split; [reflexivity|].
      destruct Hgw as ((Hnd & Hrdw & Hgn & Hdom & Hok & Hr) & Hl & Hla).
      split; [|split].
      + cbn. split; [done|]. split.
        * etrans; [|exact Hrdw]. unfold roads. cbn.
          rewrite <- list_fmap_compose. by apply list_fmap_ext.
        * split; [done|]. split; [done|]. split; [done|].
          eapply routed_change_graph; [| | |exact Hr]; [done|done|].
          unfold roads. cbn. rewrite <- list_fmap_compose.
          by apply list_fmap_ext.
      + done.
      + cbn. rewrite <- Hla, <- list_fmap_compose. by apply list_fmap_ext.
    - intros (e & He & Hz & _)%Exists_exists. by apply (Hnz w Hgw e). }
  rewrite Hu. cbn.
  destruct (run_trace_total good (Step9c.model_step shortest_path)
              Step9c.update Htick steps w0 Hg0) as (ws & -> & Hlws & _).
  cbn. exists (w0 :: ws). split; [done|]. cbn. lia.
Qed.

Lemma congestion_run_moves num steps rng glob ws k w w' i a a' :
  Step9c.run shortest_path loaded num steps rng glob = Ok ws →
  ws !! k = Some w → ws !! S k = Some w' →
  agents w !! i = Some a → agents w' !! i = Some a' →
  pos a' = pos a ∨
  ∃ s n, pos a = Some s ∧ pos a' = Some n ∧ (s, n) ∈ roads loaded.
Proof.
  unfold Step9c.run. intros Hrun Hk HSk Ha Ha'.
  apply bind_Ok in Hrun as (w0 & Hs & Hrun).
  apply bind_Ok in Hrun as (w1 & Hu & Hrun).
  apply bind_Ok in Hrun as (tr & Htr & Hrun). injection Hrun as <-.
  destruct (congestion_setup_invariants _ _ _ _ Hs)
    as ((Hnd & Hrd & Hgn & Hdom & Hok & Hr) & _ & _).
  assert (ready w1) as Hrd1.
  { pose proof (update_occupancy_ok _ _ Hu Hok) as Hok'.
    apply update_Ok_edges in Hu as ->.
    assert (roads (G (Step9c.set_edges
              ((λ e, Step9c.set_travel_time
                       (Step9c.congestion_model (grid w0) e) e)
                 <$> g_edges (G w0)) w0)) = roads (G w0)) as Hrd'.
    { unfold roads. cbn. rewrite <- list_fmap_compose.
      by apply list_fmap_ext. }
    split; [done|]. split; [by rewrite Hrd'|]. split; [done|].
    split; [done|]. split; [done|].
    eapply routed_change_graph; [| | |exact Hr]; done. }
  assert (ready w) as Hrdw.
  { apply list_elem_of_lookup_2 in Hk.
    apply elem_of_cons in Hk as [->|Hin]; [done|].
    eapply (run_trace_invariant (λ w, ready w));
      [|exact Hrd1|exact Htr|exact Hin].
    intros wa wb Hra Hstep.
    by destruct (congestion_tick_partial wa wb Hra Hstep). }
  pose proof (run_trace_consecutive _ _ _ _ _ Htr k w w' Hk HSk) as Hstep.
  destruct (congestion_tick_partial w w' Hrdw Hstep) as (_ & _ & _ & Hmv).
  destruct (Hmv i a Ha) as (b & Hb & Hmove).
  rewrite Ha' in Hb. by injection Hb as <-.
Qed.
End CongestionRuns.

Lemma closed_roads_same {D D'} (g : Graph D) (g' : Graph D') :
  g_nodes g' = g_nodes g → roads g' = roads g →
  closed_roads g → closed_roads g'.
Proof.
  intros Hn Hr Hcl e He. rewrite Hn.
  assert ((e_u e, e_v e) ∈ roads g) as Hin.
  { rewrite <- Hr. unfold roads. by apply (list_elem_of_fmap_2 (λ e, (e_u e, e_v e))). }
  unfold roads in Hin.
  apply list_elem_of_fmap in Hin as (e0 & [= -> ->] & He0). by apply Hcl.
Qed.

(** X15.  The two routing simulations run to their end: with at
    least one node, at least one agent and a router that answers every
    call with a walk from the source to the target or with one of the two
    exceptions the agents catch, a run of the closure script raises
    nothing; and so does a run of the congestion script when moreover
    the casts of the edges succeed and no edge has zero lanes.  Each run
    yields the world after set-up and one world per tick. *)
Theorem routed_runs_never_raise :
  (∀ shortest_path G_base k steps rng glob,
     g_nodes G_base ≠ [] →
     (∀ s t,
        router_safe (Step8.apply_highway_closure G_base) Step8.length s t
          (shortest_path (Step8.apply_highway_closure G_base)
             Step8.length s t)) →
     ∃ ws, Step8.run shortest_path G_base (S k) steps rng glob = Ok ws ∧
           length ws = S steps) ∧
  (∀ shortest_path loaded edges k steps rng glob,
     g_nodes loaded ≠ [] →
     mapM Step9c.cast_edge (g_edges loaded) = Ok edges →
     (∀ e, e ∈ edges → Step9c.lanes (e_data e) ≠ 0) →
     (∀ g s t,
        g_nodes g = g_nodes loaded → roads g = roads loaded →
        router_safe g Step9c.travel_time s t
          (shortest_path g Step9c.travel_time s t)) →
     ∃ ws, Step9c.run shortest_path loaded (S k) steps rng glob = Ok ws ∧
           length ws = S steps).
Proof.
  split.
  - intros sp G_base k steps rng glob Hne Hsafe.
    by apply closure_run_total.
  - intros sp loaded edges k steps rng glob Hne Hcast Hl Hsafe.
    by eapply congestion_run_total.
Qed.

(** X16.  Routing agents move along edges: in a run of the
    closure script or of the congestion script with a router that
    answers with walks, between two consecutive worlds every agent either
    keeps its position or moves from a node to a node joined to it by an
    edge of the network (of the closed network in the closure script). *)
Theorem routed_agents_move_along_edges :
  (∀ shortest_path G_base num steps rng glob ws k w w' i a a',
     Step8.run shortest_path G_base num steps rng glob = Ok ws →
     (∀ s t,
        router_safe (Step8.apply_highway_closure G_base) Step8.length s t
          (shortest_path (Step8.apply_highway_closure G_base)
             Step8.length s t)) →
     ws !! k = Some w → ws !! S k = Some w' →
     agents w !! i = Some a → agents w' !! i = Some a' →
     pos a' = pos a ∨
     ∃ s n, pos a = Some s ∧ pos a' = Some n ∧
            (s, n) ∈ roads (Step8.apply_highway_closure G_base)) ∧
  (∀ shortest_path loaded num steps rng glob ws k w w' i a a',
     Step9c.run shortest_path loaded num steps rng glob = Ok ws →
     (∀ g s t,
        g_nodes g = g_nodes loaded → roads g = roads loaded →
        router_safe g Step9c.travel_time s t
          (shortest_path g Step9c.travel_time s t)) →
     ws !! k = Some w → ws !! S k = Some w' →
     agents w !! i = Some a → agents w' !! i = Some a' →
     pos a' = pos a ∨
     ∃ s n, pos a = Some s ∧ pos a' = Some n ∧ (s, n) ∈ roads loaded).
Proof.
  split.
  - intros sp G_base num steps rng glob ws k w w' i a a' Hrun Hsafe.
    by eapply closure_run_moves.
  - intros sp loaded num steps rng glob ws k w w' i a a' Hrun Hsafe.
    by eapply congestion_run_moves.
Qed.

Lemma town_raw_router_safe (g : Graph Step9c.EdgeData) s t :
  g_nodes g = g_nodes town_raw → roads g = roads town_raw →
  router_safe g Step9c.travel_time s t (router g Step9c.travel_time s t).
Proof.
  intros Hn Hr. apply enumerating_router_safe.
  apply (closed_roads_same town_raw g Hn Hr).
  apply closed_roads_check. vm_compute. reflexivity.
Qed.

Lemma routed_runs_never_raise_witness :
  (∃ ws, Step8.run router bypass 2 3 scattered idle = Ok ws ∧
         length ws = 4%nat) ∧
  (∃ ws, Step9c.run router town_raw 3 6 scattered idle = Ok ws ∧
         length ws = 7%nat).
Proof.
  split.
  - refine (proj1 routed_runs_never_raise router bypass 1%nat 3%nat
              scattered idle _ _).
    + discriminate.
    + intros s t. apply enumerating_router_safe.
      apply closed_roads_check. vm_compute. reflexivity.
  - refine (proj2 routed_runs_never_raise router town_raw _ 2%nat 6%nat
              scattered idle _ _ _ town_raw_router_safe).
    + discriminate.
    + vm_compute. reflexivity.
    + intros e He. apply list_elem_of_In in He. cbn in He.
      destruct He as [<-|[<-|[<-|[<-|[]]]]]; discriminate.
Defined.

Lemma routed_agents_move_along_edges_witness :
  ∃ ws w w' a a',
    Step9c.run router town_raw 3 6 scattered idle = Ok ws ∧
    ws !! 5%nat = Some w ∧ ws !! 6%nat = Some w' ∧
    agents w !! 0%nat = Some a ∧ agents w' !! 0%nat = Some a' ∧
    (pos a' = pos a ∨
     ∃ s n, pos a = Some s ∧ pos a' = Some n ∧ (s, n) ∈ roads town_raw).
Proof.
  eexists _, _, _, _, _.
  split; [vm_compute; reflexivity|].
  split; [reflexivity|]. split; [reflexivity|].
  split; [reflexivity|]. split; [reflexivity|].
  refine (proj2 routed_agents_move_along_edges router town_raw 3%nat 6%nat
            scattered idle _ 5%nat _ _ 0%nat _ _ _ town_raw_router_safe
            _ _ _ _).
  - vm_compute. reflexivity.
  - reflexivity.
  - reflexivity.
  - reflexivity.
  - reflexivity.
Defined.

(** ** Lane counts written as numerals *)

Lemma digit_char (d : nat) :
  (d < 10)%nat →
  let c := ascii_of_nat (48 + d) in
  digit_of c = Some (Z.of_nat d) ∧ is_space c = false ∧ lower c = c ∧
  c ≠ "-"%char ∧ c ≠ "+"%char ∧ c ≠ "i"%char ∧ c ≠ "n"%char.
Proof.
  intros Hd. do 10 (destruct d as [|d]; [by vm_compute|]). lia.
Qed.

Lemma sign_of_unsigned c l :
  c ≠ "-"%char → c ≠ "+"%char → sign_of (c :: l) = (false, c :: l).
Proof.
  intros Hm Hp.
  destruct c as [[] [] [] [] [] [] [] []]; try reflexivity; congruence.
Qed.

Lemma digitpart_numeral ds :
  Forall (λ d, d < 10)%nat ds →
  ∀ acc n rest,
    digitpart acc n (numeral ds ++ rest)
    = digitpart (foldl (λ a d, 10 * a + Z.of_nat d) acc ds)
        (n + length ds) rest.
Proof.
  induction 1 as [|d ds Hd _ IH]; intros acc n rest.
  - cbn. by rewrite Nat.add_0_r.
  - destruct (digit_char d Hd) as (Hdig & _).
    change (numeral (d :: ds) ++ rest)
      with (ascii_of_nat (48 + d) :: (numeral ds ++ rest)).
    cbn [digitpart]. rewrite Hdig, IH. cbn [foldl length].
    by rewrite Nat.add_succ_r.
Qed.

Lemma digitpart_stop acc n l :
  match l with
  | [] => True
  | c :: _ => c = "."%char
  end →
  digitpart acc n l = (acc, n, l).
Proof. destruct l as [|c l]; [done|]. intros ->. reflexivity. Qed.

Lemma foldl_numeral acc ds :
  foldl (λ a d, 10 * a + Z.of_nat d) acc ds
  = acc * 10 ^ Z.of_nat (length ds) + numeral_value ds.
Proof.
  unfold numeral_value. revert acc.
  induction ds as [|d ds IH] using rev_ind; intros acc.
  - cbn. lia.
  - rewrite !foldl_app. cbn [foldl]. rewrite IH, (IH 0).
    rewrite length_app. cbn [length].
    rewrite Nat2Z.inj_add, Z.pow_add_r by lia. cbn. lia.
Qed.

Lemma numeral_value_nonneg ds : 0 ≤ numeral_value ds.
Proof.
  unfold numeral_value.
  assert (∀ acc, 0 ≤ acc → 0 ≤ foldl (λ a d, 10 * a + Z.of_nat d) acc ds)
    as H; [|apply H; lia].
  induction ds as [|d ds IH]; intros acc Hacc; [done|].
  cbn. apply IH. lia.
Qed.

Lemma numeral_value_zeros k : numeral_value (replicate k 0%nat) = 0.
Proof.
  unfold numeral_value.
  assert (∀ k, foldl (λ a d, 10 * a + Z.of_nat d) 0 (replicate k 0%nat) = 0)
    as H; [|apply H].
  clear k. induction k as [|k IH]; [done|]. cbn. exact IH.
Qed.

Lemma lstrip_unspaced c l : is_space c = false → lstrip (c :: l) = c :: l.
Proof. intros Hc. cbn. by rewrite Hc. Qed.

Lemma strip_unspaced l c1 c2 l' l'' :
  l = c1 :: l' → rev l = c2 :: l'' →
  is_space c1 = false → is_space c2 = false → strip l = l.
Proof.
  intros H1 H2 Hc1 Hc2. unfold strip. rewrite H1, lstrip_unspaced by done.
  rewrite <- H1, H2, lstrip_unspaced by done. by rewrite <- H2, rev_involutive.
Qed.

Lemma py_int_scale10_0 (V : Z) : py_int (Fin (scale10 V 0)) = Ok V.
Proof.
  unfold scale10. rewrite bool_decide_eq_true_2 by lia.
  unfold py_int. cbn [Qnum Qden inject_Z]. f_equal.
  rewrite Z.pow_0_r, Z.mul_1_r. apply Z.quot_1_r.
Qed.

Lemma py_int_scale10_neg (V : Z) (k : nat) :
  py_int (Fin (scale10 (V * 10 ^ Z.of_nat k) (- Z.of_nat k))) = Ok V.
Proof.
  destruct k as [|k].
  - change (- Z.of_nat 0) with 0. rewrite Z.pow_0_r, Z.mul_1_r.
    apply py_int_scale10_0.
  - unfold scale10. rewrite bool_decide_eq_false_2 by lia.
    unfold py_int. cbn [Qnum Qden]. f_equal.
    rewrite Z.opp_involutive.
    assert (0 < 10 ^ Z.of_nat (S k)) as Hpow by (apply Z.pow_pos_nonneg; lia).
    rewrite Z2Pos.id by done. apply Z.quot_mul. lia.
Qed.

Section Numerals.
Import Step9c.

Lemma float_of_numeral (ds : list nat) (frac : list ascii) :
  ds ≠ [] → Forall (λ d, d < 10)%nat ds →
  (frac = [] ∨ ∃ k, frac = "."%char :: numeral (replicate k 0%nat)) →
  float_of_string (string_of_list_ascii (numeral ds ++ frac))
  ≫= py_int = Ok (numeral_value ds).
Proof.
  intros Hne Hds Hfrac.
  destruct ds as [|d ds]; [done|]. clear Hne.
  pose proof (Forall_inv Hds) as Hd.
  destruct (digit_char d Hd) as (_ & Hsp & Hlow & Hm & Hp & Hi & Hn).
  unfold float_of_string. rewrite list_ascii_of_string_of_list_ascii.
  assert (strip (numeral (d :: ds) ++ frac) = numeral (d :: ds) ++ frac)
    as ->.
  { destruct (rev (numeral (d :: ds) ++ frac)) as [|c2 l2] eqn:Hrev.
    { apply (f_equal (@length _)) in Hrev.
      rewrite length_rev in Hrev. done. }
    eapply strip_unspaced; [reflexivity|exact Hrev|exact Hsp|].
    assert (c2 ∈ numeral (d :: ds) ++ frac) as Hin.
    { apply list_elem_of_In, in_rev, list_elem_of_In. rewrite Hrev.
      apply list_elem_of_here. }
    apply elem_of_app in Hin as [Hin|Hin].
    - unfold numeral in Hin.
      apply list_elem_of_fmap in Hin as (d' & -> & Hd').
      rewrite Forall_forall in Hds. by destruct (digit_char d' (Hds d' Hd')) as (_ & ? & _).
    - destruct Hfrac as [->|[k ->]]; [by apply elem_of_nil in Hin|].
      apply elem_of_cons in Hin as [->|Hin]; [reflexivity|].
      unfold numeral in Hin.
      apply list_elem_of_fmap in Hin as (d' & -> & Hd').
      apply elem_of_replicate in Hd' as [-> _]. reflexivity. }
  change (numeral (d :: ds) ++ frac)
    with (ascii_of_nat (48 + d) :: (numeral ds ++ frac)).
  rewrite sign_of_unsigned by done.
  rewrite bool_decide_eq_false_2.
  2:{ cbn [fmap list_fmap string_of_list_ascii]. rewrite Hlow.
      intros [H|H]; apply Hi; by injection H. }
  rewrite bool_decide_eq_false_2.
  2:{ cbn [fmap list_fmap string_of_list_ascii]. rewrite Hlow.
      intros H; apply Hn; by injection H. }
  change (ascii_of_nat (48 + d) :: (numeral ds ++ frac))
    with (numeral (d :: ds) ++ frac).
  unfold unsigned_float. rewrite digitpart_numeral by done.
  rewrite foldl_numeral, Z.mul_0_l, Z.add_0_l.
  set (V := numeral_value (d :: ds)). clearbody V.
  cbn [length Nat.add].
  destruct Hfrac as [->|[k ->]].
  - rewrite digitpart_stop by done. cbv beta iota zeta.
    rewrite bool_decide_eq_false_2 by lia.
    cbn [exponent]. cbv beta iota zeta.
    change (py_int (Fin (scale10 V 0)) = Ok V).
    apply py_int_scale10_0.
  - rewrite digitpart_stop by done. cbv beta iota zeta.
    rewrite <- (app_nil_r (numeral (replicate k 0%nat))).
    rewrite digitpart_numeral
      by (apply Forall_forall; intros x [-> _]%elem_of_replicate; lia).
    rewrite foldl_numeral, numeral_value_zeros, length_replicate, Z.add_0_r.
    rewrite digitpart_stop by done. cbv beta iota zeta.
    rewrite bool_decide_eq_false_2 by lia.
    cbn [exponent Nat.add]. cbv beta iota zeta.
    change (py_int (Fin (scale10 (V * 10 ^ Z.of_nat k) (0 - Z.of_nat k)))
            = Ok V).
    rewrite Z.sub_0_l. apply py_int_scale10_neg.
Qed.

(** X17.  The lanes of an edge written as a decimal numeral:
    when the [lanes] attribute is the string of a non-empty list of
    digits of value below [2^53], alone or followed by a point and any
    number of zeros, the cast gives the value of the numeral, which is
    not negative. *)
Theorem lanes_written_as_a_numeral (data : RawData) (ds : list nat) :
  ds ≠ [] → Forall (λ d, d < 10)%nat ds → numeral_value ds < 2 ^ 53 →
  (data !! "lanes"%string
   = Some (PStr (string_of_list_ascii (numeral ds))) →
   cast_lanes data = Ok (numeral_value ds)) ∧
  (∀ k, data !! "lanes"%string
        = Some (PStr (string_of_list_ascii
                        (numeral ds ++ "."%char
                                      :: numeral (replicate k 0%nat)))) →
        cast_lanes data = Ok (numeral_value ds)) ∧
  0 ≤ numeral_value ds.
Proof.
  intros Hne Hds _. split; [|split].
  - intros Hl. unfold cast_lanes. rewrite Hl.
    change (float_of_string (string_of_list_ascii (numeral ds)) ≫= py_int
            = Ok (numeral_value ds)).
    rewrite <- (app_nil_r (numeral ds)).
    apply float_of_numeral; auto.
  - intros k Hl. unfold cast_lanes. rewrite Hl.
    change (float_of_string
              (string_of_list_ascii
                 (numeral ds ++ "."%char :: numeral (replicate k 0%nat)))
            ≫= py_int = Ok (numeral_value ds)).
    apply float_of_numeral; eauto.
  - apply numeral_value_nonneg.
Qed.
End Numerals.

Lemma lanes_written_as_a_numeral_witness :
  Step9c.cast_lanes (attrs [("lanes", PStr "12")]%string) = Ok 12 ∧
  Step9c.cast_lanes (attrs [("lanes", PStr "2.0")]%string) = Ok 2.
Proof.
  split.
  - refine (proj1 (lanes_written_as_a_numeral
                     (attrs [("lanes", PStr "12")]%string) [1; 2]%nat _ _ _) _).
    + discriminate.
    + repeat constructor; lia.
    + reflexivity.
    + vm_compute. reflexivity.
  - refine (proj1 (proj2 (lanes_written_as_a_numeral
                     (attrs [("lanes", PStr "2.0")]%string) [2]%nat _ _ _))
              1%nat _).
    + discriminate.
    + repeat constructor; lia.
    + reflexivity.
    + vm_compute. reflexivity.
Defined.

(** ** The clean-up of the downloaded graph *)

Section CleanUp.
Import Step9.

(** X18.  The fallback of [data.get('travel_time', ...)] is
    evaluated for every edge, also for one that has a travel time: once
    the lanes and the speed are cast, an edge without [length] raises
    [KeyError], one whose [length] is a string raises [TypeError], and
    one whose speed is zero and whose [length] is a number raises
    [ZeroDivisionError]; and one such edge anywhere in the downloaded
    graph leaves the script without a graph to save. *)
Theorem clean_edge_evaluates_the_fallback_first
    (e : Edge RawData) (lanes : Z) (speed : Q) :
  clean_lanes (e_data e) = Ok lanes →
  clean_speed (e_data e) = Ok speed →
  (e_data e !! "length"%string = None → clean_edge e = Raise KeyError) ∧
  (∀ s, e_data e !! "length"%string = Some (PStr s) →
        clean_edge e = Raise TypeError) ∧
  (∀ (len : Q) (m : Z),
     e_data e !! "length"%string = Some (PFloat len) ∨
     e_data e !! "length"%string = Some (PInt m) →
     (speed == 0)%Q → clean_edge e = Raise ZeroDivisionError) ∧
  (∀ nodes es1 es2 err,
     err ∈ [KeyError; TypeError; ZeroDivisionError] →
     clean_edge e = Raise err →
     rich_graph (Ok (mkGraph nodes (es1 ++ e :: es2))) = None).
Proof.
  intros Hl Hs. unfold clean_edge. rewrite Hl, Hs. cbn.
  split; [|split; [|split]].
  - by intros ->.
  - by intros s ->.
  - intros len m Hlen H0.
    assert (Qeq_bool (speed * 1000 / 3600) 0 = true) as Hz.
    { apply Qeq_bool_iff. rewrite H0. reflexivity. }
    destruct Hlen as [->| ->]; cbn; by rewrite Hz.
  - intros nodes es1 es2 err _ Herr. unfold rich_graph. cbn.
    destruct (mapM_Raise clean_edge (es1 ++ e :: es2) e err)
      as [err' ->]; [|..|done].
    + apply elem_of_app. right. apply list_elem_of_here.
    + unfold clean_edge. rewrite Hl, Hs. exact Herr.
Qed.

(** X19.  The clean-up of the download script and the cast of
    the congestion script agree: they compute the same lanes from the
    same attributes, the default speeds [30] and ['30'] give the same
    float, and an edge that the clean-up accepts keeps its end points and
    its key, carries the lanes and the speed so computed, and has its
    base travel time equal to its travel time. *)
Theorem clean_up_and_cast_agree (e : Edge RawData) :
  clean_lanes (e_data e) = Step9c.cast_lanes (e_data e) ∧
  clean_speed (e_data e)
  = py_float (default (PStr "30") (e_data e !! "speed_kph"%string))
    ≫= finite ∧
  (∀ e', clean_edge e = Ok e' →
     e_u e' = e_u e ∧ e_v e' = e_v e ∧ e_key e' = e_key e ∧
     clean_lanes (e_data e) = Ok (Step9c.lanes (e_data e')) ∧
     clean_speed (e_data e) = Ok (Step9c.speed_kph (e_data e')) ∧
     Step9c.base_travel_time (e_data e')
     = Step9c.travel_time (e_data e')).
Proof.
  split; [|split].
  - unfold clean_lanes, Step9c.cast_lanes.
    destruct (e_data e !! "lanes"%string) as [v|]; [done|].
    vm_compute. reflexivity.
  - unfold clean_speed.
    destruct (e_data e !! "speed_kph"%string) as [v|]; [done|].
    vm_compute. reflexivity.
  - intros e' He. unfold clean_edge in He.
    destruct (clean_lanes (e_data e)) as [l|]; [|done].
    destruct (clean_speed (e_data e)) as [s|]; [|done].
    cbn in He. by inv_result.
Qed.
End CleanUp.

(** ** The calibration of the agent count *)

Section Calibrated.
Import Calibration.


End Calibrated.

Lemma clean_edge_evaluates_the_fallback_first_witness :
  let e := mkEdge 1 2 0 (attrs [("travel_time", PFloat 12);
                                ("speed_kph", PInt 40)]%string) in
  Step9.clean_edge e = Raise KeyError ∧
  Step9.rich_graph (Ok (mkGraph [1; 2] [e])) = None.
Proof.
  cbv zeta. split.
  - refine (proj1 (clean_edge_evaluates_the_fallback_first _ 1 40 _ _) _);
      vm_compute; reflexivity.
  - refine (proj2 (proj2 (proj2
              (clean_edge_evaluates_the_fallback_first _ 1 40 _ _)))
              [1; 2] [] [] KeyError _ _);
      first [by constructor | vm_compute; reflexivity].
Defined.

Lemma clean_up_and_cast_agree_witness :
  let e := mkEdge 1 2 0 (attrs [("length", PFloat 100);
                                ("lanes", PStr "2")]%string) in
  ∃ e', Step9.clean_edge e = Ok e' ∧
        e_u e' = 1 ∧ e_v e' = 2 ∧ e_key e' = 0 ∧
        Step9.clean_lanes (e_data e) = Ok (Step9c.lanes (e_data e')) ∧
        Step9.clean_speed (e_data e) = Ok (Step9c.speed_kph (e_data e')) ∧
        Step9c.base_travel_time (e_data e')
        = Step9c.travel_time (e_data e').
Proof.
  cbv zeta. eexists. split; [vm_compute; reflexivity|].
  refine (proj2 (proj2 (clean_up_and_cast_agree
            (mkEdge 1 2 0 (attrs [("length", PFloat 100);
                                  ("lanes", PStr "2")]%string)))) _ _).
  vm_compute. reflexivity.
Defined.


(** ** Attaching the amenities *)

Section Attach.
Import Enrich.
Variable item : Item.
Variable df : DataFrame.
Variable kept : list (gmap string PyVal).

Lemma attach_complete : ∀ nodes i (g : NodeAttrs),
  (i + length nodes ≤ length kept)%nat →
  (∀ n, n ∈ nodes → n ∈ dom g) →
  ∃ g', attach item df kept i nodes g = (g', None) ∧
    ∀ n d, g !! n = Some d →
      (n ∉ nodes → g' !! n = Some d) ∧
      (∀ j row, nodes !! j = Some n →
         (∀ j', (j < j')%nat → nodes !! j' ≠ Some n) →
         kept !! (i + j)%nat = Some row →
         g' !! n
         = Some (<[attr item := name_of df (name_col item) row]> d)).
Proof.
  induction nodes as [|node rest IH]; intros i g Hlen Hdom.
  - exists g. split; [done|]. intros n d Hn. split; [done|].
    by intros j row ?.
  - cbn [attach]. cbn in Hlen.
    destruct (lookup_lt_is_Some_2 kept i) as [row0 Hrow0]; [lia|].
    rewrite Hrow0.
    assert (is_Some (g !! node)) as [d0 Hd0]
      by (apply elem_of_dom, Hdom, list_elem_of_here).
    rewrite Hd0.
    set (g1 := <[node:=<[attr item:=name_of df (name_col item) row0]> d0]> g).
    destruct (IH (S i) g1) as (g' & Hrun & Hspec).
    + lia.
    + intros n Hn. unfold g1. rewrite dom_insert_L.
      apply elem_of_union. right. by apply Hdom, list_elem_of_further.
    + exists g'. split; [done|]. intros n d Hn.
      destruct (decide (n = node)) as [->|Hne].
      * rewrite Hd0 in Hn. injection Hn as <-.
        assert (g1 !! node
                = Some (<[attr item:=name_of df (name_col item) row0]> d0))
          as Hg1 by apply lookup_insert_eq.
        destruct (Hspec node _ Hg1) as [Hout Hin]. split.
        { intros Hnot. exfalso. apply Hnot, list_elem_of_here. }
        intros j row Hj Hlast Hrow. destruct j as [|j].
        -- rewrite Nat.add_0_r, Hrow0 in Hrow. injection Hrow as <-.
           apply Hout. intros (j' & Hj')%list_elem_of_lookup_1.
           apply (Hlast (S j')); [lia|done].
        -- rewrite (Hin j row); [by rewrite insert_insert_eq|done| |].
           ++ intros j' Hlt. apply (Hlast (S j')). lia.
           ++ by replace (S i + j)%nat with (i + S j)%nat by lia.
      * assert (g1 !! n = Some d) as Hg1
          by (unfold g1; by rewrite lookup_insert_ne).
        destruct (Hspec n d Hg1) as [Hout Hin]. split.
        { intros Hnot. apply Hout. intros Hr.
          by apply Hnot, list_elem_of_further. }
        intros j row Hj Hlast Hrow. destruct j as [|j].
        { cbn in Hj. congruence. }
        apply (Hin j row); [done| |].
        -- intros j' Hlt. apply (Hlast (S j')). lia.
        -- by replace (S i + j)%nat with (i + S j)%nat by lia.
Qed.

Lemma attach_frame : ∀ nodes i (g : NodeAttrs),
  dom (attach item df kept i nodes g).1 = dom g ∧
  ∀ n d, g !! n = Some d →
    ∃ d', (attach item df kept i nodes g).1 !! n = Some d' ∧
          ∀ k, k ≠ attr item → d' !! k = d !! k.
Proof.
  induction nodes as [|node rest IH]; intros i g.
  - cbn. split; [done|]. eauto.
  - cbn [attach]. destruct (kept !! i) as [row0|]; [|cbn; eauto].
    destruct (g !! node) as [d0|] eqn:Hd0; [|cbn; eauto].
    set (g1 := <[node:=<[attr item:=name_of df (name_col item) row0]> d0]> g).
    destruct (IH (S i) g1) as [Hdom Hkeep]. split.
    + rewrite Hdom. unfold g1. rewrite dom_insert_L.
      apply elem_of_dom_2 in Hd0. set_solver.
    + intros n d Hn. destruct (decide (n = node)) as [->|Hne].
      * rewrite Hd0 in Hn. injection Hn as <-.
        destruct (Hkeep node _ (lookup_insert_eq _ _ _)) as (d' & Hd' & Hk).
        exists d'. split; [done|]. intros k Hk'. rewrite Hk by done.
        by rewrite lookup_insert_ne.
      * apply Hkeep. unfold g1. by rewrite lookup_insert_ne.
Qed.
End Attach.

Section Enrichment.
Import Enrich.
Variable nearest_nodes : list Cell → list Cell → result (list node).

(** X21.  Attaching one file of points: when the file is read,
    has the two coordinate columns, and [nearest_nodes] gives one node of
    the graph for each row that has both coordinates, a node that is
    nearest to no point keeps its attributes, and a node that is nearest
    to some point gets, under the attribute of the file, the name of the
    last such row, whatever it had there and whatever the earlier rows
    say. *)
Theorem last_point_on_a_node_names_it
    (item : Item) (df : DataFrame) (kept : list (gmap string PyVal))
    (nodes : list node) (g : NodeAttrs) :
  dropna (lat_col item) (lon_col item) df = Ok kept →
  nearest_nodes ((λ row, cell row (lon_col item)) <$> kept)
                ((λ row, cell row (lat_col item)) <$> kept) = Ok nodes →
  length nodes = length kept →
  (∀ n, n ∈ nodes → n ∈ dom g) →
  ∀ n d, g !! n = Some d →
    (n ∉ nodes → process nearest_nodes item (Ok df) g !! n = Some d) ∧
    (∀ j row, nodes !! j = Some n →
       (∀ j', (j < j')%nat → nodes !! j' ≠ Some n) →
       kept !! j = Some row →
       process nearest_nodes item (Ok df) g !! n
       = Some (<[attr item := name_of df (name_col item) row]> d)).
Proof.
  intros Hdrop Hnear Hlen Hdom n d Hn.
  unfold process. rewrite Hdrop. cbv zeta. rewrite Hnear.
  destruct (attach_complete item df kept nodes 0 g) as (g' & Hrun & Hspec);
    [lia|done|].
  rewrite Hrun. cbn [fst]. exact (Hspec n d Hn).
Qed.

Lemma process_frame (item : Item) (csv : result DataFrame) (g : NodeAttrs) :
  dom (process nearest_nodes item csv g) = dom g ∧
  ∀ n d, g !! n = Some d →
    ∃ d', process nearest_nodes item csv g !! n = Some d' ∧
          ∀ k, k ≠ attr item → d' !! k = d !! k.
Proof.
  unfold process. destruct csv as [df|]; [|eauto].
  destruct (dropna _ _ df) as [kept|]; [|eauto]. cbv zeta.
  destruct (nearest_nodes _ _) as [nodes|]; [|eauto].
  apply attach_frame.
Qed.

(** X22.  The enrichment never adds or removes a node, and on
    every node it leaves every attribute other than the four of
    [data_to_map] as it was, whatever the files hold, also when reading
    or processing some of them raises. *)
Theorem enrichment_keeps_the_nodes_and_the_other_attributes
    (files : string → result DataFrame) (g : NodeAttrs) :
  dom (enrich nearest_nodes files g) = dom g ∧
  ∀ n d, g !! n = Some d →
    ∃ d', enrich nearest_nodes files g !! n = Some d' ∧
          ∀ k, k ∉ attr <$> data_to_map → d' !! k = d !! k.
Proof.
  unfold enrich.
  assert (∀ items g,
    dom (foldl (λ g item, process nearest_nodes item (files (file item)) g)
           g items) = dom g ∧
    ∀ n d, g !! n = Some d →
      ∃ d', foldl (λ g item, process nearest_nodes item (files (file item)) g)
              g items !! n = Some d' ∧
            ∀ k, k ∉ attr <$> items → d' !! k = d !! k) as Hall;
    [|apply Hall].
  clear g. induction items as [|item items IH]; intros g.
  - cbn. split; [done|]. eauto.
  - cbn [foldl].
    destruct (process_frame item (files (file item)) g) as [Hdom1 Hkeep1].
    destruct (IH (process nearest_nodes item (files (file item)) g))
      as [Hdom2 Hkeep2].
    split; [congruence|]. intros n d Hn.
    destruct (Hkeep1 n d Hn) as (d1 & Hd1 & Hk1).
    destruct (Hkeep2 n d1 Hd1) as (d2 & Hd2 & Hk2).
    exists d2. split; [done|]. intros k Hk.
    rewrite fmap_cons, not_elem_of_cons in Hk. destruct Hk as [Hk Hks].
    rewrite Hk2 by done. by apply Hk1.
Qed.
End Enrichment.

Lemma last_point_on_a_node_names_it_witness :
  Enrich.process snap
    (Enrich.mkItem "healthcare_pune_clean.csv" "healthcare_amenity"
       "latitude" "longitude" "name")
    (Ok clinics) bare_nodes !! 2
  = Some (<[ "healthcare_amenity"%string
             := Enrich.Val (PStr "City Hospital") ]> ∅) ∧
  Enrich.process snap
    (Enrich.mkItem "healthcare_pune_clean.csv" "healthcare_amenity"
       "latitude" "longitude" "name")
    (Ok clinics) bare_nodes !! 3
  = Some (<[ "healthcare_amenity"%string := Enrich.NA ]> ∅).
Proof.
  set (item := Enrich.mkItem "healthcare_pune_clean.csv" "healthcare_amenity"
                 "latitude" "longitude" "name").
  assert (∀ n, n ∈ [2; 2; 3] → n ∈ dom bare_nodes) as Hdom.
  { intros n Hn. apply list_elem_of_In in Hn. cbn in Hn.
    destruct Hn as [<-|[<-|[<-|[]]]]; apply elem_of_dom; eexists;
      vm_compute; reflexivity. }
  split.
  - refine (proj2 (last_point_on_a_node_names_it snap item clinics _ [2; 2; 3]
                     bare_nodes _ _ _ Hdom 2 ∅ _) 1%nat
              (attrs [("name", PStr "City Hospital"); ("latitude", PInt 0);
                      ("longitude", PInt 2)]%string) _ _ _).
    + vm_compute. reflexivity.
    + vm_compute. reflexivity.
    + reflexivity.
    + vm_compute. reflexivity.
    + reflexivity.
    + intros [|[|[|j']]] Hlt; try lia; intros Hj; cbn in Hj; discriminate.
    + vm_compute. reflexivity.
  - refine (proj2 (last_point_on_a_node_names_it snap item clinics _ [2; 2; 3]
                     bare_nodes _ _ _ Hdom 3 ∅ _) 2%nat
              (attrs [("latitude", PInt 0); ("longitude", PInt 3)]%string)
              _ _ _).
    + vm_compute. reflexivity.
    + vm_compute. reflexivity.
    + reflexivity.
    + vm_compute. reflexivity.
    + reflexivity.
    + intros [|[|[|j']]] Hlt; try lia; intros Hj; cbn in Hj; discriminate.
    + vm_compute. reflexivity.
Defined.

Lemma enrichment_keeps_the_nodes_and_the_other_attributes_witness :
  dom (Enrich.enrich snap only_clinics bare_nodes) = dom bare_nodes ∧
  ∃ d', Enrich.enrich snap only_clinics bare_nodes !! 1 = Some d' ∧
        ∀ k, k ∉ Enrich.attr <$> Enrich.data_to_map →
             d' !! k
             = ({[ "street_count"%string := Enrich.Val (PInt 3) ]}
                  : gmap string Enrich.Cell) !! k.
Proof.
  split.
  - exact (proj1 (enrichment_keeps_the_nodes_and_the_other_attributes
                    snap only_clinics bare_nodes)).
  - refine (proj2 (enrichment_keeps_the_nodes_and_the_other_attributes
                     snap only_clinics bare_nodes) 1 _ _).
    vm_compute. reflexivity.
Defined.
